(** * Lowering of PXA to Affine: a shallow embedding of
    [pmlc/conversion/pxa_to_affine/pxa_to_affine.cc]

    The pass holds two rewrite patterns.  [AffineParallelOpConversion] turns
    one [affine.parallel] into a nest of [affine.for] loops and moves the body
    into the innermost one; [AffineReduceOpConversion] turns one [pxa.reduce]
    into a load, a combine and a store.  Both are written against MLIR's
    rewriter, which inserts operations at a movable insertion point and mutates
    the operation graph in place.

    The embedding keeps that shape: the IR is a tree of operations, the
    rewriter is a zipper over that tree (the insertion point is the focus), and
    the patterns are programs of a state-and-abort monad over the rewriter. *)

From Stdlib Require Import ZArith Lia.
From Stdlib Require Import Floats.SpecFloat.
From stdpp Require Import base option list gmap strings.

Local Open Scope Z_scope.

(** ** Types and values *)

Inductive FloatKind := BF16 | F16 | F32 | F64.

Inductive Signedness := Signless | Signed | Unsigned.

(** The part of MLIR's type system the pass looks at: [isa<FloatType>] on the
    loaded value, and the element type of the memref that is loaded from. *)
Inductive MType :=
| FloatType (kind : FloatKind)
| IntegerType (width : positive) (signedness : Signedness)
| IndexType
| MemRefType (shape : list Z) (elementType : MType).

(** An SSA value: its identity and the type it carries ([Value::getType]). *)
Record Value := mkValue { vid : positive; vtype : MType }.

#[global] Instance FloatKind_eq_dec : EqDecision FloatKind.
Proof. solve_decision. Defined.
#[global] Instance Signedness_eq_dec : EqDecision Signedness.
Proof. solve_decision. Defined.
#[global] Instance MType_eq_dec : EqDecision MType.
Proof.
  intros a. induction a as [k|w s| |sh e IH]; intros [k'|w' s'| |sh' e'];
    try (right; discriminate).
  - destruct (decide (k = k')); [left; congruence | right; congruence].
  - destruct (decide (w = w')), (decide (s = s'));
      [left; congruence | right; congruence ..].
  - left; reflexivity.
  - destruct (decide (sh = sh')), (IH e');
      [left; congruence | right; congruence ..].
Defined.
#[global] Instance Value_eq_dec : EqDecision Value.
Proof. solve_decision. Defined.

Definition isaFloatType (t : MType) : bool :=
  match t with FloatType _ => true | _ => false end.

Definition i1 : MType := IntegerType 1 Signless.

(** ** Affine maps *)

Module AffineExprKind.
Inductive t := Add | Mul | Mod | FloorDiv | CeilDiv.
End AffineExprKind.

Inductive AffineExpr :=
| AffineDimExpr (position : nat)
| AffineSymbolExpr (position : nat)
| AffineConstantExpr (value : Z)
| AffineBinaryOpExpr (kind : AffineExprKind.t) (lhs rhs : AffineExpr).

Record AffineMap := mkAffineMap {
  getNumDims : nat;
  getNumSymbols : nat;
  getResults : list AffineExpr }.

Definition getNumResults (m : AffineMap) : nat := length (getResults m).
Definition getNumInputs (m : AffineMap) : nat :=
  (getNumDims m + getNumSymbols m)%nat.

(** [AffineMap::getSubMap]: the map with the same dimensions and symbols whose
    results are the ones at [resultPos]; [getResult] asserts each position. *)
Definition getSubMap (m : AffineMap) (resultPos : list nat) : option AffineMap :=
  exprs ← mapM (λ idx, getResults m !! idx) resultPos;
  Some (mkAffineMap (getNumDims m) (getNumSymbols m) exprs).

(** ** Operations *)

Module CmpFPredicate.
Inductive t :=
| AlwaysFalse | OEQ | OGT | OGE | OLT | OLE | ONE | ORD
| UEQ | UGT | UGE | ULT | ULE | UNE | UNO | AlwaysTrue.
End CmpFPredicate.

Module CmpIPredicate.
Inductive t := eq | ne | slt | sle | sgt | sge | ult | ule | ugt | uge.
End CmpIPredicate.

Module AggregationKind.
(** Modelled from the spec: the declaration of [util::AggregationKind]
    (in [pmlc/util]) is not part of the file.  The spec names five kinds
    (overwrite, add, multiply, maximum, minimum); the switch in
    [createReduction] names them [assign], [add], [max], [min], [mul].
    [other] stands for any further value the enumeration's underlying integer
    can hold, which the switch sends to its [default]. *)
Inductive t := assign | add | max | min | mul | other (raw : Z).

Definition supported (k : t) : bool :=
  match k with other _ => false | _ => true end.
End AggregationKind.

#[local] Unset Elimination Schemes.
Inductive Operation :=
| AffineParallelOp (lbOperands : list Value) (lbMap : AffineMap)
                   (ubOperands : list Value) (ubMap : AffineMap)
                   (steps : list Z) (args : list Value) (body : list Operation)
| AffineForOp (lbOperands : list Value) (lbMap : AffineMap)
              (ubOperands : list Value) (ubMap : AffineMap)
              (step : Z) (iv : Value) (body : list Operation)
| AffineTerminatorOp
| AffineReduceOp (agg : AggregationKind.t) (val out : Value)
                 (map : AffineMap) (idxs : list Value)
| AffineLoadOp (result memref : Value) (map : AffineMap) (idxs : list Value)
| AffineStoreOp (value memref : Value) (map : AffineMap) (idxs : list Value)
| AddFOp (result lhs rhs : Value)
| AddIOp (result lhs rhs : Value)
| MulFOp (result lhs rhs : Value)
| MulIOp (result lhs rhs : Value)
| CmpFOp (predicate : CmpFPredicate.t) (result lhs rhs : Value)
| CmpIOp (predicate : CmpIPredicate.t) (result lhs rhs : Value)
| SelectOp (result condition trueValue falseValue : Value)
| OtherOp (name : string) (results operands args : list Value)
          (body : list Operation).

#[local] Set Elimination Schemes.

(** The two operations the patterns match, as the accessors of their C++
    classes present them. *)
Module AffineParallel.
Record t := mk {
  getLowerBoundsOperands : list Value;
  lowerBoundsMap : AffineMap;
  getUpperBoundsOperands : list Value;
  upperBoundsMap : AffineMap;
  steps : list Z;
  getArguments : list Value;      (* op.region().front().getArguments() *)
  getOperations : list Operation  (* op.region().front().getOperations() *) }.

Definition toOperation (op : t) : Operation :=
  AffineParallelOp (getLowerBoundsOperands op) (lowerBoundsMap op)
                   (getUpperBoundsOperands op) (upperBoundsMap op)
                   (steps op) (getArguments op) (getOperations op).
End AffineParallel.

Module AffineReduce.
Record t := mk {
  agg : AggregationKind.t;
  val : Value;
  out : Value;
  map : AffineMap;
  idxs : list Value }.

Definition toOperation (op : t) : Operation :=
  AffineReduceOp (agg op) (val op) (out op) (map op) (idxs op).
End AffineReduce.

(** The body of an operation that has a region. *)
Definition getBody (o : Operation) : option (list Operation) :=
  match o with
  | AffineParallelOp _ _ _ _ _ _ body
  | AffineForOp _ _ _ _ _ _ body
  | OtherOp _ _ _ _ body => Some body
  | _ => None
  end.

(** ** The rewriter

    A block under construction is a zipper.  [before] and [after] are the
    operations of the insertion block on either side of the insertion point;
    [frames] are the blocks around it, innermost first, each with the operation
    whose body is the block below it taken out ([shell]).  Created operations
    get fresh value identities from [nextId].

    The C++ patterns hold the matched operation by pointer.  A tree has no
    pointers, so the rewriter records where that operation is: the driver sets
    the insertion point right before it, which makes it the head of [after];
    [opDepth] counts the blocks the insertion point has since descended
    into.

    The conversion rewriter of MLIR postpones erasures until the whole
    conversion has succeeded; here [eraseOp] takes effect at once, which is
    the program the conversion ends with.  [llvm_unreachable] and the
    assertions of the builders stop the compiler, as they do in a build with
    assertions: a computation ends in [Ok] or in [Fatal], and [Fatal] keeps
    the state the rewriter was in when it stopped. *)

Inductive Shell :=
| ForShell (lbOperands : list Value) (lbMap : AffineMap)
           (ubOperands : list Value) (ubMap : AffineMap)
           (step : Z) (iv : Value)
| ParallelShell (lbOperands : list Value) (lbMap : AffineMap)
                (ubOperands : list Value) (ubMap : AffineMap)
                (steps : list Z) (args : list Value)
| OtherShell (name : string) (results operands args : list Value).

Definition plug (s : Shell) (body : list Operation) : Operation :=
  match s with
  | ForShell lbo lbm ubo ubm step iv => AffineForOp lbo lbm ubo ubm step iv body
  | ParallelShell lbo lbm ubo ubm steps args =>
      AffineParallelOp lbo lbm ubo ubm steps args body
  | OtherShell name results operands args =>
      OtherOp name results operands args body
  end.

Record Frame := mkFrame {
  above : list Operation;
  shell : Shell;
  below : list Operation }.

Record Rewriter := mkRewriter {
  frames : list Frame;
  before : list Operation;
  after : list Operation;
  opDepth : nat;
  nextId : positive }.

(** The block at the root of the zipper, with every frame closed again. *)
Fixpoint close (fs : list Frame) (blk : list Operation) : list Operation :=
  match fs with
  | [] => blk
  | f :: fs' => close fs' (above f ++ plug (shell f) blk :: below f)
  end.

Definition getProgram (st : Rewriter) : list Operation :=
  close (frames st) (before st ++ after st).

(** What stops the compiler: [llvm_unreachable], or an assertion of the
    MLIR and LLVM support code the patterns call. *)
Inductive Failure :=
| Unreachable (msg : string)
| AssertionFailed (msg : string).

Inductive Result (A : Type) :=
| Ok (a : A) (st : Rewriter)
| Fatal (why : Failure) (st : Rewriter).
Arguments Ok {A} a st.
Arguments Fatal {A} why st.

Definition M (A : Type) : Type := Rewriter → Result A.

Definition ret {A} (a : A) : M A := λ st, Ok a st.

Definition bind {A B} (m : M A) (k : A → M B) : M B :=
  λ st, match m st with
        | Ok a st' => k a st'
        | Fatal why st' => Fatal why st'
        end.

Definition abort {A} (why : Failure) : M A := λ st, Fatal why st.

Declare Scope rewriter_scope.
Delimit Scope rewriter_scope with rw.
Notation "x <- m ;; k" := (bind m (λ x, k))
  (at level 100, m at next level, right associativity) : rewriter_scope.
Notation "m ;; k" := (bind m (λ _, k))
  (at level 100, right associativity) : rewriter_scope.
Local Open Scope rewriter_scope.

Definition llvm_unreachable {A} (msg : string) : M A := abort (Unreachable msg).

Definition assert (b : bool) (msg : string) : M unit :=
  if b then ret tt else abort (AssertionFailed msg).

Definition freshValue (ty : MType) : M Value :=
  λ st, Ok (mkValue (nextId st) ty)
           (mkRewriter (frames st) (before st) (after st) (opDepth st)
                       (Pos.succ (nextId st))).

(** [OpBuilder::insert]: the new operation goes right before the insertion
    point, which stays where it is. *)
Definition insert (o : Operation) : M unit :=
  λ st, Ok tt (mkRewriter (frames st) (before st ++ [o]) (after st)
                          (opDepth st) (nextId st)).

(** *** The matched operation *)

Definition setAfter (l : list Operation) (st : Rewriter) : Rewriter :=
  mkRewriter (frames st) (before st) l (opDepth st) (nextId st).

Definition setBefore (l : list Operation) (st : Rewriter) : Rewriter :=
  mkRewriter (frames st) l (after st) (opDepth st) (nextId st).

Definition setFrames (fs : list Frame) (st : Rewriter) : Rewriter :=
  mkRewriter fs (before st) (after st) (opDepth st) (nextId st).

Definition setBelow (l : list Operation) (f : Frame) : Frame :=
  mkFrame (above f) (shell f) l.

(** The operations from the matched operation to the end of its block. *)
Definition fromMatched (st : Rewriter) : option (list Operation) :=
  match opDepth st with
  | O => Some (after st)
  | S d => below <$> frames st !! d
  end.

Definition setFromMatched (l : list Operation) (st : Rewriter) : Rewriter :=
  match opDepth st with
  | O => setAfter l st
  | S d => setFrames (alter (setBelow l) d (frames st)) st
  end.

(** [rewriter.eraseOp(op)]: the matched operation leaves its block. *)
Definition eraseOp : M unit :=
  λ st, match fromMatched st with
        | Some (_ :: rest) => Ok tt (setFromMatched rest st)
        | _ => Fatal (AssertionFailed "eraseOp: no matched operation") st
        end.

(** The state in which the driver hands an operation to a pattern: the
    insertion point is right before the operation, [pre] and [post] are its
    neighbours in its block and [outer] the blocks around that one. *)
Definition matched (outer : list Frame) (pre : list Operation)
    (op : Operation) (post : list Operation) (next : positive) : Rewriter :=
  mkRewriter outer pre (op :: post) 0 next.

Definition setBody (body : list Operation) (o : Operation) : Operation :=
  match o with
  | AffineParallelOp lbo lbm ubo ubm steps args _ =>
      AffineParallelOp lbo lbm ubo ubm steps args body
  | AffineForOp lbo lbm ubo ubm step iv _ =>
      AffineForOp lbo lbm ubo ubm step iv body
  | OtherOp name results operands args _ =>
      OtherOp name results operands args body
  | _ => o
  end.

(** The matched operation, changed in place. *)
Definition updateMatched (f : Operation → Operation) (st : Rewriter) : Rewriter :=
  match fromMatched st with
  | Some (o :: rest) => setFromMatched (f o :: rest) st
  | _ => st
  end.

(** ** Uses of values

    [Value::replaceAllUsesWith] walks the use list of a value, which reaches
    every operand that refers to it, wherever the using operation is.  Block
    arguments and results are definitions, not uses, and stay as they are. *)

Definition replaceValue (from to v : Value) : Value :=
  if decide (v = from) then to else v.

Fixpoint mapOperands (f : Value → Value) (o : Operation) : Operation :=
  match o with
  | AffineParallelOp lbo lbm ubo ubm steps args body =>
      AffineParallelOp (f <$> lbo) lbm (f <$> ubo) ubm steps args
                       (mapOperands f <$> body)
  | AffineForOp lbo lbm ubo ubm step iv body =>
      AffineForOp (f <$> lbo) lbm (f <$> ubo) ubm step iv
                  (mapOperands f <$> body)
  | AffineTerminatorOp => AffineTerminatorOp
  | AffineReduceOp agg val out map idxs =>
      AffineReduceOp agg (f val) (f out) map (f <$> idxs)
  | AffineLoadOp result memref map idxs =>
      AffineLoadOp result (f memref) map (f <$> idxs)
  | AffineStoreOp value memref map idxs =>
      AffineStoreOp (f value) (f memref) map (f <$> idxs)
  | AddFOp result lhs rhs => AddFOp result (f lhs) (f rhs)
  | AddIOp result lhs rhs => AddIOp result (f lhs) (f rhs)
  | MulFOp result lhs rhs => MulFOp result (f lhs) (f rhs)
  | MulIOp result lhs rhs => MulIOp result (f lhs) (f rhs)
  | CmpFOp p result lhs rhs => CmpFOp p result (f lhs) (f rhs)
  | CmpIOp p result lhs rhs => CmpIOp p result (f lhs) (f rhs)
  | SelectOp result c t e => SelectOp result (f c) (f t) (f e)
  | OtherOp name results operands args body =>
      OtherOp name results (f <$> operands) args
              (mapOperands f <$> body)
  end.

(** Every operand of an operation and of the operations nested in it. *)
Fixpoint uses (o : Operation) : list Value :=
  match o with
  | AffineParallelOp lbo _ ubo _ _ _ body
  | AffineForOp lbo _ ubo _ _ _ body =>
      lbo ++ ubo ++ (body ≫= uses)
  | AffineTerminatorOp => []
  | AffineReduceOp _ val out _ idxs => val :: out :: idxs
  | AffineLoadOp _ memref _ idxs => memref :: idxs
  | AffineStoreOp value memref _ idxs => value :: memref :: idxs
  | AddFOp _ lhs rhs | AddIOp _ lhs rhs | MulFOp _ lhs rhs | MulIOp _ lhs rhs
  | CmpFOp _ _ lhs rhs | CmpIOp _ _ lhs rhs => [lhs; rhs]
  | SelectOp _ c t e => [c; t; e]
  | OtherOp _ _ operands _ body => operands ++ (body ≫= uses)
  end.

Definition mapShell (f : Value → Value) (s : Shell) : Shell :=
  match s with
  | ForShell lbo lbm ubo ubm step iv =>
      ForShell (f <$> lbo) lbm (f <$> ubo) ubm step iv
  | ParallelShell lbo lbm ubo ubm steps args =>
      ParallelShell (f <$> lbo) lbm (f <$> ubo) ubm steps args
  | OtherShell name results operands args =>
      OtherShell name results (f <$> operands) args
  end.

Definition mapFrame (f : Value → Value) (fr : Frame) : Frame :=
  mkFrame (mapOperands f <$> above fr) (mapShell f (shell fr))
          (mapOperands f <$> below fr).

Definition mapRewriter (f : Value → Value) (st : Rewriter) : Rewriter :=
  mkRewriter (mapFrame f <$> frames st) (mapOperands f <$> before st)
             (mapOperands f <$> after st) (opDepth st) (nextId st).

Definition replaceAllUsesWith (from to : Value) : M unit :=
  λ st, Ok tt (mapRewriter (replaceValue from to) st).

(** *** Builders

    [rewriter.create<OpTy>(loc, args...)] runs [OpTy::build] and inserts the
    operation.  The result types and the assertions are those of the MLIR
    builders; the location argument plays no part and is left out. *)

Definition createAffineLoadOp (memref : Value) (map : AffineMap)
    (mapOperands : list Value) : M Value :=
  assert (bool_decide (getNumInputs map = length mapOperands))
         "inconsistent index info" ;;
  match vtype memref with
  | MemRefType _ elementType =>
      result <- freshValue elementType ;;
      insert (AffineLoadOp result memref map mapOperands) ;;
      ret result
  | _ => abort (AssertionFailed "cast<MemRefType>")
  end.

Definition createAffineStoreOp (valueToStore memref : Value) (map : AffineMap)
    (mapOperands : list Value) : M unit :=
  assert (bool_decide (getNumInputs map = length mapOperands))
         "inconsistent index info" ;;
  insert (AffineStoreOp valueToStore memref map mapOperands).

Definition createBinary (mk : Value → Value → Value → Operation)
    (lhs rhs : Value) : M Value :=
  result <- freshValue (vtype lhs) ;;
  insert (mk result lhs rhs) ;;
  ret result.

Definition createAddFOp := createBinary AddFOp.
Definition createAddIOp := createBinary AddIOp.
Definition createMulFOp := createBinary MulFOp.
Definition createMulIOp := createBinary MulIOp.

Definition createCmpFOp (predicate : CmpFPredicate.t) (lhs rhs : Value) : M Value :=
  result <- freshValue i1 ;;
  insert (CmpFOp predicate result lhs rhs) ;;
  ret result.

Definition createCmpIOp (predicate : CmpIPredicate.t) (lhs rhs : Value) : M Value :=
  result <- freshValue i1 ;;
  insert (CmpIOp predicate result lhs rhs) ;;
  ret result.

Definition createSelectOp (condition trueValue falseValue : Value) : M Value :=
  result <- freshValue (vtype trueValue) ;;
  insert (SelectOp result condition trueValue falseValue) ;;
  ret result.

(** A list without its last element, and that element: what
    [std::prev(l.end())] points at, when there is one. *)
Fixpoint unsnoc {A} (l : list A) : option (list A * A) :=
  match l with
  | [] => None
  | x :: l' =>
      match unsnoc l' with
      | None => Some ([], x)
      | Some (init, y) => Some (x :: init, y)
      end
  end.

(** [ArrayRef::operator[]] and [SmallVector::operator[]] assert the index. *)
Definition at_ {A} (l : list A) (idx : nat) : M A :=
  match l !! idx with
  | Some x => ret x
  | None => abort (AssertionFailed "Invalid index!")
  end.

Definition getSubMapM (m : AffineMap) (resultPos : list nat) : M AffineMap :=
  match getSubMap m resultPos with
  | Some m' => ret m'
  | None => abort (AssertionFailed "Invalid index!")
  end.

(** [rewriter.create<mlir::AffineForOp>]: the builder checks the operand
    counts and the step, gives the loop a body block with the induction
    variable as its argument, and ends the block with a terminator.  The
    induction variable of the new loop is returned. *)
Definition createAffineForOp (lbOperands : list Value) (lbMap : AffineMap)
    (ubOperands : list Value) (ubMap : AffineMap) (step : Z) : M Value :=
  assert (bool_decide (length lbOperands = getNumInputs lbMap))
         "lower bound operand count does not match the affine map" ;;
  assert (bool_decide (length ubOperands = getNumInputs ubMap))
         "upper bound operand count does not match the affine map" ;;
  assert (0 <? step) "step has to be a positive integer constant" ;;
  iv <- freshValue IndexType ;;
  insert (AffineForOp lbOperands lbMap ubOperands ubMap step iv
                      [AffineTerminatorOp]) ;;
  ret iv.

(** [rewriter.setInsertionPointToStart(&af.region().front())], for [af] the
    loop just created, which is the operation right before the insertion
    point: the insertion point moves to the start of its body. *)
Definition setInsertionPointToStart : M unit :=
  λ st, match unsnoc (before st) with
        | Some (init, AffineForOp lbo lbm ubo ubm step iv body) =>
            Ok tt (mkRewriter
                     (mkFrame init (ForShell lbo lbm ubo ubm step iv) (after st)
                        :: frames st)
                     [] body (S (opDepth st)) (nextId st))
        | _ => Fatal (AssertionFailed "no loop before the insertion point") st
        end.

(** ** [AffineParallelOpConversion] *)

Module AffineParallelOpConversion.
Import AffineParallel.

(** Lines 65-74: the loop that creates the nest; [i] is the loop counter and
    [count] the iterations left. *)
Fixpoint createLoops (op : AffineParallel.t) (i count : nat) (ivs : list Value)
  : M (list Value) :=
  match count with
  | O => ret ivs
  | S count' =>
      step <- at_ (steps op) i ;;
      lbMap <- getSubMapM (lowerBoundsMap op) [i] ;;
      ubMap <- getSubMapM (upperBoundsMap op) [i] ;;
      iv <- createAffineForOp (getLowerBoundsOperands op) lbMap
                              (getUpperBoundsOperands op) ubMap step ;;
      setInsertionPointToStart ;;
      createLoops op (S i) count' (ivs ++ [iv])
  end.

(** Lines 78-87: all of the body but its last operation moves, as one run, in
    front of [insertionLoc]: the last operation of the insertion block when
    loops were created, the matched operation itself when not.  The matched
    operation keeps the last operation of its body. *)
Definition spliceBody (op : AffineParallel.t) : M unit :=
  λ st,
    match unsnoc (getOperations op) with
    | None => Fatal (AssertionFailed "std::prev of an empty list") st
    | Some (moved, terminator) =>
        let st := updateMatched (setBody [terminator]) st in
        if (0 <? getNumResults (lowerBoundsMap op))%nat then
          match unsnoc (after st), unsnoc (before st) with
          | Some (init, lastOp), _ =>
              Ok tt (setAfter (init ++ moved ++ [lastOp]) st)
          | None, Some (init, lastOp) =>
              Ok tt (setBefore (init ++ moved ++ [lastOp]) st)
          | None, None =>
              Fatal (AssertionFailed "std::prev of an empty list") st
          end
        else
          (* no loop was created: the insertion point is still right before
             the matched operation *)
          Ok tt (setBefore (before st ++ moved) st)
    end.

(** Lines 89-92: the loop over the block arguments, [idx] being the running
    index into [ivs]. *)
Fixpoint replaceArguments (args ivs : list Value) (idx : nat) : M unit :=
  match args with
  | [] => ret tt
  | arg :: args' =>
      iv <- at_ ivs idx ;;
      replaceAllUsesWith arg iv ;;
      replaceArguments args' ivs (S idx)
  end.

(** Lines 62-95; the [operands] argument is not used by the pattern. *)
Definition rewrite (op : AffineParallel.t) : M unit :=
  ivs <- createLoops op 0 (getNumResults (lowerBoundsMap op)) [] ;;
  spliceBody op ;;
  replaceArguments (getArguments op) ivs 0 ;;
  eraseOp.

End AffineParallelOpConversion.

(** ** [AffineReduceOpConversion] *)

Module AffineReduceOpConversion.
Import AffineReduce.

(** Lines 111-158. *)
Definition createReduction (op : AffineReduce.t) (source : Value) : M Value :=
  match agg op with
  | AggregationKind.assign => ret (val op)
  | AggregationKind.add =>
      if isaFloatType (vtype source)
      then createAddFOp source (val op)
      else createAddIOp source (val op)
  | AggregationKind.max =>
      if isaFloatType (vtype source)
      then cmp <- createCmpFOp CmpFPredicate.OGT (val op) source ;;
           createSelectOp cmp (val op) source
      else cmp <- createCmpIOp CmpIPredicate.sgt (val op) source ;;
           createSelectOp cmp (val op) source
  | AggregationKind.min =>
      if isaFloatType (vtype source)
      then cmp <- createCmpFOp CmpFPredicate.OLT (val op) source ;;
           createSelectOp cmp (val op) source
      else cmp <- createCmpIOp CmpIPredicate.slt (val op) source ;;
           createSelectOp cmp (val op) source
  | AggregationKind.mul =>
      if isaFloatType (vtype source)
      then createMulFOp source (val op)
      else createMulIOp source (val op)
  | AggregationKind.other _ =>
      llvm_unreachable
        "Unsupported aggregation for AffineReduceOpConversion::createReduction"
  end.

(** Lines 101-109. *)
Definition rewrite (op : AffineReduce.t) : M unit :=
  source <- createAffineLoadOp (out op) (map op) (idxs op) ;;
  reduce <- createReduction op source ;;
  createAffineStoreOp reduce (out op) (map op) (idxs op) ;;
  eraseOp.

End AffineReduceOpConversion.

(** ** What the emitted arithmetic computes

    The patterns only build operations; what a combine yields is what the
    standard dialect's operations compute.  Floats are IEEE binary formats
    ([SpecFloat], with one not-a-number), integers are [width]-bit patterns
    kept as [Z] in [0, 2^width). *)

Inductive RVal := RFloat (f : spec_float) | RInt (bits : Z).

Definition prec (k : FloatKind) : Z :=
  match k with BF16 => 8 | F16 => 11 | F32 => 24 | F64 => 53 end.

Definition emax (k : FloatKind) : Z :=
  match k with BF16 => 128 | F16 => 16 | F32 => 128 | F64 => 1024 end.

Definition wrap (width : positive) (z : Z) : Z := z mod 2 ^ Z.pos width.

Definition signed (width : positive) (bits : Z) : Z :=
  let u := wrap width bits in
  if u <? 2 ^ (Z.pos width - 1) then u else u - 2 ^ Z.pos width.

Definition evalCmpF (p : CmpFPredicate.t) (a b : spec_float) : bool :=
  let c := SFcompare a b in
  match p with
  | CmpFPredicate.AlwaysFalse => false
  | CmpFPredicate.OEQ => bool_decide (c = Some Eq)
  | CmpFPredicate.OGT => bool_decide (c = Some Gt)
  | CmpFPredicate.OGE => bool_decide (c = Some Gt ∨ c = Some Eq)
  | CmpFPredicate.OLT => bool_decide (c = Some Lt)
  | CmpFPredicate.OLE => bool_decide (c = Some Lt ∨ c = Some Eq)
  | CmpFPredicate.ONE => bool_decide (c = Some Lt ∨ c = Some Gt)
  | CmpFPredicate.ORD => bool_decide (c ≠ None)
  | CmpFPredicate.UEQ => bool_decide (c = None ∨ c = Some Eq)
  | CmpFPredicate.UGT => bool_decide (c = None ∨ c = Some Gt)
  | CmpFPredicate.UGE => bool_decide (c ≠ Some Lt)
  | CmpFPredicate.ULT => bool_decide (c = None ∨ c = Some Lt)
  | CmpFPredicate.ULE => bool_decide (c ≠ Some Gt)
  | CmpFPredicate.UNE => bool_decide (c ≠ Some Eq)
  | CmpFPredicate.UNO => bool_decide (c = None)
  | CmpFPredicate.AlwaysTrue => true
  end.

Definition evalCmpI (width : positive) (p : CmpIPredicate.t) (a b : Z) : bool :=
  match p with
  | CmpIPredicate.eq => wrap width a =? wrap width b
  | CmpIPredicate.ne => negb (wrap width a =? wrap width b)
  | CmpIPredicate.slt => signed width a <? signed width b
  | CmpIPredicate.sle => signed width a <=? signed width b
  | CmpIPredicate.sgt => signed width a >? signed width b
  | CmpIPredicate.sge => signed width a >=? signed width b
  | CmpIPredicate.ult => wrap width a <? wrap width b
  | CmpIPredicate.ule => wrap width a <=? wrap width b
  | CmpIPredicate.ugt => wrap width a >? wrap width b
  | CmpIPredicate.uge => wrap width a >=? wrap width b
  end.

(** The width integer arithmetic runs at: that of the integer type, whatever
    its signedness; [index] is taken as 64 bits. *)
Definition intWidth (t : MType) : option positive :=
  match t with
  | IntegerType width _ => Some width
  | IndexType => Some 64%positive
  | _ => None
  end.

Definition readFloat (env : gmap positive RVal) (v : Value) : option spec_float :=
  match env !! vid v with Some (RFloat f) => Some f | _ => None end.

Definition readInt (env : gmap positive RVal) (v : Value) : option Z :=
  match env !! vid v with Some (RInt z) => Some z | _ => None end.

Definition floatBinary (f : Z → Z → spec_float → spec_float → spec_float)
    (result lhs rhs : Value) (env : gmap positive RVal)
  : option (gmap positive RVal) :=
  match vtype lhs with
  | FloatType k =>
      a ← readFloat env lhs; b ← readFloat env rhs;
      Some (<[vid result := RFloat (f (prec k) (emax k) a b)]> env)
  | _ => None
  end.

Definition intBinary (f : Z → Z → Z) (result lhs rhs : Value)
    (env : gmap positive RVal) : option (gmap positive RVal) :=
  width ← intWidth (vtype lhs);
  a ← readInt env lhs; b ← readInt env rhs;
  Some (<[vid result := RInt (wrap width (f a b))]> env).

(** One step of straight-line arithmetic; memory and control flow are not
    interpreted. *)
Definition evalOp (o : Operation) (env : gmap positive RVal)
  : option (gmap positive RVal) :=
  match o with
  | AddFOp result lhs rhs => floatBinary SFadd result lhs rhs env
  | MulFOp result lhs rhs => floatBinary SFmul result lhs rhs env
  | AddIOp result lhs rhs => intBinary Z.add result lhs rhs env
  | MulIOp result lhs rhs => intBinary Z.mul result lhs rhs env
  | CmpFOp p result lhs rhs =>
      a ← readFloat env lhs; b ← readFloat env rhs;
      Some (<[vid result := RInt (Z.b2z (evalCmpF p a b))]> env)
  | CmpIOp p result lhs rhs =>
      width ← intWidth (vtype lhs);
      a ← readInt env lhs; b ← readInt env rhs;
      Some (<[vid result := RInt (Z.b2z (evalCmpI width p a b))]> env)
  | SelectOp result condition trueValue falseValue =>
      c ← readInt env condition;
      x ← env !! vid (if Z.odd c then trueValue else falseValue);
      Some (<[vid result := x]> env)
  | _ => None
  end.

Fixpoint evalOps (ops : list Operation) (env : gmap positive RVal)
  : option (gmap positive RVal) :=
  match ops with
  | [] => Some env
  | o :: rest => env' ← evalOp o env; evalOps rest env'
  end.

(** ** The combine table, as the specification words it

    Overwrite yields V; add and multiply yield L + V and L × V in the
    arithmetic of the scalar kind; maximum (minimum) yields V when V is
    strictly greater (less) than L, ordered for floats and signed for
    integers, and L otherwise. *)

Definition combineFloat (k : FloatKind) (a : AggregationKind.t)
    (L V : spec_float) : option spec_float :=
  match a with
  | AggregationKind.assign => Some V
  | AggregationKind.add => Some (SFadd (prec k) (emax k) L V)
  | AggregationKind.mul => Some (SFmul (prec k) (emax k) L V)
  | AggregationKind.max => Some (if bool_decide (SFcompare V L = Some Gt) then V else L)
  | AggregationKind.min => Some (if bool_decide (SFcompare V L = Some Lt) then V else L)
  | AggregationKind.other _ => None
  end.

Definition combineInt (width : positive) (a : AggregationKind.t)
    (L V : Z) : option Z :=
  match a with
  | AggregationKind.assign => Some V
  | AggregationKind.add => Some (wrap width (L + V))
  | AggregationKind.mul => Some (wrap width (L * V))
  | AggregationKind.max => Some (if signed width L <? signed width V then V else L)
  | AggregationKind.min => Some (if signed width V <? signed width L then V else L)
  | AggregationKind.other _ => None
  end.

(** The runtime values a value of type [t] can hold. *)
Definition holds (t : MType) (v : RVal) : bool :=
  match t, v with
  | FloatType _, RFloat _ => true
  | IntegerType _ _, RInt _ => true
  | IndexType, RInt _ => true
  | _, _ => false
  end.

(** The table, dispatched on the scalar kind the type of the loaded value
    stands for. *)
Definition combine (t : MType) (a : AggregationKind.t) (L V : RVal)
  : option RVal :=
  match t, L, V with
  | FloatType k, RFloat l, RFloat v => RFloat <$> combineFloat k a l v
  | IntegerType w _, RInt l, RInt v => RInt <$> combineInt w a l v
  | IndexType, RInt l, RInt v => RInt <$> combineInt 64 a l v
  | _, _, _ => None
  end.

(** The number of operations a combine takes: none for overwrite, one for add
    and multiply, a compare and a select for maximum and minimum. *)
Definition combineSize (a : AggregationKind.t) : nat :=
  match a with
  | AggregationKind.assign => 0
  | AggregationKind.add | AggregationKind.mul => 1
  | AggregationKind.max | AggregationKind.min => 2
  | AggregationKind.other _ => 0
  end.

(** Literals for the examples: the float of an integer, and the bit pattern
    of a signed integer. *)
Definition floatOfZ (k : FloatKind) (z : Z) : spec_float :=
  binary_normalize (prec k) (emax k) z 0 false.

Definition bitsOfZ (width : positive) (z : Z) : Z := wrap width z.

(** ** The loop nest, as the specification words it

    N loops nested outer to inner in dimension order; loop i has dimension i's
    step and the bound maps projected onto result i, every loop has the full
    operand lists of the original bounds; the moved operations sit in the
    innermost body, in front of its terminator.  With no dimension there is no
    loop and the moved operations stand where the nest would. *)

Definition projected (m : AffineMap) (e : AffineExpr) : AffineMap :=
  mkAffineMap (getNumDims m) (getNumSymbols m) [e].

Record Dimension := mkDimension {
  lower : AffineMap;
  upper : AffineMap;
  step : Z;
  inductionVar : Value }.

Definition dimensions (op : AffineParallel.t) (ivs : list Value) : list Dimension :=
  zip_with (λ bounds stepIv,
              mkDimension (projected (AffineParallel.lowerBoundsMap op) bounds.1)
                          (projected (AffineParallel.upperBoundsMap op) bounds.2)
                          stepIv.1 stepIv.2)
    (zip (getResults (AffineParallel.lowerBoundsMap op))
         (getResults (AffineParallel.upperBoundsMap op)))
    (zip (AffineParallel.steps op) ivs).

Fixpoint loopNest (lbOperands ubOperands : list Value) (dims : list Dimension)
    (inner : list Operation) : list Operation :=
  match dims with
  | [] => inner
  | d :: dims' =>
      [AffineForOp lbOperands (lower d) ubOperands (upper d) (step d)
                   (inductionVar d)
                   (loopNest lbOperands ubOperands dims' inner
                      ++ [AffineTerminatorOp])]
  end.

(** The values the rewriter hands out from [next] on. *)
Fixpoint freshValues (t : MType) (next : positive) (count : nat) : list Value :=
  match count with
  | O => []
  | S count' => mkValue next t :: freshValues t (Pos.succ next) count'
  end.

(** The placeholders renamed one after the other, as the loop over the block
    arguments does it. *)
Fixpoint renaming (args ivs : list Value) (v : Value) : Value :=
  match args, ivs with
  | arg :: args', iv :: ivs' => renaming args' ivs' (replaceValue arg iv v)
  | _, _ => v
  end.

(** The induction variables the pattern creates for [op] when the rewriter's
    next identity is [next], and the nest around [inner] it builds. *)
Definition newInductionVars (op : AffineParallel.t) (next : positive) : list Value :=
  freshValues IndexType next (getNumResults (AffineParallel.lowerBoundsMap op)).

Definition nestOf (op : AffineParallel.t) (next : positive)
    (inner : list Operation) : list Operation :=
  loopNest (AffineParallel.getLowerBoundsOperands op)
           (AffineParallel.getUpperBoundsOperands op)
           (dimensions op (newInductionVars op next)) inner.

(** What the builders called by the pattern ask of a loop: as many upper
    bounds and steps as lower bounds, operand lists that fit the bound maps,
    positive steps. *)
Definition buildable (op : AffineParallel.t) : Prop :=
  let N := getNumResults (AffineParallel.lowerBoundsMap op) in
  getNumResults (AffineParallel.upperBoundsMap op) = N ∧
  length (AffineParallel.steps op) = N ∧
  length (AffineParallel.getLowerBoundsOperands op)
    = getNumInputs (AffineParallel.lowerBoundsMap op) ∧
  length (AffineParallel.getUpperBoundsOperands op)
    = getNumInputs (AffineParallel.upperBoundsMap op) ∧
  Forall (λ s, 0 < s) (AffineParallel.steps op).

(** A loop as the data model has it: buildable, with one placeholder (block
    argument) per dimension. *)
Definition verified (op : AffineParallel.t) : Prop :=
  length (AffineParallel.getArguments op)
    = getNumResults (AffineParallel.lowerBoundsMap op) ∧
  buildable op.

(** ** Predicates the statements are written with *)

(** [emitted st st' ops]: from [st] to [st'] the rewriter inserted exactly
    [ops], in that order, at the insertion point, and touched nothing else of
    the program. *)
Definition emitted (st st' : Rewriter) (ops : list Operation) : Prop :=
  frames st' = frames st ∧ before st' = before st ++ ops ∧
  after st' = after st ∧ opDepth st' = opDepth st.

(** The state right after the pattern has created the load: the load is the
    last operation before the insertion point and one identity is used up. *)
Definition afterLoad (outer : list Frame) (pre : list Operation)
    (op : AffineReduce.t) (source : Value) (post : list Operation)
    (next : positive) : Rewriter :=
  mkRewriter outer
    (pre ++ [AffineLoadOp source (AffineReduce.out op) (AffineReduce.map op)
                          (AffineReduce.idxs op)])
    (AffineReduce.toOperation op :: post) 0 (Pos.succ next).

(** ** Where values are used *)

Definition shellUses (s : Shell) : list Value :=
  match s with
  | ForShell lbo _ ubo _ _ _ | ParallelShell lbo _ ubo _ _ _ => lbo ++ ubo
  | OtherShell _ _ operands _ => operands
  end.

Definition frameUses (fr : Frame) : list Value :=
  (above fr ≫= uses) ++ shellUses (shell fr) ++ (below fr ≫= uses).

(** Every use of a placeholder of [op] lies inside the body of [op]: none in
    the blocks around it, none among its neighbours, none among its own bound
    operands. *)
Definition scoped (op : AffineParallel.t) (outer : list Frame)
    (pre post : list Operation) : Prop :=
  ∀ a, a ∈ AffineParallel.getArguments op →
    a ∉ (outer ≫= frameUses) ++ (pre ≫= uses) ++
        AffineParallel.getLowerBoundsOperands op ++
        AffineParallel.getUpperBoundsOperands op ++ (post ≫= uses).

(** ** Shapes of blocks *)

Definition isTerminator (o : Operation) : bool :=
  match o with AffineTerminatorOp => true | _ => false end.

Definition nonTerminators (blk : list Operation) : list Operation :=
  filter (λ o, isTerminator o = false) blk.

Definition isLoad (o : Operation) : bool :=
  match o with AffineLoadOp _ _ _ _ => true | _ => false end.

Definition isStore (o : Operation) : bool :=
  match o with AffineStoreOp _ _ _ _ => true | _ => false end.

(** The operations a combine is made of. *)
Definition isArithmetic (o : Operation) : bool :=
  match o with
  | AddFOp _ _ _ | AddIOp _ _ _ | MulFOp _ _ _ | MulIOp _ _ _
  | CmpFOp _ _ _ _ | CmpIOp _ _ _ _ | SelectOp _ _ _ _ => true
  | _ => false
  end.

(** The body reached by going [depth] loops down from the first operation of
    a block; at depth 0, the block itself. *)
Fixpoint innermostBody (depth : nat) (blk : list Operation)
  : option (list Operation) :=
  match depth with
  | O => Some blk
  | S depth' =>
      match blk with
      | AffineForOp _ _ _ _ _ _ body :: _ => innermostBody depth' body
      | _ => None
      end
  end.

(** The number of [affine.for] operations in a block, nested ones included. *)
Fixpoint countFor (o : Operation) : nat :=
  match o with
  | AffineForOp _ _ _ _ _ _ body => S (sum_list_with countFor body)
  | AffineParallelOp _ _ _ _ _ _ body | OtherOp _ _ _ _ body =>
      sum_list_with countFor body
  | _ => 0
  end.

Definition countForBlock (blk : list Operation) : nat :=
  sum_list_with countFor blk.

(** ** The rewriter inside a new nest *)

(** The rewriter once it has created the loops of [dims] and stands inside
    the innermost one: the frames of the new loops, innermost first, on top of
    the frame state [st] was in. *)
Definition forShell (lbOperands ubOperands : list Value) (d : Dimension) : Shell :=
  ForShell lbOperands (lower d) ubOperands (upper d) (step d) (inductionVar d).

Fixpoint descend (lbOperands ubOperands : list Value) (dims : list Dimension)
    (st : Rewriter) : Rewriter :=
  match dims with
  | [] => st
  | d :: dims' =>
      descend lbOperands ubOperands dims'
        (mkRewriter
           (mkFrame (before st) (forShell lbOperands ubOperands d) (after st)
              :: frames st)
           [] [AffineTerminatorOp] (S (opDepth st)) (Pos.succ (nextId st)))
  end.

(** [dims] are the dimensions [i], [i+1], ... of [op], with induction
    variables numbered from [next]. *)
Definition dimsFrom (op : AffineParallel.t) (i : nat) (next : positive)
    (dims : list Dimension) : Prop :=
  (inductionVar <$> dims) = freshValues IndexType next (length dims) ∧
  ∀ k d, dims !! k = Some d →
    getSubMap (AffineParallel.lowerBoundsMap op) [(i + k)%nat] = Some (lower d) ∧
    getSubMap (AffineParallel.upperBoundsMap op) [(i + k)%nat] = Some (upper d) ∧
    AffineParallel.steps op !! (i + k)%nat = Some (step d) ∧ 0 < step d.

(** The program with [ops] put in at the insertion point. *)
Definition insertAt (ops : list Operation) (st : Rewriter) : list Operation :=
  close (frames st) (before st ++ ops ++ after st).

(** ** Example programs

    A 4 × 8 buffer of [f64] or of [i32], two indices, and a reduce into the
    buffer at those indices. *)

Definition f64 : MType := FloatType F64.
Definition i32 : MType := IntegerType 32 Signless.
Definition ui8 : MType := IntegerType 8 Unsigned.

Definition identityMap2 : AffineMap :=
  mkAffineMap 2 0 [AffineDimExpr 0; AffineDimExpr 1].

Definition exBuffer (t : MType) : Value := mkValue 1 (MemRefType [4; 8] t).
Definition exVal (t : MType) : Value := mkValue 2 t.
Definition exI : Value := mkValue 3 IndexType.
Definition exJ : Value := mkValue 4 IndexType.

Definition exReduce (t : MType) (a : AggregationKind.t) : AffineReduce.t :=
  AffineReduce.mk a (exVal t) (exBuffer t) identityMap2 [exI; exJ].

(** The reduce alone in its block, handed to the pattern. *)
Definition exReduceState (t : MType) (a : AggregationKind.t) : Rewriter :=
  matched [] [] (AffineReduce.toOperation (exReduce t a)) [] 5.

(** The loaded value (the first value the pattern creates) and the state
    after the load, where [createReduction] starts. *)
Definition exSource (t : MType) : Value := mkValue 5 t.

Definition exLoaded (t : MType) (a : AggregationKind.t) : Rewriter :=
  afterLoad [] [] (exReduce t a) (exSource t) [] 5.

(** An environment with L in the loaded value and V in the reduce's value. *)
Definition exEnv (L V : RVal) : gmap positive RVal :=
  <[5%positive := L]> (<[2%positive := V]> ∅).

(** The end-to-end scenario of the specification: a loop over [0,4) × [0,8)
    with steps 1 and 2 whose body is one floating add-reduce indexed by both
    placeholders. *)
Definition constantMap (cs : list Z) : AffineMap :=
  mkAffineMap 0 0 (AffineConstantExpr <$> cs).

Definition exParallel : AffineParallel.t :=
  AffineParallel.mk [] (constantMap [0; 0]) [] (constantMap [4; 8]) [1; 2]
    [exI; exJ]
    [AffineReduce.toOperation (exReduce f64 AggregationKind.add);
     AffineTerminatorOp].

Definition exParallelState : Rewriter :=
  matched [] [] (AffineParallel.toOperation exParallel) [] 5.

(** * The rest of the pass

    ** [LowerPXAToAffinePass::runOnOperation]: the conversion target

    The pass declares what the conversion has to get rid of (lines 163-167):
    the Affine and Standard dialects are legal, the PXA dialect is illegal,
    and [affine.parallel] is illegal although its dialect is legal.  A target
    answers for an operation by its name: the entry of the operation itself
    if there is one, else the entry of its dialect, else nothing. *)

Inductive OperationName :=
| AffineParallelOpName | AffineForOpName | AffineTerminatorOpName
| AffineReduceOpName | AffineLoadOpName | AffineStoreOpName
| AddFOpName | AddIOpName | MulFOpName | MulIOpName
| CmpFOpName | CmpIOpName | SelectOpName
| OtherOpName (name : string).

#[global] Instance OperationName_eq_dec : EqDecision OperationName.
Proof. solve_decision. Defined.

Definition getName (o : Operation) : OperationName :=
  match o with
  | AffineParallelOp _ _ _ _ _ _ _ => AffineParallelOpName
  | AffineForOp _ _ _ _ _ _ _ => AffineForOpName
  | AffineTerminatorOp => AffineTerminatorOpName
  | AffineReduceOp _ _ _ _ _ => AffineReduceOpName
  | AffineLoadOp _ _ _ _ => AffineLoadOpName
  | AffineStoreOp _ _ _ _ => AffineStoreOpName
  | AddFOp _ _ _ => AddFOpName
  | AddIOp _ _ _ => AddIOpName
  | MulFOp _ _ _ => MulFOpName
  | MulIOp _ _ _ => MulIOpName
  | CmpFOp _ _ _ _ => CmpFOpName
  | CmpIOp _ _ _ _ => CmpIOpName
  | SelectOp _ _ _ _ => SelectOpName
  | OtherOp name _ _ _ _ => OtherOpName name
  end.

Inductive Dialect :=
| AffineDialect | StandardOpsDialect | PXADialect | OtherDialect.

#[global] Instance Dialect_eq_dec : EqDecision Dialect.
Proof. solve_decision. Defined.

(** The dialect an operation belongs to.  For the operations the model does
    not name, [dialectOf] reads it off the operation's name. *)
Definition getDialect (dialectOf : string → Dialect) (n : OperationName) : Dialect :=
  match n with
  | AffineParallelOpName | AffineForOpName | AffineTerminatorOpName
  | AffineLoadOpName | AffineStoreOpName => AffineDialect
  | AffineReduceOpName => PXADialect
  | AddFOpName | AddIOpName | MulFOpName | MulIOpName
  | CmpFOpName | CmpIOpName | SelectOpName => StandardOpsDialect
  | OtherOpName name => dialectOf name
  end.

Inductive LegalizationAction := Legal | Illegal.

#[global] Instance LegalizationAction_eq_dec : EqDecision LegalizationAction.
Proof. solve_decision. Defined.

Record ConversionTarget := mkConversionTarget {
  legalOperations : list (OperationName * LegalizationAction);
  legalDialects : list (Dialect * LegalizationAction) }.

(** The entry of a key in a table where a later entry replaces an earlier
    one: the first one from the front. *)
Fixpoint findAction {K} `{EqDecision K} (k : K)
    (table : list (K * LegalizationAction)) : option LegalizationAction :=
  match table with
  | [] => None
  | (k', a) :: table' => if decide (k = k') then Some a else findAction k table'
  end.

Definition setOpAction (n : OperationName) (a : LegalizationAction)
    (t : ConversionTarget) : ConversionTarget :=
  mkConversionTarget ((n, a) :: legalOperations t) (legalDialects t).

Definition setDialectAction (d : Dialect) (a : LegalizationAction)
    (t : ConversionTarget) : ConversionTarget :=
  mkConversionTarget (legalOperations t) ((d, a) :: legalDialects t).

Definition addLegalDialect (d : Dialect) := setDialectAction d Legal.
Definition addIllegalDialect (d : Dialect) := setDialectAction d Illegal.
Definition addIllegalOp (n : OperationName) := setOpAction n Illegal.

(** [ConversionTarget::getOpAction]. *)
Definition getOpAction (dialectOf : string → Dialect) (t : ConversionTarget)
    (n : OperationName) : option LegalizationAction :=
  match findAction n (legalOperations t) with
  | Some a => Some a
  | None => findAction (getDialect dialectOf n) (legalDialects t)
  end.

(** Lines 163-167. *)
Definition target : ConversionTarget :=
  addIllegalOp AffineParallelOpName
    (addIllegalDialect PXADialect
       (addLegalDialect StandardOpsDialect
          (addLegalDialect AffineDialect (mkConversionTarget [] [])))).

Definition isIllegal (dialectOf : string → Dialect) (n : OperationName) : bool :=
  bool_decide (getOpAction dialectOf target n = Some Illegal).

Definition isLegal (dialectOf : string → Dialect) (n : OperationName) : bool :=
  bool_decide (getOpAction dialectOf target n = Some Legal).

(** The number of operations of a block, nested ones included, whose name
    satisfies [q]. *)
Fixpoint countNamed (q : OperationName → bool) (o : Operation) : nat :=
  (if q (getName o) then 1 else 0) +
  match o with
  | AffineParallelOp _ _ _ _ _ _ body | AffineForOp _ _ _ _ _ _ body
  | OtherOp _ _ _ _ body => sum_list_with (countNamed q) body
  | _ => 0
  end.

Definition census (q : OperationName → bool) (blk : list Operation) : nat :=
  sum_list_with (countNamed q) blk.

(** ** Definitions of values

    The values an operation brings into being: its results, and the block
    arguments of its region, for itself and for the operations nested in
    it. *)
Fixpoint definitions (o : Operation) : list Value :=
  match o with
  | AffineParallelOp _ _ _ _ _ args body => args ++ (body ≫= definitions)
  | AffineForOp _ _ _ _ _ iv body => iv :: (body ≫= definitions)
  | AffineTerminatorOp => []
  | AffineReduceOp _ _ _ _ _ => []
  | AffineLoadOp result _ _ _ => [result]
  | AffineStoreOp _ _ _ _ => []
  | AddFOp result _ _ | AddIOp result _ _ | MulFOp result _ _
  | MulIOp result _ _ | CmpFOp _ result _ _ | CmpIOp _ result _ _
  | SelectOp result _ _ _ => [result]
  | OtherOp _ results _ args body => results ++ args ++ (body ≫= definitions)
  end.

Definition shellDefinitions (s : Shell) : list Value :=
  match s with
  | ForShell _ _ _ _ _ iv => [iv]
  | ParallelShell _ _ _ _ _ args => args
  | OtherShell _ results _ args => results ++ args
  end.

(** The identities defined in a block, and the identities the rewriter
    hands out from [next] on. *)
Definition definedIds (blk : list Operation) : list positive :=
  vid <$> (blk ≫= definitions).

Fixpoint freshIds (next : positive) (count : nat) : list positive :=
  match count with
  | O => []
  | S count' => next :: freshIds (Pos.succ next) count'
  end.

(** Static single assignment, as far as definitions go: no identity is
    defined twice, and the rewriter has not yet handed out [next] or any
    identity after it. *)
Definition singleDefinition (next : positive) (blk : list Operation) : Prop :=
  NoDup (definedIds blk) ∧ ∀ i, i ∈ definedIds blk → (i < next)%positive.

(** ** What the loop pattern itself asks of a loop

    The creation loop runs N times, N being the number of lower bounds, and
    reads step i and upper bound i on the way.  So it needs at least N upper
    bounds and N steps, positive steps among the first N, and operand lists
    that fit the maps; it never compares the counts for equality and never
    looks at the number of block arguments. *)
Definition creatable (op : AffineParallel.t) : Prop :=
  let N := getNumResults (AffineParallel.lowerBoundsMap op) in
  (N <= getNumResults (AffineParallel.upperBoundsMap op))%nat ∧
  (N <= length (AffineParallel.steps op))%nat ∧
  length (AffineParallel.getLowerBoundsOperands op)
    = getNumInputs (AffineParallel.lowerBoundsMap op) ∧
  length (AffineParallel.getUpperBoundsOperands op)
    = getNumInputs (AffineParallel.upperBoundsMap op) ∧
  Forall (λ s, 0 < s) (take N (AffineParallel.steps op)).

(** The rewriter right after the splice of lines 78-87, for a loop that
    stood at [matched outer pre _ post next]: inside the innermost new loop
    with the moved operations in front of its terminator or, without loops,
    right after the moved operations; the loop is left with the last
    operation of its body. *)
Definition spliced (op : AffineParallel.t) (outer : list Frame)
    (pre post : list Operation) (next : positive)
    (moved : list Operation) (terminator : Operation) : Rewriter :=
  let stM := matched outer pre
               (setBody [terminator] (AffineParallel.toOperation op)) post next in
  match dimensions op (newInductionVars op next) with
  | [] => setBefore (pre ++ moved) stM
  | dims =>
      setAfter (moved ++ [AffineTerminatorOp])
        (descend (AffineParallel.getLowerBoundsOperands op)
                 (AffineParallel.getUpperBoundsOperands op) dims stM)
  end.

(** Loops the verifier would refuse, for the examples: one lower bound with
    two upper bounds, three steps and no block argument; one dimension with
    two block arguments; two lower and upper bounds with one step. *)
Definition exSurplus : AffineParallel.t :=
  AffineParallel.mk [] (constantMap [0]) [] (constantMap [4; 8]) [1; 2; 3] []
    [AffineReduce.toOperation (exReduce f64 AggregationKind.add);
     AffineTerminatorOp].

Definition exCrowded : AffineParallel.t :=
  AffineParallel.mk [] (constantMap [0]) [] (constantMap [4]) [1] [exI; exJ]
    [AffineReduce.toOperation (exReduce f64 AggregationKind.add);
     AffineTerminatorOp].

Definition exShort : AffineParallel.t :=
  AffineParallel.mk [] (constantMap [0; 0]) [] (constantMap [4; 8]) [1]
    [exI; exJ]
    [AffineReduce.toOperation (exReduce f64 AggregationKind.add);
     AffineTerminatorOp].

(** ** The two patterns, one after the other

    The conversion driver applies the reduce pattern to a reduce wherever it
    stands, also in the body a loop was lowered around.  [renameReduce] is
    the reduce with its operands renamed; [matchedInNest] is the rewriter
    when, after the loop pattern has run on [op], the driver matches the
    operation [o] that stood between [pre_b] and [post_b] in the body of
    [op]: the frames are those of the new nest, the operation is [o] with
    the block arguments renamed, and the counter is where the loop pattern
    left it. *)
Definition renameReduce (f : Value → Value) (r : AffineReduce.t) : AffineReduce.t :=
  AffineReduce.mk (AffineReduce.agg r) (f (AffineReduce.val r))
    (f (AffineReduce.out r)) (AffineReduce.map r) (f <$> AffineReduce.idxs r).

Definition lowered (op : AffineParallel.t) (outer : list Frame)
    (pre post : list Operation) (next : positive) : Rewriter :=
  mapRewriter (renaming (AffineParallel.getArguments op) (newInductionVars op next))
    (descend (AffineParallel.getLowerBoundsOperands op)
       (AffineParallel.getUpperBoundsOperands op)
       (dimensions op (newInductionVars op next))
       (mkRewriter outer pre post 0 next)).

Definition matchedInNest (op : AffineParallel.t) (outer : list Frame)
    (pre post : list Operation) (next : positive)
    (pre_b : list Operation) (o : Operation) (post_b : list Operation) : Rewriter :=
  let σ := renaming (AffineParallel.getArguments op) (newInductionVars op next) in
  let nest := lowered op outer pre post next in
  matched (frames nest)
    (before nest ++ (mapOperands σ <$> pre_b))
    (mapOperands σ o)
    ((mapOperands σ <$> post_b) ++ after nest)
    (nextId nest).

(** * Proofs *)

(** ** Induction over operations and their regions *)

Lemma Operation_ind (P : Operation → Prop) :
  (∀ o, getBody o = None → P o) →
  (∀ o body, getBody o = Some body → Forall P body → P o) →
  ∀ o, P o.
Proof.
  intros Hleaf Hregion. fix IH 1.
  intros [lbo lbm ubo ubm st args body|lbo lbm ubo ubm st iv body| | | | | | | | | | |
          |name res ops args body];
    try (apply Hleaf; reflexivity);
    (eapply Hregion; [reflexivity|]);
    induction body as [|o body IHbody]; constructor; auto.
Qed.

Lemma mapOperands_compose (f g : Value → Value) (o : Operation) :
  mapOperands g (mapOperands f o) = mapOperands (g ∘ f) o.
Proof.
  induction o as [o Ho|o body Ho IH] using Operation_ind.
  - destruct o; try discriminate; simpl;
      rewrite <- ?list_fmap_compose; reflexivity.
  - assert (Hb : mapOperands g <$> (mapOperands f <$> body)
                 = mapOperands (g ∘ f) <$> body).
    { rewrite <- list_fmap_compose. apply Forall_fmap_ext_1, IH. }
    destruct o; try discriminate; injection Ho as ->; simpl;
      rewrite Hb, <- ?list_fmap_compose; reflexivity.
Qed.

Lemma uses_mapOperands (f : Value → Value) (o : Operation) :
  uses (mapOperands f o) = f <$> uses o.
Proof.
  induction o as [o Ho|o body Ho IH] using Operation_ind.
  - destruct o; try discriminate; reflexivity.
  - assert (Hb : (mapOperands f <$> body) ≫= uses = f <$> (body ≫= uses)).
    { clear Ho. induction IH as [|o' body' Ho' _ IH']; simpl; [done|].
      rewrite fmap_app. by f_equal. }
    destruct o; try discriminate; injection Ho as ->; simpl;
      rewrite !fmap_app, Hb; reflexivity.
Qed.

Lemma uses_mapOperands_block (f : Value → Value) (blk : list Operation) :
  (mapOperands f <$> blk) ≫= uses = f <$> (blk ≫= uses).
Proof.
  induction blk as [|o blk IH]; [done|].
  by rewrite fmap_cons, !bind_cons, fmap_app, uses_mapOperands, IH.
Qed.

Ltac elem_solve :=
  intros; simpl; rewrite ?bind_cons, ?elem_of_cons, ?elem_of_app in *; tauto.

Lemma mapOperands_ext (f g : Value → Value) (o : Operation) :
  (∀ v, v ∈ uses o → f v = g v) → mapOperands f o = mapOperands g o.
Proof.
  induction o as [o Ho|o body Ho IH] using Operation_ind; intros Hfg.
  - assert (Hl : ∀ l : list Value, (∀ v, v ∈ l → v ∈ uses o) → f <$> l = g <$> l).
    { intros l Hl. apply list_fmap_ext. intros i v Hv.
      apply Hfg, Hl. eapply list_elem_of_lookup_2, Hv. }
    destruct o; try discriminate; simpl in *; try reflexivity;
      rewrite ?Hl by elem_solve;
      rewrite ?(Hfg val), ?(Hfg out), ?(Hfg memref), ?(Hfg value), ?(Hfg lhs),
        ?(Hfg rhs), ?(Hfg condition), ?(Hfg trueValue), ?(Hfg falseValue)
        by elem_solve; reflexivity.
  - assert (Hb : (∀ v, v ∈ body ≫= uses → f v = g v) →
                 mapOperands f <$> body = mapOperands g <$> body).
    { clear Ho Hfg. induction IH as [|o' body' Ho' _ IH']; simpl; [done|].
      intros Hfg. f_equal; [apply Ho'|apply IH']; intros; apply Hfg; elem_solve. }
    assert (Hl : ∀ l : list Value, (∀ v, v ∈ l → v ∈ uses o) → f <$> l = g <$> l).
    { intros l Hl. apply list_fmap_ext. intros i v Hv.
      apply Hfg, Hl. eapply list_elem_of_lookup_2, Hv. }
    destruct o; try discriminate; injection Ho as ->; simpl in *;
      rewrite Hb by (intros; apply Hfg; elem_solve);
      rewrite ?Hl by elem_solve; reflexivity.
Qed.

(** ** The loop that creates the nest *)

Lemma unsnoc_snoc {A} (l : list A) (x : A) : unsnoc (l ++ [x]) = Some (l, x).
Proof.
  induction l as [|y l IH]; simpl; [done|]. by rewrite IH.
Qed.

Lemma freshValues_length t next count :
  length (freshValues t next count) = count.
Proof.
  revert next; induction count as [|c IH]; intros next; simpl; [done|].
  by rewrite IH.
Qed.

Lemma freshValues_ge t next count v :
  v ∈ freshValues t next count → (next <= vid v)%positive ∧ vtype v = t.
Proof.
  revert next; induction count as [|c IH]; intros next; simpl.
  - by intros ?%elem_of_nil.
  - intros [->|Hv%IH]%elem_of_cons; simpl; [split; [lia|done]|].
    split; [lia|tauto].
Qed.


Section CreateLoops.
Import AffineParallel AffineParallelOpConversion.
Variable op : AffineParallel.t.


Lemma dimsFrom_tail i next d dims :
  dimsFrom op i next (d :: dims) → dimsFrom op (S i) (Pos.succ next) dims.
Proof.
  intros [Hiv Hd]. split.
  - simpl in Hiv. by injection Hiv.
  - intros k d' Hk. specialize (Hd (S k) d' Hk).
    by rewrite Nat.add_succ_r in Hd.
Qed.

Lemma getNumInputs_getSubMap m pos m' :
  getSubMap m pos = Some m' → getNumInputs m' = getNumInputs m.
Proof.
  unfold getSubMap. destruct (mapM _ pos); [|done]. by intros [= <-].
Qed.

Lemma createLoops_descend dims : ∀ i ivs st,
  length (getLowerBoundsOperands op) = getNumInputs (lowerBoundsMap op) →
  length (getUpperBoundsOperands op) = getNumInputs (upperBoundsMap op) →
  dimsFrom op i (nextId st) dims →
  createLoops op i (length dims) ivs st
  = Ok (ivs ++ (inductionVar <$> dims))
       (descend (getLowerBoundsOperands op) (getUpperBoundsOperands op) dims st).
Proof.
  induction dims as [|d dims IH]; intros i ivs st Hlb Hub Hdims.
  - simpl. by rewrite app_nil_r.
  - pose proof (dimsFrom_tail _ _ _ _ Hdims) as Htail.
    destruct Hdims as [Hiv Hd].
    destruct (Hd 0%nat d eq_refl) as (Hl & Hu & Hs & Hpos).
    rewrite Nat.add_0_r in Hl, Hu, Hs.
    simpl in Hiv. injection Hiv as Hiv0 _.
    simpl createLoops. unfold bind at 1. unfold at_. rewrite Hs. simpl.
    unfold bind at 1. unfold getSubMapM at 1. rewrite Hl. simpl.
    unfold bind at 1. unfold getSubMapM at 1. rewrite Hu. simpl.
    unfold bind at 1. unfold createAffineForOp.
    rewrite (getNumInputs_getSubMap _ _ _ Hl), (getNumInputs_getSubMap _ _ _ Hu).
    rewrite !bool_decide_eq_true_2 by done.
    assert (Hstep : (0 <? step d) = true) by (apply Z.ltb_lt; lia).
    unfold bind, assert, ret, freshValue, insert. rewrite Hstep. simpl.
    unfold setInsertionPointToStart. simpl. rewrite unsnoc_snoc.
    rewrite IH by done.
    rewrite <- app_assoc. simpl. rewrite <- Hiv0.
    by destruct d.
Qed.

(** Whenever the creation loop runs to its end it has recorded one induction
    variable per iteration. *)
Lemma createLoops_length count : ∀ i ivs st ivs' st',
  createLoops op i count ivs st = Ok ivs' st' →
  length ivs' = (length ivs + count)%nat.
Proof.
  induction count as [|count IH]; intros i ivs st ivs' st' Hrun.
  - simpl in Hrun. injection Hrun as <- _. lia.
  - simpl in Hrun. unfold bind in Hrun.
    destruct (at_ (steps op) i st) as [step st1|]; [|discriminate].
    destruct (getSubMapM (lowerBoundsMap op) [i] st1) as [lb st2|];
      [|discriminate].
    destruct (getSubMapM (upperBoundsMap op) [i] st2) as [ub st3|];
      [|discriminate].
    destruct (createAffineForOp _ _ _ _ _ st3) as [iv st4|]; [|discriminate].
    destruct (setInsertionPointToStart st4) as [[] st5|]; [|discriminate].
    apply IH in Hrun. rewrite Hrun, length_app. simpl. lia.
Qed.

End CreateLoops.

(** ** The rewriter inside the new nest *)

Section Descend.
Variables lbo ubo : list Value.

Lemma opDepth_descend dims : ∀ st,
  opDepth (descend lbo ubo dims st) = (length dims + opDepth st)%nat.
Proof.
  induction dims as [|d dims IH]; intros st; simpl; [done|].
  rewrite IH. simpl. lia.
Qed.


Lemma before_after_descend d dims st :
  before (descend lbo ubo (d :: dims) st) = [] ∧
  after (descend lbo ubo (d :: dims) st) = [AffineTerminatorOp].
Proof.
  revert d st; induction dims as [|d' dims IH]; intros d st; [done|].
  apply (IH d').
Qed.

Lemma fromMatched_descend dims : ∀ st,
  fromMatched (descend lbo ubo dims st) = fromMatched st.
Proof.
  induction dims as [|d dims IH]; intros st; [done|].
  simpl. rewrite IH. by destruct st as [fs b a [|depth] n].
Qed.

Lemma setFromMatched_descend l dims : ∀ st,
  setFromMatched l (descend lbo ubo dims st)
  = descend lbo ubo dims (setFromMatched l st).
Proof.
  induction dims as [|d dims IH]; intros st; [done|].
  simpl. rewrite IH. f_equal.
  by destruct st as [fs b a [|depth] n].
Qed.

Lemma updateMatched_descend f dims st :
  updateMatched f (descend lbo ubo dims st)
  = descend lbo ubo dims (updateMatched f st).
Proof.
  unfold updateMatched. rewrite fromMatched_descend.
  destruct (fromMatched st) as [[|o rest]|]; try done.
  apply setFromMatched_descend.
Qed.

Lemma insertAt_descend dims : ∀ st ops,
  insertAt ops (descend lbo ubo dims st)
  = insertAt (loopNest lbo ubo dims ops) st.
Proof.
  induction dims as [|d dims IH]; intros st ops; [done|].
  simpl. rewrite IH. unfold insertAt. simpl. by destruct d.
Qed.

End Descend.

Lemma mapRewriter_descend f lbo ubo dims : ∀ st,
  mapRewriter f (descend lbo ubo dims st)
  = descend (f <$> lbo) (f <$> ubo) dims (mapRewriter f st).
Proof.
  induction dims as [|d dims IH]; intros st; [done|].
  simpl. by rewrite IH.
Qed.

Lemma close_mapOperands f fs : ∀ blk,
  mapOperands f <$> close fs blk
  = close (mapFrame f <$> fs) (mapOperands f <$> blk).
Proof.
  induction fs as [|fr fs IH]; intros blk; [done|].
  simpl. rewrite IH. f_equal. rewrite fmap_app, fmap_cons.
  by destruct fr as [a [] b].
Qed.


(** ** Renaming the placeholders *)

Lemma mapOperands_id (f : Value → Value) (o : Operation) :
  (∀ v, v ∈ uses o → f v = v) → mapOperands f o = o.
Proof.
  intros Hf. rewrite (mapOperands_ext f id o) by done.
  clear Hf. induction o as [o Ho|o body Ho IH] using Operation_ind.
  - destruct o; try discriminate; simpl; by rewrite ?list_fmap_id.
  - assert (Hb : mapOperands id <$> body = body).
    { clear Ho. induction IH as [|o' body' Ho' _ IH']; [done|].
      by rewrite fmap_cons, Ho', IH'. }
    destruct o; try discriminate; injection Ho as ->; simpl;
      by rewrite Hb, ?list_fmap_id.
Qed.

Lemma mapOperands_block_ext (f g : Value → Value) (blk : list Operation) :
  (∀ v, v ∈ blk ≫= uses → f v = g v) →
  mapOperands f <$> blk = mapOperands g <$> blk.
Proof.
  induction blk as [|o blk IH]; intros Hfg; [done|].
  rewrite !fmap_cons. rewrite bind_cons in Hfg. f_equal.
  - apply mapOperands_ext. intros v Hv. apply Hfg, elem_of_app. by left.
  - apply IH. intros v Hv. apply Hfg, elem_of_app. by right.
Qed.

Lemma mapOperands_block_id (f : Value → Value) (blk : list Operation) :
  (∀ v, v ∈ blk ≫= uses → f v = v) → mapOperands f <$> blk = blk.
Proof.
  induction blk as [|o blk IH]; intros Hf; [done|].
  rewrite fmap_cons. rewrite bind_cons in Hf. f_equal.
  - apply mapOperands_id. intros v Hv. apply Hf, elem_of_app. by left.
  - apply IH. intros v Hv. apply Hf, elem_of_app. by right.
Qed.

Lemma mapRewriter_compose (f g : Value → Value) (st : Rewriter) :
  mapRewriter g (mapRewriter f st) = mapRewriter (g ∘ f) st.
Proof.
  assert (Hblk : ∀ blk : list Operation,
    mapOperands g <$> (mapOperands f <$> blk) = mapOperands (g ∘ f) <$> blk).
  { intros blk. rewrite <- list_fmap_compose. apply list_fmap_ext.
    intros i o _. apply mapOperands_compose. }
  destruct st as [fs b a d n]. unfold mapRewriter. simpl.
  rewrite !Hblk. f_equal.
  rewrite <- list_fmap_compose. apply list_fmap_ext.
  intros i [ab sh be] _. unfold mapFrame. simpl. rewrite !Hblk. f_equal.
  destruct sh; simpl; by rewrite <- ?list_fmap_compose.
Qed.

Lemma mapRewriter_ext (f g : Value → Value) (st : Rewriter) :
  (∀ v, f v = g v) → mapRewriter f st = mapRewriter g st.
Proof.
  intros Hfg.
  assert (Hblk : ∀ blk : list Operation,
    mapOperands f <$> blk = mapOperands g <$> blk).
  { intros blk. by apply mapOperands_block_ext. }
  assert (Hl : ∀ l : list Value, f <$> l = g <$> l).
  { intros l. by apply list_fmap_ext. }
  destruct st as [fs b a d n]. unfold mapRewriter. simpl.
  rewrite !Hblk. f_equal.
  apply list_fmap_ext. intros i [ab sh be] _. unfold mapFrame. simpl.
  rewrite !Hblk. f_equal. destruct sh; simpl; by rewrite ?Hl.
Qed.

Lemma mapRewriter_id (st : Rewriter) : mapRewriter (λ v, v) st = st.
Proof.
  assert (Hblk : ∀ blk : list Operation, mapOperands (λ v, v) <$> blk = blk).
  { intros blk. by apply mapOperands_block_id. }
  destruct st as [fs b a d n]. unfold mapRewriter. simpl.
  rewrite !Hblk. f_equal.
  rewrite <- (list_fmap_id fs) at 2. apply list_fmap_ext.
  intros i [ab sh be] _. unfold mapFrame. simpl. rewrite !Hblk. f_equal.
  destruct sh; simpl; by rewrite ?list_fmap_id.
Qed.

Lemma renaming_not_arg args : ∀ ivs v, v ∉ args → renaming args ivs v = v.
Proof.
  induction args as [|a args IH]; intros [|iv ivs] v Hv; try done.
  apply not_elem_of_cons in Hv as [Hne Hv].
  simpl. unfold replaceValue. rewrite decide_False by done.
  by apply IH.
Qed.

Lemma renaming_lookup args : ∀ ivs i a iv,
  NoDup args → (∀ x, x ∈ ivs → x ∉ args) →
  args !! i = Some a → ivs !! i = Some iv →
  renaming args ivs a = iv.
Proof.
  induction args as [|a' args IH]; intros [|iv' ivs] i a iv Hnd Hfresh Ha Hiv;
    try done.
  apply NoDup_cons in Hnd as [Hnotin Hnd].
  destruct i as [|i]; simpl in Ha, Hiv.
  - injection Ha as ->. injection Hiv as ->. simpl.
    unfold replaceValue. rewrite decide_True by done.
    apply renaming_not_arg. intros Hin. apply (Hfresh iv); elem_solve.
  - simpl. unfold replaceValue. rewrite decide_False.
    + apply (IH ivs i); try done. intros x Hx Hin. apply (Hfresh x); elem_solve.
    + intros ->. apply Hnotin. eapply list_elem_of_lookup_2, Ha.
Qed.

Lemma renaming_arg args : ∀ ivs v,
  (length args <= length ivs)%nat → (∀ x, x ∈ ivs → x ∉ args) →
  v ∈ args → renaming args ivs v ∈ ivs.
Proof.
  induction args as [|a args IH]; intros [|iv ivs] v Hlen Hfresh Hv;
    simpl in *; try lia; try (by apply elem_of_nil in Hv).
  unfold replaceValue. destruct (decide (v = a)) as [->|Hne].
  - rewrite renaming_not_arg; [left|].
    intros Hin. apply (Hfresh iv); elem_solve.
  - apply elem_of_cons in Hv as [?|Hv]; [done|].
    right. apply IH; [lia| |done].
    intros x Hx Hin. apply (Hfresh x); elem_solve.
Qed.

Lemma renaming_fresh args ivs v :
  (length args <= length ivs)%nat → (∀ x, x ∈ ivs → x ∉ args) →
  renaming args ivs v ∉ args.
Proof.
  intros Hlen Hfresh. destruct (decide (v ∈ args)) as [Hv|Hv].
  - apply Hfresh. by apply renaming_arg.
  - by rewrite renaming_not_arg.
Qed.

Section ReplaceArguments.
Import AffineParallelOpConversion.

Lemma replaceArguments_renaming args : ∀ ivs idx st,
  (idx + length args <= length ivs)%nat →
  replaceArguments args ivs idx st
  = Ok tt (mapRewriter (renaming args (drop idx ivs)) st).
Proof.
  induction args as [|a args IH]; intros ivs idx st Hlen.
  - simpl. unfold ret. f_equal. symmetry. apply mapRewriter_id.
  - simpl in Hlen.
    destruct (lookup_lt_is_Some_2 ivs idx) as [iv Hiv]; [lia|].
    simpl. unfold bind, at_. rewrite Hiv. simpl.
    rewrite IH by lia. f_equal. rewrite mapRewriter_compose.
    apply mapRewriter_ext. intros v.
    by rewrite (drop_S _ _ _ Hiv).
Qed.

(** With more block arguments than loops the indexing runs off the end. *)
Lemma replaceArguments_out_of_range args : ∀ ivs idx st,
  (idx <= length ivs < idx + length args)%nat →
  ∃ st', replaceArguments args ivs idx st
         = Fatal (AssertionFailed "Invalid index!") st'.
Proof.
  induction args as [|a args IH]; intros ivs idx st Hlen; simpl in *; [lia|].
  unfold bind, at_. destruct (ivs !! idx) as [iv|] eqn:Hiv; simpl.
  - apply lookup_lt_Some in Hiv.
    destruct (IH ivs (S idx) (mapRewriter (replaceValue a iv) st)) as [st' ->];
      [lia|]. by exists st'.
  - by exists st.
Qed.

End ReplaceArguments.

(** ** The dimensions of a verified loop *)

Section Dimensions.
Import AffineParallel.

Lemma getSubMap_single m k e :
  getResults m !! k = Some e → getSubMap m [k] = Some (projected m e).
Proof.
  intros He. unfold getSubMap. simpl. by rewrite He.
Qed.

Lemma dimensions_lookup op ivs k d :
  dimensions op ivs !! k = Some d ↔
  ∃ lb ub s iv,
    getResults (lowerBoundsMap op) !! k = Some lb ∧
    getResults (upperBoundsMap op) !! k = Some ub ∧
    steps op !! k = Some s ∧ ivs !! k = Some iv ∧
    d = mkDimension (projected (lowerBoundsMap op) lb)
                    (projected (upperBoundsMap op) ub) s iv.
Proof.
  unfold dimensions. rewrite lookup_zip_with_Some. split.
  - intros ([lb ub] & [s iv] & -> & Hb & Hs).
    apply lookup_zip_with_Some in Hb as (lb' & ub' & [= <- <-] & Hlb & Hub).
    apply lookup_zip_with_Some in Hs as (s' & iv' & [= <- <-] & Hs & Hiv).
    by exists lb, ub, s, iv.
  - intros (lb & ub & s & iv & Hlb & Hub & Hs & Hiv & ->).
    exists (lb, ub), (s, iv). split; [done|].
    split; apply lookup_zip_with_Some; eauto.
Qed.

Lemma dimensions_length op ivs :
  buildable op →
  length ivs = getNumResults (lowerBoundsMap op) →
  length (dimensions op ivs) = getNumResults (lowerBoundsMap op).
Proof.
  intros (Hub & Hsteps & _) Hivs. unfold dimensions, getNumResults in *.
  rewrite length_zip_with, !length_zip. lia.
Qed.

Lemma dimensions_inductionVar op ivs :
  buildable op →
  length ivs = getNumResults (lowerBoundsMap op) →
  inductionVar <$> dimensions op ivs = ivs.
Proof.
  intros Hv Hivs. apply list_eq. intros k. rewrite list_lookup_fmap.
  destruct (dimensions op ivs !! k) as [d|] eqn:Hd; simpl.
  - apply dimensions_lookup in Hd as (lb & ub & s & iv & _ & _ & _ & Hiv & ->).
    by rewrite Hiv.
  - apply lookup_ge_None in Hd. rewrite dimensions_length in Hd by done.
    symmetry. apply lookup_ge_None. lia.
Qed.

Lemma dimensions_dimsFrom op next :
  buildable op →
  dimsFrom op 0 next
    (dimensions op
       (freshValues IndexType next (getNumResults (lowerBoundsMap op)))).
Proof.
  intros Hv.
  assert (Hlen := freshValues_length IndexType next
                    (getNumResults (lowerBoundsMap op))).
  split.
  - by rewrite dimensions_inductionVar, dimensions_length.
  - intros k d Hd. simpl.
    apply dimensions_lookup in Hd as (lb & ub & s & iv & Hlb & Hub & Hs & _ & ->).
    simpl. rewrite (getSubMap_single _ _ _ Hlb), (getSubMap_single _ _ _ Hub).
    split_and!; try done.
    destruct Hv as (_ & _ & _ & _ & Hpos).
    rewrite Forall_lookup in Hpos. by apply (Hpos k).
Qed.

End Dimensions.

(** ** The lowering, step by step *)

Lemma loopNest_mapOperands f lbo ubo dims inner :
  mapOperands f <$> loopNest lbo ubo dims inner
  = loopNest (f <$> lbo) (f <$> ubo) dims (mapOperands f <$> inner).
Proof.
  induction dims as [|d dims IH]; [done|].
  simpl. by rewrite fmap_app, IH.
Qed.

Lemma fromMatched_setAfter l st :
  opDepth st ≠ 0%nat → fromMatched (setAfter l st) = fromMatched st.
Proof. by destruct st as [fs b a [|d] n]. Qed.

Lemma setFromMatched_setAfter l l' st :
  opDepth st ≠ 0%nat →
  setFromMatched l' (setAfter l st) = setAfter l (setFromMatched l' st).
Proof. by destruct st as [fs b a [|d] n]. Qed.

Lemma eraseOp_inside l lbo ubo d dims st o rest :
  fromMatched st = Some (o :: rest) →
  eraseOp (setAfter l (descend lbo ubo (d :: dims) st))
  = Ok tt (setAfter l (descend lbo ubo (d :: dims) (setFromMatched rest st))).
Proof.
  intros Hm.
  assert (Hdepth : opDepth (descend lbo ubo (d :: dims) st) ≠ 0%nat).
  { rewrite opDepth_descend. simpl. lia. }
  unfold eraseOp.
  rewrite fromMatched_setAfter, fromMatched_descend, Hm by done.
  by rewrite setFromMatched_setAfter, setFromMatched_descend.
Qed.

Lemma getProgram_setAfter l st :
  getProgram (setAfter l st) = close (frames st) (before st ++ l).
Proof. done. Qed.

Lemma insertAt_inside ops st :
  before st = [] → after st = [AffineTerminatorOp] →
  close (frames st) (before st ++ ops ++ [AffineTerminatorOp]) = insertAt ops st.
Proof. intros Hb Ha. unfold insertAt. by rewrite Ha. Qed.

Lemma createLoops_matched op outer pre post next :
  buildable op →
  AffineParallelOpConversion.createLoops op 0
    (getNumResults (AffineParallel.lowerBoundsMap op)) []
    (matched outer pre (AffineParallel.toOperation op) post next)
  = Ok (newInductionVars op next)
       (descend (AffineParallel.getLowerBoundsOperands op)
          (AffineParallel.getUpperBoundsOperands op)
          (dimensions op (newInductionVars op next))
          (matched outer pre (AffineParallel.toOperation op) post next)).
Proof.
  intros Hb.
  assert (Hlen := freshValues_length IndexType next
                    (getNumResults (AffineParallel.lowerBoundsMap op))).
  pose proof (dimensions_length op _ Hb Hlen) as Hdl.
  pose proof (dimensions_inductionVar op _ Hb Hlen) as Hiv.
  pose proof (dimensions_dimsFrom op next Hb) as Hfrom.
  destruct Hb as (_ & _ & Hlb & Hub & _).
  fold (newInductionVars op next) in *.
  rewrite <- Hdl at 1.
  rewrite (createLoops_descend op _ 0 []
             (matched outer pre (AffineParallel.toOperation op) post next)
             Hlb Hub Hfrom).
  by rewrite Hiv.
Qed.

Section Lowering.
Import AffineParallel AffineParallelOpConversion.

Variables (op : AffineParallel.t) (outer : list Frame).
Variables (pre post : list Operation) (next : positive).
Variables (moved : list Operation) (terminator : Operation).
Hypothesis op_verified : verified op.
Hypothesis op_body : getOperations op = moved ++ [terminator].

(** The steps after the nest is built.  [spliceBody] leaves the nest around
    the moved operations, followed by the matched operation, which still
    holds the last operation of its body; the loop over the block arguments
    renames every use in the program; [eraseOp] takes the matched operation
    out. *)
Lemma lowering_steps :
  let st1 := descend (getLowerBoundsOperands op) (getUpperBoundsOperands op)
               (dimensions op (newInductionVars op next))
               (matched outer pre (toOperation op) post next) in
  let σ := renaming (getArguments op) (newInductionVars op next) in
  ∃ st2 st4,
    spliceBody op st1 = Ok tt st2 ∧
    getProgram st2
    = close outer (pre ++ nestOf op next moved
                    ++ setBody [terminator] (toOperation op) :: post) ∧
    replaceArguments (getArguments op) (newInductionVars op next) 0 st2
    = Ok tt (mapRewriter σ st2) ∧
    eraseOp (mapRewriter σ st2) = Ok tt st4 ∧
    getProgram st4
    = mapOperands σ <$> close outer (pre ++ nestOf op next moved ++ post).
Proof.
  intros st1 σ.
  assert (Hlen := freshValues_length IndexType next
                    (getNumResults (lowerBoundsMap op))).
  fold (newInductionVars op next) in Hlen.
  destruct op_verified as [Hargs Hbuild].
  pose proof (dimensions_length op _ Hbuild Hlen) as Hdl.
  assert (Hrepl : ∀ st2,
    replaceArguments (getArguments op) (newInductionVars op next) 0 st2
    = Ok tt (mapRewriter σ st2)).
  { intros st2. rewrite replaceArguments_renaming by (simpl; lia). done. }
  unfold spliceBody. rewrite op_body, unsnoc_snoc.
  subst st1. rewrite updateMatched_descend.
  change (updateMatched (setBody [terminator])
            (matched outer pre (toOperation op) post next))
    with (matched outer pre (setBody [terminator] (toOperation op)) post next).
  unfold nestOf. rewrite <- Hdl.
  destruct (dimensions op (newInductionVars op next)) as [|d dims] eqn:Hdims.
  - (* no dimension: the body goes where the loop is *)
    simpl.
    eexists _, _. split; [reflexivity|]. split.
    { unfold getProgram. simpl. by rewrite <- app_assoc. }
    split; [apply Hrepl|]. split; [reflexivity|].
    unfold getProgram. simpl.
    by rewrite close_mapOperands, !fmap_app, <- app_assoc.
  - (* at least one loop: the body goes before the innermost terminator *)
    change (0 <? length (d :: dims))%nat with true. cbv iota.
    set (lbo := getLowerBoundsOperands op). set (ubo := getUpperBoundsOperands op).
    set (stM := matched outer pre (setBody [terminator] (toOperation op)) post next).
    destruct (before_after_descend lbo ubo d dims stM) as [Hbefore Hafter].
    rewrite Hafter. simpl unsnoc. cbv iota. rewrite app_nil_l.
    eexists _, _. split; [reflexivity|]. split.
    { rewrite getProgram_setAfter, insertAt_inside by done.
      by rewrite insertAt_descend. }
    split; [apply Hrepl|].
    assert (Hst3 : mapRewriter σ (setAfter (moved ++ [AffineTerminatorOp])
                                   (descend lbo ubo (d :: dims) stM))
            = setAfter (mapOperands σ <$> (moved ++ [AffineTerminatorOp]))
                (descend (σ <$> lbo) (σ <$> ubo) (d :: dims) (mapRewriter σ stM))).
    { rewrite <- mapRewriter_descend. done. }
    rewrite Hst3.
    rewrite (eraseOp_inside _ _ _ _ _ _
               (mapOperands σ (setBody [terminator] (toOperation op)))
               (mapOperands σ <$> post)) by done.
    split; [reflexivity|].
    set (stE := setFromMatched _ _).
    destruct (before_after_descend (σ <$> lbo) (σ <$> ubo) d dims stE)
      as [Hbefore' Hafter'].
    rewrite getProgram_setAfter, fmap_app.
    change (mapOperands σ <$> [AffineTerminatorOp]) with [AffineTerminatorOp].
    rewrite insertAt_inside, insertAt_descend by done.
    rewrite close_mapOperands, !fmap_app, loopNest_mapOperands.
    reflexivity.
Qed.

(** The pattern on a verified loop: it succeeds, and the program it leaves is
    the program it found with the loop replaced by the nest around the moved
    body and every use of a placeholder renamed. *)
Lemma rewrite_program :
  ∃ st',
    rewrite op (matched outer pre (toOperation op) post next) = Ok tt st' ∧
    getProgram st'
    = mapOperands (renaming (getArguments op) (newInductionVars op next))
        <$> close outer (pre ++ nestOf op next moved ++ post).
Proof.
  destruct lowering_steps as (st2 & st4 & Hsplice & _ & Hrepl & Herase & Hprog).
  exists st4. split; [|exact Hprog].
  unfold rewrite, bind.
  rewrite createLoops_matched by apply op_verified.
  rewrite Hsplice, Hrepl.
  exact Herase.
Qed.

End Lowering.

(** ** Scoping and counting *)

Lemma mapFrame_id f fr :
  (∀ v, v ∈ frameUses fr → f v = v) → mapFrame f fr = fr.
Proof.
  destruct fr as [ab sh be]. unfold frameUses, mapFrame. simpl. intros Hf.
  rewrite !mapOperands_block_id
    by (intros v Hv; apply Hf; rewrite !elem_of_app; auto).
  f_equal.
  assert (Hl : ∀ l : list Value, (∀ v, v ∈ l → v ∈ shellUses sh) → f <$> l = l).
  { intros l Hl. rewrite <- (list_fmap_id l) at 2. apply list_fmap_ext.
    intros i v Hv. apply Hf. rewrite !elem_of_app. right; left.
    eapply Hl, list_elem_of_lookup_2, Hv. }
  destruct sh; simpl in *;
    rewrite !Hl by (intros v Hv; rewrite ?elem_of_app; auto); reflexivity.
Qed.

Lemma mapFrames_id f fs :
  (∀ v, v ∈ fs ≫= frameUses → f v = v) → mapFrame f <$> fs = fs.
Proof.
  induction fs as [|fr fs IH]; intros Hf; [done|].
  rewrite fmap_cons. rewrite bind_cons in Hf. f_equal.
  - apply mapFrame_id. intros v Hv. apply Hf, elem_of_app. by left.
  - apply IH. intros v Hv. apply Hf, elem_of_app. by right.
Qed.

Lemma list_fmap_id_on (f : Value → Value) (l : list Value) :
  (∀ v, v ∈ l → f v = v) → f <$> l = l.
Proof.
  intros Hf. rewrite <- (list_fmap_id l) at 2. apply list_fmap_ext.
  intros i v Hv. eapply Hf, list_elem_of_lookup_2, Hv.
Qed.

Lemma scoped_renaming op outer pre post next inner :
  scoped op outer pre post →
  mapOperands (renaming (AffineParallel.getArguments op) (newInductionVars op next))
    <$> close outer (pre ++ nestOf op next inner ++ post)
  = close outer
      (pre ++ nestOf op next
                (mapOperands (renaming (AffineParallel.getArguments op)
                                (newInductionVars op next)) <$> inner)
           ++ post).
Proof.
  intros Hsc.
  assert (Hid : ∀ v,
    v ∈ (outer ≫= frameUses) ++ (pre ≫= uses) ++
        AffineParallel.getLowerBoundsOperands op ++
        AffineParallel.getUpperBoundsOperands op ++ (post ≫= uses) →
    renaming (AffineParallel.getArguments op) (newInductionVars op next) v = v).
  { intros v Hv. apply renaming_not_arg. intros Ha. by apply (Hsc v). }
  rewrite close_mapOperands, !fmap_app. unfold nestOf.
  rewrite loopNest_mapOperands.
  rewrite mapFrames_id by (intros v Hv; apply Hid; rewrite !elem_of_app; auto).
  rewrite (mapOperands_block_id _ pre), (mapOperands_block_id _ post)
    by (intros v Hv; apply Hid; rewrite !elem_of_app; auto 6).
  rewrite (list_fmap_id_on _ (AffineParallel.getLowerBoundsOperands op)),
    (list_fmap_id_on _ (AffineParallel.getUpperBoundsOperands op))
    by (intros v Hv; apply Hid; rewrite !elem_of_app; auto 6).
  reflexivity.
Qed.

Lemma countFor_mapOperands f o : countFor (mapOperands f o) = countFor o.
Proof.
  induction o as [o Ho|o body Ho IH] using Operation_ind.
  - by destruct o.
  - assert (Hb : sum_list_with countFor (mapOperands f <$> body)
                 = sum_list_with countFor body).
    { clear Ho. induction IH as [|o' body' Ho' _ IH']; [done|].
      rewrite fmap_cons. simpl. by rewrite Ho', IH'. }
    destruct o; try discriminate; injection Ho as ->; simpl; by rewrite Hb.
Qed.

Lemma countForBlock_mapOperands f blk :
  countForBlock (mapOperands f <$> blk) = countForBlock blk.
Proof.
  unfold countForBlock. induction blk as [|o blk IH]; [done|].
  rewrite fmap_cons. simpl. by rewrite countFor_mapOperands, IH.
Qed.

Lemma countForBlock_app blk1 blk2 :
  countForBlock (blk1 ++ blk2) = (countForBlock blk1 + countForBlock blk2)%nat.
Proof. apply sum_list_with_app. Qed.

Lemma countForBlock_close fs : ∀ blk1 blk2,
  (countForBlock (close fs blk1) + countForBlock blk2
   = countForBlock (close fs blk2) + countForBlock blk1)%nat.
Proof.
  induction fs as [|fr fs IH]; intros blk1 blk2; simpl; [lia|].
  specialize (IH (above fr ++ plug (shell fr) blk1 :: below fr)
                 (above fr ++ plug (shell fr) blk2 :: below fr)).
  rewrite !countForBlock_app in IH.
  change (countForBlock (?o :: ?l))
    with (countFor o + countForBlock l)%nat in IH.
  assert (Hplug : (countFor (plug (shell fr) blk1) + countForBlock blk2
                   = countFor (plug (shell fr) blk2) + countForBlock blk1)%nat).
  { destruct (shell fr); simpl; unfold countForBlock; lia. }
  lia.
Qed.

Lemma countForBlock_loopNest lbo ubo dims inner :
  countForBlock (loopNest lbo ubo dims inner)
  = (length dims + countForBlock inner)%nat.
Proof.
  induction dims as [|d dims IH]; [done|].
  simpl. change (countForBlock [?o]) with (countFor o + 0)%nat. simpl.
  fold (countForBlock (loopNest lbo ubo dims inner ++ [AffineTerminatorOp])).
  rewrite countForBlock_app, IH. unfold countForBlock at 2. simpl. lia.
Qed.

Lemma innermostBody_loopNest lbo ubo dims inner :
  innermostBody (length dims) (loopNest lbo ubo dims inner)
  = Some (match dims with [] => inner | _ => inner ++ [AffineTerminatorOp] end).
Proof.
  induction dims as [|d dims IH]; [done|].
  simpl. destruct dims as [|d' dims]; [done|].
  exact IH.
Qed.

Lemma nonTerminators_snoc blk t :
  isTerminator t = true → nonTerminators (blk ++ [t]) = nonTerminators blk.
Proof.
  intros Ht. unfold nonTerminators. rewrite filter_app, filter_cons_False.
  - by rewrite filter_nil, app_nil_r.
  - by rewrite Ht.
Qed.

Lemma nonTerminators_mapOperands f blk :
  nonTerminators (mapOperands f <$> blk) = mapOperands f <$> nonTerminators blk.
Proof.
  unfold nonTerminators. induction blk as [|o blk IH]; [done|].
  rewrite fmap_cons, !filter_cons.
  assert (Ht : isTerminator (mapOperands f o) = isTerminator o) by by destruct o.
  rewrite Ht. destruct (decide (isTerminator o = false)).
  - by rewrite fmap_cons, IH.
  - exact IH.
Qed.

(** ** C2: the shape of the nest *)

(** C2.  Lowering a verified loop of N dimensions whose placeholders are used
    only in its body succeeds and leaves, where the loop stood, the nest of
    [loopNest]: N [affine.for] operations, nested outer to inner in dimension
    order, loop i with step i and with the lower and upper bound maps
    projected onto result i, all of them over the full operand lists of the
    original bounds, and the moved body inside the innermost one.  The
    program has exactly N more [affine.for] operations than before.  With
    N = 0 no loop is made and the moved body stands at the loop's site. *)
Theorem parallel_lowers_to_loop_nest
    (op : AffineParallel.t) (outer : list Frame) (pre post : list Operation)
    (next : positive) (moved : list Operation) (terminator : Operation) :
  verified op →
  AffineParallel.getOperations op = moved ++ [terminator] →
  isTerminator terminator = true →
  scoped op outer pre post →
  let N := getNumResults (AffineParallel.lowerBoundsMap op) in
  let ivs := newInductionVars op next in
  let dims := dimensions op ivs in
  let st := matched outer pre (AffineParallel.toOperation op) post next in
  ∃ st',
    AffineParallelOpConversion.rewrite op st = Ok tt st' ∧
    getProgram st'
    = close outer
        (pre ++ loopNest (AffineParallel.getLowerBoundsOperands op)
                         (AffineParallel.getUpperBoundsOperands op) dims
                         (mapOperands (renaming (AffineParallel.getArguments op) ivs)
                            <$> moved)
             ++ post) ∧
    length dims = N ∧
    countForBlock (getProgram st') = (N + countForBlock (getProgram st))%nat ∧
    (∀ i lb ub s,
       getResults (AffineParallel.lowerBoundsMap op) !! i = Some lb →
       getResults (AffineParallel.upperBoundsMap op) !! i = Some ub →
       AffineParallel.steps op !! i = Some s →
       ∃ iv, ivs !! i = Some iv ∧
             dims !! i = Some (mkDimension
                                 (projected (AffineParallel.lowerBoundsMap op) lb)
                                 (projected (AffineParallel.upperBoundsMap op) ub)
                                 s iv)) ∧
    (N = 0%nat → getProgram st' = close outer (pre ++ moved ++ post)).
Proof.
  intros Hver Hbody Hterm Hscoped N ivs dims st.
  destruct (rewrite_program op outer pre post next moved terminator Hver Hbody)
    as (st' & Hrw & Hprog).
  rewrite scoped_renaming in Hprog by done.
  assert (Hlen : length ivs = N) by apply freshValues_length.
  assert (Hdims : length dims = N) by (apply dimensions_length; [apply Hver|done]).
  exists st'. split_and!; try done.
  - rewrite Hprog. unfold nestOf. fold ivs dims.
    pose proof (countForBlock_close outer
      (pre ++ loopNest (AffineParallel.getLowerBoundsOperands op)
                (AffineParallel.getUpperBoundsOperands op) dims
                (mapOperands (renaming (AffineParallel.getArguments op) ivs)
                   <$> moved) ++ post)
      (pre ++ AffineParallel.toOperation op :: post)) as Hc.
    unfold st, matched, getProgram. simpl frames. simpl before. simpl after.
    rewrite !countForBlock_app, countForBlock_loopNest,
      countForBlock_mapOperands in Hc.
    change (countForBlock (?o :: ?l))
      with (countFor o + countForBlock l)%nat in Hc.
    unfold AffineParallel.toOperation in Hc. simpl countFor in Hc.
    rewrite Hbody in Hc. fold (countForBlock (moved ++ [terminator])) in Hc.
    rewrite countForBlock_app in Hc.
    assert (Ht : countForBlock [terminator] = 0%nat) by by destruct terminator.
    unfold AffineParallel.toOperation. rewrite Hbody. lia.
  - intros i lb ub s Hlb Hub Hs.
    destruct (lookup_lt_is_Some_2 ivs i) as [iv Hiv].
    { rewrite Hlen. apply lookup_lt_Some in Hlb. exact Hlb. }
    exists iv. split; [done|]. apply dimensions_lookup.
    by exists lb, ub, s, iv.
  - intros HN. rewrite Hprog. unfold nestOf. fold ivs dims.
    destruct dims as [|d dims']; [|simpl in Hdims; lia].
    simpl loopNest. do 3 f_equal.
    apply mapOperands_block_id. intros v _.
    destruct Hver as [Hargs _]. fold N in Hargs. rewrite HN in Hargs.
    by destruct (AffineParallel.getArguments op).
Qed.

Lemma exParallel_verified : verified exParallel.
Proof.
  split; [reflexivity|].
  split_and!; try reflexivity. repeat constructor.
Defined.

Lemma parallel_lowers_to_loop_nest_witness :
  verified exParallel ∧
  ∃ st',
    AffineParallelOpConversion.rewrite exParallel exParallelState = Ok tt st' ∧
    getProgram st'
    = [AffineForOp [] (constantMap [0]) [] (constantMap [4]) 1
         (mkValue 5 IndexType)
         [AffineForOp [] (constantMap [0]) [] (constantMap [8]) 2
            (mkValue 6 IndexType)
            [AffineReduceOp AggregationKind.add (exVal f64) (exBuffer f64)
               identityMap2 [mkValue 5 IndexType; mkValue 6 IndexType];
             AffineTerminatorOp];
          AffineTerminatorOp]] ∧
    countForBlock (getProgram st') = 2%nat.
Proof.
  split; [exact exParallel_verified|].
  destruct (parallel_lowers_to_loop_nest exParallel [] [] [] 5
              [AffineReduce.toOperation (exReduce f64 AggregationKind.add)]
              AffineTerminatorOp)
    as (st' & Hrw & Hprog & _ & Hcount & _).
  - exact exParallel_verified.
  - reflexivity.
  - reflexivity.
  - intros a _. simpl. apply not_elem_of_nil.
  - exists st'. split; [exact Hrw|]. split; [rewrite Hprog; reflexivity|].
    rewrite Hcount. reflexivity.
Defined.

(** ** C3: no placeholder survives *)

(** C3.  After a verified loop with distinct placeholders, all created
    before the rewrite, is lowered: the program is the one with the nest in
    the place of the loop (the loop itself is gone) and every operand [v]
    replaced by [σ v]; no operation anywhere in it uses a placeholder of the
    loop; [σ] sends the i-th placeholder to the induction variable of the
    i-th new loop and leaves every other value alone. *)
Theorem no_placeholder_survives
    (op : AffineParallel.t) (outer : list Frame) (pre post : list Operation)
    (next : positive) (moved : list Operation) (terminator : Operation) :
  verified op →
  AffineParallel.getOperations op = moved ++ [terminator] →
  NoDup (AffineParallel.getArguments op) →
  Forall (λ a, (vid a < next)%positive) (AffineParallel.getArguments op) →
  let ivs := newInductionVars op next in
  let σ := renaming (AffineParallel.getArguments op) ivs in
  ∃ st',
    AffineParallelOpConversion.rewrite op
      (matched outer pre (AffineParallel.toOperation op) post next) = Ok tt st' ∧
    getProgram st'
    = mapOperands σ <$> close outer (pre ++ nestOf op next moved ++ post) ∧
    (∀ a, a ∈ AffineParallel.getArguments op → a ∉ (getProgram st' ≫= uses)) ∧
    (∀ i a, AffineParallel.getArguments op !! i = Some a →
       ∃ d, dimensions op ivs !! i = Some d ∧ σ a = inductionVar d) ∧
    (∀ v, v ∉ AffineParallel.getArguments op → σ v = v).
Proof.
  intros Hver Hbody Hnodup Hold ivs σ.
  destruct (rewrite_program op outer pre post next moved terminator Hver Hbody)
    as (st' & Hrw & Hprog).
  assert (Hlen : length ivs = getNumResults (AffineParallel.lowerBoundsMap op))
    by apply freshValues_length.
  assert (Hfresh : ∀ x, x ∈ ivs → x ∉ AffineParallel.getArguments op).
  { intros x Hx Ha. apply freshValues_ge in Hx as [Hge _].
    rewrite Forall_forall in Hold. specialize (Hold x Ha). lia. }
  destruct Hver as [Hargs Hbuild].
  exists st'. split_and!; try done.
  - intros a Ha Hin. rewrite Hprog, uses_mapOperands_block in Hin.
    apply list_elem_of_fmap in Hin as (v & -> & _).
    revert Ha. apply renaming_fresh; [|done]. fold ivs. lia.
  - intros i a Ha.
    assert (Hi : (i < getNumResults (AffineParallel.lowerBoundsMap op))%nat).
    { rewrite <- Hargs. by apply lookup_lt_Some in Ha. }
    destruct (lookup_lt_is_Some_2 (dimensions op ivs) i) as [d Hd].
    { by rewrite dimensions_length. }
    exists d. split; [done|].
    apply dimensions_lookup in Hd as (lb & ub & s & iv & _ & _ & _ & Hiv & ->).
    simpl. by apply (renaming_lookup _ _ i).
  - intros v Hv. by apply renaming_not_arg.
Qed.

Lemma no_placeholder_survives_witness :
  NoDup (AffineParallel.getArguments exParallel) ∧
  ∃ st',
    AffineParallelOpConversion.rewrite exParallel exParallelState = Ok tt st' ∧
    (exI ∉ getProgram st' ≫= uses) ∧ (exJ ∉ getProgram st' ≫= uses) ∧
    (getProgram st' ≫= uses)
    = [exVal f64; exBuffer f64; mkValue 5 IndexType; mkValue 6 IndexType].
Proof.
  assert (Hnd : NoDup (AffineParallel.getArguments exParallel)).
  { apply NoDup_cons. split.
    - intros Hin. apply list_elem_of_singleton in Hin. discriminate.
    - apply NoDup_singleton. }
  split; [exact Hnd|].
  destruct (no_placeholder_survives exParallel [] [] [] 5
              [AffineReduce.toOperation (exReduce f64 AggregationKind.add)]
              AffineTerminatorOp)
    as (st' & Hrw & Hprog & Hno & _).
  - exact exParallel_verified.
  - reflexivity.
  - exact Hnd.
  - repeat constructor.
  - exists st'. split; [exact Hrw|].
    split; [apply Hno; simpl; left|].
    split; [apply Hno; simpl; right; left|].
    rewrite Hprog. reflexivity.
Defined.

(** ** C5: the order of the body *)

(** C5.  Lowering moves the body of a verified loop as it is.  Right after
    the splice the innermost body of the nest (for N = 0, the loop's own
    block at the loop's site) holds, apart from its terminator, exactly the
    non-terminator operations of the original body, one for one and in their
    order, and the loop still holds its own terminator, which was not moved.
    In the final program they are the same operations in the same order with
    the placeholders renamed by [σ]; with N = 0 there is nothing to rename
    and the moved operations stand unchanged between the loop's former
    neighbours. *)
Theorem body_order_preserved
    (op : AffineParallel.t) (outer : list Frame) (pre post : list Operation)
    (next : positive) (moved : list Operation) (terminator : Operation) :
  verified op →
  AffineParallel.getOperations op = moved ++ [terminator] →
  isTerminator terminator = true →
  let N := getNumResults (AffineParallel.lowerBoundsMap op) in
  let ivs := newInductionVars op next in
  let σ := renaming (AffineParallel.getArguments op) ivs in
  let st := matched outer pre (AffineParallel.toOperation op) post next in
  (∃ st1 st2 inner,
     AffineParallelOpConversion.createLoops op 0 N [] st = Ok ivs st1 ∧
     AffineParallelOpConversion.spliceBody op st1 = Ok tt st2 ∧
     getProgram st2
     = close outer
         (pre ++ nestOf op next moved
              ++ setBody [terminator] (AffineParallel.toOperation op) :: post) ∧
     innermostBody N (nestOf op next moved) = Some inner ∧
     nonTerminators inner = nonTerminators (AffineParallel.getOperations op)) ∧
  (∃ st' inner',
     AffineParallelOpConversion.rewrite op st = Ok tt st' ∧
     getProgram st'
     = close (mapFrame σ <$> outer)
         ((mapOperands σ <$> pre) ++ (mapOperands σ <$> nestOf op next moved)
            ++ (mapOperands σ <$> post)) ∧
     innermostBody N (mapOperands σ <$> nestOf op next moved) = Some inner' ∧
     nonTerminators inner'
     = mapOperands σ <$> nonTerminators (AffineParallel.getOperations op) ∧
     (N = 0%nat → getProgram st' = close outer (pre ++ moved ++ post))).
Proof.
  intros Hver Hbody Hterm N ivs σ st.
  assert (Hlen : length ivs = N) by apply freshValues_length.
  assert (Hdims : length (dimensions op ivs) = N)
    by (apply dimensions_length; [apply Hver|done]).
  assert (Hinner : ∀ lbo ubo inner,
    ∃ blk, innermostBody N (loopNest lbo ubo (dimensions op ivs) inner) = Some blk ∧
           nonTerminators blk = nonTerminators inner).
  { intros lbo ubo inner. rewrite <- Hdims, innermostBody_loopNest.
    eexists. split; [reflexivity|].
    destruct (dimensions op ivs); [done|]. by apply nonTerminators_snoc. }
  split.
  - destruct (lowering_steps op outer pre post next moved terminator Hver Hbody)
      as (st2 & st4 & Hsplice & Hprog2 & _).
    destruct (Hinner (AffineParallel.getLowerBoundsOperands op)
                (AffineParallel.getUpperBoundsOperands op) moved)
      as (inner & Hin & Hnt).
    eexists _, st2, inner. split; [by apply createLoops_matched, Hver|].
    split_and!; try done.
    by rewrite Hnt, Hbody, nonTerminators_snoc.
  - destruct (rewrite_program op outer pre post next moved terminator Hver Hbody)
      as (st' & Hrw & Hprog).
    unfold nestOf. fold ivs σ in Hprog |- *. rewrite loopNest_mapOperands.
    destruct (Hinner (σ <$> AffineParallel.getLowerBoundsOperands op)
                (σ <$> AffineParallel.getUpperBoundsOperands op)
                (mapOperands σ <$> moved))
      as (inner' & Hin & Hnt).
    exists st', inner'. split; [done|]. split_and!; try done.
    + rewrite Hprog, close_mapOperands, !fmap_app. unfold nestOf.
      by rewrite loopNest_mapOperands.
    + by rewrite Hnt, nonTerminators_mapOperands, Hbody, nonTerminators_snoc.
    + intros HN. rewrite Hprog.
      assert (Hσ : ∀ v, σ v = v).
      { intros v. destruct Hver as [Hargs _]. fold N in Hargs.
        rewrite HN in Hargs. unfold σ.
        by destruct (AffineParallel.getArguments op). }
      rewrite mapOperands_block_id by done.
      unfold nestOf. fold ivs.
      destruct (dimensions op ivs); [done|simpl in Hdims; lia].
Qed.

Lemma body_order_preserved_witness :
  isTerminator AffineTerminatorOp = true ∧
  ∃ st' inner',
    AffineParallelOpConversion.rewrite exParallel exParallelState = Ok tt st' ∧
    innermostBody 2 (getProgram st') = Some inner' ∧
    nonTerminators inner'
    = [AffineReduceOp AggregationKind.add (exVal f64) (exBuffer f64)
         identityMap2 [mkValue 5 IndexType; mkValue 6 IndexType]].
Proof.
  split; [reflexivity|].
  destruct (body_order_preserved exParallel [] [] [] 5
              [AffineReduce.toOperation (exReduce f64 AggregationKind.add)]
              AffineTerminatorOp exParallel_verified eq_refl eq_refl)
    as [_ (st' & inner' & Hrw & Hprog & Hin & Hnt & _)].
  exists st', inner'. split; [exact Hrw|].
  split; [rewrite Hprog; exact Hin|].
  rewrite Hnt. reflexivity.
Defined.

(** ** C10: the indexing of the induction variables *)

(** C10.  Take a loop whose block has as many arguments as the loop has
    dimensions N.  Whenever the creation loop runs to its end it has recorded
    exactly N induction variables, so every index 0 .. N-1 the substitution
    loop reads is inside the list, and the substitution loop runs to its end
    without the out-of-range failure, from whatever state.  For a loop the
    builders accept, the creation loop does run to its end. *)
Theorem induction_variable_access_in_bounds
    (op : AffineParallel.t) (outer : list Frame) (pre post : list Operation)
    (next : positive) :
  length (AffineParallel.getArguments op)
    = getNumResults (AffineParallel.lowerBoundsMap op) →
  let N := getNumResults (AffineParallel.lowerBoundsMap op) in
  let st := matched outer pre (AffineParallel.toOperation op) post next in
  (∀ ivs st1,
     AffineParallelOpConversion.createLoops op 0 N [] st = Ok ivs st1 →
     length ivs = N ∧
     (∀ idx, (idx < length (AffineParallel.getArguments op))%nat →
             is_Some (ivs !! idx)) ∧
     ∀ st2, ∃ st3,
       AffineParallelOpConversion.replaceArguments
         (AffineParallel.getArguments op) ivs 0 st2 = Ok tt st3) ∧
  (buildable op →
   ∃ ivs st1,
     AffineParallelOpConversion.createLoops op 0 N [] st = Ok ivs st1).
Proof.
  intros Hargs N st. split.
  - intros ivs st1 Hrun. apply createLoops_length in Hrun. simpl in Hrun.
    split_and!; [done| |].
    + intros idx Hidx. apply lookup_lt_is_Some_2. lia.
    + intros st2. eexists. apply replaceArguments_renaming. simpl. lia.
  - intros Hbuild. eexists _, _. by apply createLoops_matched.
Qed.

Lemma induction_variable_access_in_bounds_witness :
  length (AffineParallel.getArguments exParallel) = 2%nat ∧
  ∃ st1,
    AffineParallelOpConversion.createLoops exParallel 0 2 [] exParallelState
    = Ok [mkValue 5 IndexType; mkValue 6 IndexType] st1 ∧
    ∃ st3,
      AffineParallelOpConversion.replaceArguments [exI; exJ]
        [mkValue 5 IndexType; mkValue 6 IndexType] 0 st1 = Ok tt st3.
Proof.
  split; [reflexivity|].
  destruct (induction_variable_access_in_bounds exParallel [] [] [] 5 eq_refl)
    as [Hbounds Hruns].
  destruct (Hruns (proj2 exParallel_verified)) as (ivs & st1 & Hcreate).
  destruct (Hbounds ivs st1 Hcreate) as (_ & _ & Hrepl).
  assert (Hivs : ivs = [mkValue 5 IndexType; mkValue 6 IndexType]).
  { change (AffineParallelOpConversion.createLoops exParallel 0 2 []
              exParallelState = Ok ivs st1) in Hcreate.
    vm_compute in Hcreate. by injection Hcreate as <- _. }
  rewrite Hivs in *. exists st1. split; [exact Hcreate|]. apply Hrepl.
Defined.

(** With one block argument more than dimensions the substitution loop does
    read past the end: the pattern stops on the failed index check. *)
Example replaceArguments_too_many_arguments :
  ∃ st',
    AffineParallelOpConversion.replaceArguments
      [exI; exJ; exVal IndexType] [mkValue 5 IndexType; mkValue 6 IndexType] 0
      exParallelState
    = Fatal (AssertionFailed "Invalid index!") st'.
Proof. eexists. reflexivity. Qed.

(** ** What [createReduction] computes *)

Lemma emitted_nil st : emitted st st [].
Proof. unfold emitted. by rewrite app_nil_r. Qed.

Ltac emitted_tac :=
  unfold emitted; simpl; rewrite <- ?app_assoc; simpl; done.

Ltac run_eval :=
  repeat (progress (unfold readFloat, readInt, floatBinary, intBinary;
                    simpl; simplify_map_eq)).

Section CombineSemantics.
Import AffineReduce AffineReduceOpConversion.

Variables (op : AffineReduce.t) (source : Value) (st : Rewriter).
Variable env : gmap positive RVal.
Hypothesis source_old : (vid source < nextId st)%positive.
Hypothesis val_old : (vid (val op) < nextId st)%positive.

Lemma createReduction_float k L V x :
  vtype source = FloatType k →
  vtype (val op) = FloatType k →
  env !! vid source = Some (RFloat L) →
  env !! vid (val op) = Some (RFloat V) →
  combineFloat k (agg op) L V = Some x →
  ∃ r st' ops,
    createReduction op source st = Ok r st' ∧ emitted st st' ops ∧
    (evalOps ops env ≫= (.!! vid r)) = Some (RFloat x).
Proof.
  intros Hs Hv HL HV Hx.
  assert (Hne1 : nextId st ≠ vid (val op)) by lia.
  assert (Hne2 : nextId st ≠ vid source) by lia.
  unfold createReduction. rewrite Hs. simpl isaFloatType. cbv iota.
  destruct (agg op) eqn:Hagg; simpl in Hx; inversion Hx; subst x; clear Hx.
  - exists (val op), st, []. split; [reflexivity|].
    split; [apply emitted_nil|]. simpl. exact HV.
  - eexists _, _, _. split; [reflexivity|]. split; [emitted_tac|].
    run_eval. rewrite Hs. by run_eval.
  - eexists _, _, _. split; [reflexivity|]. split; [emitted_tac|].
    run_eval.
    destruct (bool_decide (SFcompare V L = Some Gt)) eqn:E; by run_eval.
  - eexists _, _, _. split; [reflexivity|]. split; [emitted_tac|].
    run_eval.
    destruct (bool_decide (SFcompare V L = Some Lt)) eqn:E; by run_eval.
  - eexists _, _, _. split; [reflexivity|]. split; [emitted_tac|].
    run_eval. rewrite Hs. by run_eval.
Qed.

Lemma createReduction_int w L V x :
  intWidth (vtype source) = Some w →
  isaFloatType (vtype source) = false →
  vtype (val op) = vtype source →
  env !! vid source = Some (RInt L) →
  env !! vid (val op) = Some (RInt V) →
  combineInt w (agg op) L V = Some x →
  ∃ r st' ops,
    createReduction op source st = Ok r st' ∧ emitted st st' ops ∧
    (evalOps ops env ≫= (.!! vid r)) = Some (RInt x).
Proof.
  intros Hw Hs Hv HL HV Hx.
  assert (Hne1 : nextId st ≠ vid (val op)) by lia.
  assert (Hne2 : nextId st ≠ vid source) by lia.
  unfold createReduction. rewrite Hs.
  destruct (agg op) eqn:Hagg; simpl in Hx; inversion Hx; subst x; clear Hx.
  - exists (val op), st, []. split; [reflexivity|].
    split; [apply emitted_nil|]. simpl. exact HV.
  - eexists _, _, _. split; [reflexivity|]. split; [emitted_tac|].
    by run_eval.
  - eexists _, _, _. split; [reflexivity|]. split; [emitted_tac|].
    run_eval. rewrite Hv, Hw. run_eval. unfold evalCmpI.
    rewrite Z.gtb_ltb.
    destruct (signed w L <? signed w V) eqn:E; by run_eval.
  - eexists _, _, _. split; [reflexivity|]. split; [emitted_tac|].
    run_eval. rewrite Hv, Hw. run_eval. unfold evalCmpI.
    destruct (signed w V <? signed w L) eqn:E; by run_eval.
  - eexists _, _, _. split; [reflexivity|]. split; [emitted_tac|].
    by run_eval.
Qed.

End CombineSemantics.

(** ** Integer bit patterns *)

Lemma pow2_half (w : positive) : 2 ^ Z.pos w = 2 * 2 ^ (Z.pos w - 1).
Proof.
  rewrite <- Z.pow_succ_r by lia. f_equal. lia.
Qed.

Lemma signed_bitsOfZ (w : positive) (z : Z) :
  - 2 ^ (Z.pos w - 1) <= z < 2 ^ (Z.pos w - 1) →
  signed w (bitsOfZ w z) = z.
Proof.
  intros Hz. unfold signed, bitsOfZ, wrap.
  pose proof (pow2_half w) as Hp.
  rewrite Z.mod_mod by lia.
  destruct (Z_lt_le_dec z 0) as [Hneg|Hpos].
  - assert (Hm : z mod 2 ^ Z.pos w = z + 2 ^ Z.pos w).
    { symmetry. apply (Z.mod_unique _ _ (-1)); lia. }
    rewrite Hm. destruct (Z.ltb_spec (z + 2 ^ Z.pos w) (2 ^ (Z.pos w - 1))); lia.
  - rewrite Z.mod_small by lia.
    destruct (Z.ltb_spec z (2 ^ (Z.pos w - 1))); lia.
Qed.

Lemma pow2_mono_le (a b : Z) : 0 <= a <= b → 2 ^ a <= 2 ^ b.
Proof. intros. apply Z.pow_le_mono_r; lia. Qed.


(** ** C1: the combine table *)

(** C1.  For a supported aggregation kind the value [createReduction] returns
    is, whatever the loaded value L and the reduce's value V are, the entry of
    the combine table for that kind and the scalar kind of the loaded value:
    V for overwrite, L + V and L × V (float or integer arithmetic) for add and
    multiply, V if strictly greater (less) than L and L otherwise for maximum
    (minimum).  On floats 3 and 5 the table gives add 8, multiply 15,
    maximum 5, minimum 3, overwrite 5; on integers −2 and 7 it gives
    maximum 7 and minimum −2. *)
Theorem createReduction_follows_table :
  (∀ k, let f := λ z, RFloat (floatOfZ k z) in
     combine (FloatType k) AggregationKind.add (f 3) (f 5) = Some (f 8) ∧
     combine (FloatType k) AggregationKind.mul (f 3) (f 5) = Some (f 15) ∧
     combine (FloatType k) AggregationKind.max (f 3) (f 5) = Some (f 5) ∧
     combine (FloatType k) AggregationKind.min (f 3) (f 5) = Some (f 3) ∧
     combine (FloatType k) AggregationKind.assign (f 3) (f 5) = Some (f 5)) ∧
  (∀ w s, 4 <= Z.pos w →
     let i := λ z, RInt (bitsOfZ w z) in
     combine (IntegerType w s) AggregationKind.max (i (-2)) (i 7) = Some (i 7) ∧
     combine (IntegerType w s) AggregationKind.min (i (-2)) (i 7) = Some (i (-2))) ∧
  ∀ (op : AffineReduce.t) (source : Value) (st : Rewriter)
    (env : gmap positive RVal) (L V : RVal),
    AggregationKind.supported (AffineReduce.agg op) = true →
    (vid source < nextId st)%positive →
    (vid (AffineReduce.val op) < nextId st)%positive →
    vtype (AffineReduce.val op) = vtype source →
    holds (vtype source) L = true →
    holds (vtype source) V = true →
    env !! vid source = Some L →
    env !! vid (AffineReduce.val op) = Some V →
    ∃ x r st' ops,
      combine (vtype source) (AffineReduce.agg op) L V = Some x ∧
      AffineReduceOpConversion.createReduction op source st = Ok r st' ∧
      emitted st st' ops ∧
      (evalOps ops env ≫= (.!! vid r)) = Some x.
Proof.
  split; [|split].
  - intros k; destruct k; vm_compute; repeat split; reflexivity.
  - intros w s Hw. simpl. unfold combineInt.
    assert (H3 : 2 ^ 3 <= 2 ^ (Z.pos w - 1)) by (apply pow2_mono_le; lia).
    change (2 ^ 3) with 8 in H3.
    rewrite !signed_bitsOfZ by lia. simpl. done.
  - intros op source st env L V Hsup Hs Hv Hty HL HV HeL HeV.
    destruct (vtype source) as [k|w s| |sh e] eqn:Ht; destruct L as [l|l];
      destruct V as [v|v]; try discriminate.
    + destruct (combineFloat k (AffineReduce.agg op) l v) as [x|] eqn:Hx;
        [|by destruct (AffineReduce.agg op)].
      destruct (createReduction_float op source st env Hs Hv k l v x)
        as (r & st' & ops & ? & ? & ?); try done.
      exists (RFloat x), r, st', ops. simpl. by rewrite Hx.
    + destruct (combineInt w (AffineReduce.agg op) l v) as [x|] eqn:Hx;
        [|by destruct (AffineReduce.agg op)].
      destruct (createReduction_int op source st env Hs Hv w l v x)
        as (r & st' & ops & ? & ? & ?); try done; try by rewrite Ht.
      exists (RInt x), r, st', ops. simpl. by rewrite Hx.
    + destruct (combineInt 64 (AffineReduce.agg op) l v) as [x|] eqn:Hx;
        [|by destruct (AffineReduce.agg op)].
      destruct (createReduction_int op source st env Hs Hv 64%positive l v x)
        as (r & st' & ops & ? & ? & ?); try done; try by rewrite Ht.
      exists (RInt x), r, st', ops. simpl. by rewrite Hx.
Qed.

Lemma createReduction_follows_table_witness :
  let run := λ t a L V x,
    ∃ r st' ops,
      AffineReduceOpConversion.createReduction (exReduce t a) (exSource t)
        (exLoaded t a) = Ok r st' ∧
      emitted (exLoaded t a) st' ops ∧
      (evalOps ops (exEnv L V) ≫= (.!! vid r)) = Some x in
  let f := λ z, RFloat (floatOfZ F64 z) in
  let i := λ z, RInt (bitsOfZ 32 z) in
  AggregationKind.supported AggregationKind.add = true ∧
  (vid (exSource f64) < nextId (exLoaded f64 AggregationKind.add))%positive ∧
  holds f64 (f 3) = true ∧
  exEnv (f 3) (f 5) !! vid (exSource f64) = Some (f 3) ∧
  run f64 AggregationKind.add (f 3) (f 5) (f 8) ∧
  run f64 AggregationKind.mul (f 3) (f 5) (f 15) ∧
  run f64 AggregationKind.max (f 3) (f 5) (f 5) ∧
  run f64 AggregationKind.min (f 3) (f 5) (f 3) ∧
  run f64 AggregationKind.assign (f 3) (f 5) (f 5) ∧
  run i32 AggregationKind.max (i (-2)) (i 7) (i 7) ∧
  run i32 AggregationKind.min (i (-2)) (i 7) (i (-2)).
Proof.
  pose proof (proj2 (proj2 createReduction_follows_table)) as T.
  assert (R : ∀ t a L V x,
    AggregationKind.supported a = true → holds t L = true → holds t V = true →
    combine t a L V = Some x →
    ∃ r st' ops,
      AffineReduceOpConversion.createReduction (exReduce t a) (exSource t)
        (exLoaded t a) = Ok r st' ∧
      emitted (exLoaded t a) st' ops ∧
      (evalOps ops (exEnv L V) ≫= (.!! vid r)) = Some x).
  { intros t a L V x Ha HL HV Hx.
    destruct (T (exReduce t a) (exSource t) (exLoaded t a) (exEnv L V) L V)
      as (x' & r & st' & ops & Hc & Hr & He & Hev);
      [exact Ha | reflexivity | reflexivity | reflexivity | exact HL | exact HV
      | reflexivity | reflexivity |].
    simpl in Hc. rewrite Hx in Hc. injection Hc as <-.
    exists r, st', ops. split_and!; assumption. }
  simpl.
  split_and!; try reflexivity; apply R; reflexivity.
Defined.

(** ** The reduce pattern, step by step *)

Section ReduceSteps.
Import AffineReduce AffineReduceOpConversion.

Lemma createReduction_shape op source st :
  AggregationKind.supported (agg op) = true →
  ∃ r st' ops,
    createReduction op source st = Ok r st' ∧ emitted st st' ops ∧
    Forall (λ o, isArithmetic o = true) ops ∧
    length ops = combineSize (agg op).
Proof.
  intros Hsup. unfold createReduction.
  destruct (agg op); try discriminate;
    destruct (isaFloatType (vtype source));
    eexists _, _, _; (split; [reflexivity|]);
    (split; [first [apply emitted_nil | emitted_tac]|]);
    split; try reflexivity; repeat constructor.
Qed.

Lemma createReduction_unsupported op source st :
  AggregationKind.supported (agg op) = false →
  createReduction op source st
  = Fatal (Unreachable
      "Unsupported aggregation for AffineReduceOpConversion::createReduction") st.
Proof.
  unfold createReduction. by destruct (agg op).
Qed.

Lemma createAffineLoadOp_matched op outer pre post next sh elementType :
  vtype (out op) = MemRefType sh elementType →
  getNumInputs (map op) = length (idxs op) →
  createAffineLoadOp (out op) (map op) (idxs op)
    (matched outer pre (toOperation op) post next)
  = Ok (mkValue next elementType)
       (afterLoad outer pre op (mkValue next elementType) post next).
Proof.
  intros Hty Hidx. unfold createAffineLoadOp, bind, assert.
  rewrite bool_decide_eq_true_2 by done. simpl. by rewrite Hty.
Qed.

Lemma rewrite_steps op outer pre post next sh elementType r st' ops :
  vtype (out op) = MemRefType sh elementType →
  getNumInputs (map op) = length (idxs op) →
  let source := mkValue next elementType in
  createReduction op source (afterLoad outer pre op source post next) = Ok r st' →
  emitted (afterLoad outer pre op source post next) st' ops →
  rewrite op (matched outer pre (toOperation op) post next)
  = Ok tt (mkRewriter outer
             (pre ++ AffineLoadOp source (out op) (map op) (idxs op) :: ops
                  ++ [AffineStoreOp r (out op) (map op) (idxs op)])
             post 0 (nextId st')).
Proof.
  intros Hty Hidx source Hred (Hfr & Hbe & Haf & Hde).
  unfold rewrite, bind at 1.
  rewrite (createAffineLoadOp_matched _ _ _ _ _ _ _ Hty Hidx).
  fold source. unfold bind at 1. rewrite Hred.
  destruct st' as [fs b a d n]. simpl in Hfr, Hbe, Haf, Hde. subst fs b a d.
  unfold bind, createAffineStoreOp, assert.
  rewrite bool_decide_eq_true_2 by done. simpl.
  by rewrite <- !app_assoc.
Qed.

End ReduceSteps.

(** ** C4: load, combine, store *)

(** C4.  Expanding a reduce with a supported aggregation kind, an output of
    memref type and as many indices as its map takes succeeds.  In the place
    of the reduce it leaves one load, then the operations of the combine
    (none, one or two arithmetic operations, by the kind), then one store of
    the one value the combine returned; load and store name the memref, the
    map and the indices of the reduce; the reduce is gone. *)
Theorem reduce_expands_to_load_combine_store
    (op : AffineReduce.t) (outer : list Frame) (pre post : list Operation)
    (next : positive) (sh : list Z) (elementType : MType) :
  AggregationKind.supported (AffineReduce.agg op) = true →
  vtype (AffineReduce.out op) = MemRefType sh elementType →
  getNumInputs (AffineReduce.map op) = length (AffineReduce.idxs op) →
  let source := mkValue next elementType in
  let load := AffineLoadOp source (AffineReduce.out op) (AffineReduce.map op)
                           (AffineReduce.idxs op) in
  let store := λ combined,
    AffineStoreOp combined (AffineReduce.out op) (AffineReduce.map op)
                  (AffineReduce.idxs op) in
  ∃ combined stC ops st',
    AffineReduceOpConversion.createReduction op source
      (afterLoad outer pre op source post next) = Ok combined stC ∧
    emitted (afterLoad outer pre op source post next) stC ops ∧
    Forall (λ o, isArithmetic o = true) ops ∧
    length ops = combineSize (AffineReduce.agg op) ∧
    AffineReduceOpConversion.rewrite op
      (matched outer pre (AffineReduce.toOperation op) post next) = Ok tt st' ∧
    frames st' = outer ∧
    before st' = pre ++ load :: ops ++ [store combined] ∧
    after st' = post ∧
    getProgram st' = close outer (pre ++ load :: ops ++ store combined :: post) ∧
    length (filter (λ o, isLoad o = true) (load :: ops ++ [store combined]))
      = 1%nat ∧
    length (filter (λ o, isStore o = true) (load :: ops ++ [store combined]))
      = 1%nat.
Proof.
  intros Hsup Hty Hidx source load store.
  destruct (createReduction_shape op source
              (afterLoad outer pre op source post next) Hsup)
    as (combined & stC & ops & Hred & Hem & Harith & Hlen).
  exists combined, stC, ops. eexists.
  split; [exact Hred|]. split; [exact Hem|]. split; [exact Harith|].
  split; [exact Hlen|].
  split; [by apply (rewrite_steps _ _ _ _ _ sh elementType combined stC ops)|].
  split; [reflexivity|]. split; [reflexivity|]. split; [reflexivity|].
  split; [|split].
  - unfold getProgram. simpl. f_equal.
    rewrite <- app_assoc. simpl. by rewrite <- app_assoc.
  - assert (Hnone : filter (λ o, isLoad o = true) ops = []).
    { clear -Harith. induction Harith as [|o ops Ho _ IH]; [done|].
      rewrite filter_cons_False; [done|]. by destruct o. }
    rewrite filter_cons_True by done. rewrite filter_app, Hnone. reflexivity.
  - assert (Hnone : filter (λ o, isStore o = true) ops = []).
    { clear -Harith. induction Harith as [|o ops Ho _ IH]; [done|].
      rewrite filter_cons_False; [done|]. by destruct o. }
    rewrite filter_cons_False by done. rewrite filter_app, Hnone. reflexivity.
Qed.

Lemma reduce_expands_to_load_combine_store_witness :
  AggregationKind.supported AggregationKind.max = true ∧
  getNumInputs identityMap2 = length [exI; exJ] ∧
  ∃ st',
    AffineReduceOpConversion.rewrite (exReduce f64 AggregationKind.max)
      (exReduceState f64 AggregationKind.max) = Ok tt st' ∧
    getProgram st'
    = [AffineLoadOp (exSource f64) (exBuffer f64) identityMap2 [exI; exJ];
       CmpFOp CmpFPredicate.OGT (mkValue 6 i1) (exVal f64) (exSource f64);
       SelectOp (mkValue 7 f64) (mkValue 6 i1) (exVal f64) (exSource f64);
       AffineStoreOp (mkValue 7 f64) (exBuffer f64) identityMap2 [exI; exJ]].
Proof.
  split; [reflexivity|]. split; [reflexivity|].
  destruct (reduce_expands_to_load_combine_store
              (exReduce f64 AggregationKind.max) [] [] [] 5 [4; 8] f64
              eq_refl eq_refl eq_refl)
    as (combined & stC & ops & st' & Hred & _ & _ & _ & Hrw & _).
  exists st'. split; [exact Hrw|].
  change (AffineReduceOpConversion.rewrite (exReduce f64 AggregationKind.max)
            (exReduceState f64 AggregationKind.max) = Ok tt st') in Hrw.
  vm_compute in Hrw. injection Hrw as <-. reflexivity.
Defined.

(** ** C6: not-a-number in maximum and minimum *)

Lemma createReduction_select op source st :
  AffineReduce.agg op = AggregationKind.max ∨
  AffineReduce.agg op = AggregationKind.min →
  let isMin := match AffineReduce.agg op with
               | AggregationKind.min => true | _ => false end in
  let cmp := mkValue (nextId st) i1 in
  let r := mkValue (Pos.succ (nextId st)) (vtype (AffineReduce.val op)) in
  let compare :=
    if isaFloatType (vtype source)
    then CmpFOp (if isMin then CmpFPredicate.OLT else CmpFPredicate.OGT)
                cmp (AffineReduce.val op) source
    else CmpIOp (if isMin then CmpIPredicate.slt else CmpIPredicate.sgt)
                cmp (AffineReduce.val op) source in
  ∃ st',
    AffineReduceOpConversion.createReduction op source st = Ok r st' ∧
    emitted st st' [compare; SelectOp r cmp (AffineReduce.val op) source].
Proof.
  intros Hagg. unfold AffineReduceOpConversion.createReduction.
  destruct Hagg as [-> | ->]; destruct (isaFloatType (vtype source));
    simpl; eexists; (split; [reflexivity|emitted_tac]).
Qed.

(** C6.  [OGT] and [OLT], the predicates of the float compare that maximum
    and minimum emit, are ordered: they are false as soon as one operand is
    not-a-number.  So when the loaded value L of a float maximum or minimum
    is not-a-number, the select takes its false branch and the combined value
    is L, whatever V is. *)
Theorem float_max_min_keep_nan :
  (∀ a b, a = S754_nan ∨ b = S754_nan →
     evalCmpF CmpFPredicate.OGT a b = false ∧
     evalCmpF CmpFPredicate.OLT a b = false) ∧
  ∀ (op : AffineReduce.t) (source : Value) (st : Rewriter)
    (env : gmap positive RVal) (k : FloatKind) (V : spec_float),
    AffineReduce.agg op = AggregationKind.max ∨
    AffineReduce.agg op = AggregationKind.min →
    vtype source = FloatType k →
    (vid source < nextId st)%positive →
    (vid (AffineReduce.val op) < nextId st)%positive →
    env !! vid source = Some (RFloat S754_nan) →
    env !! vid (AffineReduce.val op) = Some (RFloat V) →
    let predicate := match AffineReduce.agg op with
                     | AggregationKind.min => CmpFPredicate.OLT
                     | _ => CmpFPredicate.OGT
                     end in
    let cmp := mkValue (nextId st) i1 in
    let r := mkValue (Pos.succ (nextId st)) (vtype (AffineReduce.val op)) in
    let ops := [CmpFOp predicate cmp (AffineReduce.val op) source;
                SelectOp r cmp (AffineReduce.val op) source] in
    ∃ st',
      AffineReduceOpConversion.createReduction op source st = Ok r st' ∧
      emitted st st' ops ∧
      (evalOps ops env ≫= (.!! vid r)) = Some (RFloat S754_nan).
Proof.
  split.
  - intros a b [-> | ->]; [done|]. by destruct a.
  - intros op source st env k V Hagg Hty Hs Hv HL HV predicate cmp r ops.
    destruct (createReduction_select op source st Hagg) as (st' & Hred & Hem).
    rewrite Hty in Hem. simpl in Hem.
    assert (Hne1 : nextId st ≠ vid (AffineReduce.val op)) by lia.
    assert (Hne2 : nextId st ≠ vid source) by lia.
    exists st'. split; [exact Hred|]. subst ops predicate.
    destruct Hagg as [Hagg | Hagg]; rewrite Hagg in *;
      (split; [exact Hem|]); destruct V; by run_eval.
Qed.

Lemma float_max_min_keep_nan_witness :
  let run := λ a,
    ∃ r st' ops,
      AffineReduceOpConversion.createReduction (exReduce f64 a) (exSource f64)
        (exLoaded f64 a) = Ok r st' ∧
      emitted (exLoaded f64 a) st' ops ∧
      (evalOps ops (exEnv (RFloat S754_nan) (RFloat (floatOfZ F64 1)))
         ≫= (.!! vid r)) = Some (RFloat S754_nan) in
  vtype (exSource f64) = FloatType F64 ∧
  run AggregationKind.max ∧ run AggregationKind.min.
Proof.
  pose proof (proj2 float_max_min_keep_nan) as T.
  split; [reflexivity|].
  split.
  - destruct (T (exReduce f64 AggregationKind.max) (exSource f64)
                (exLoaded f64 AggregationKind.max)
                (exEnv (RFloat S754_nan) (RFloat (floatOfZ F64 1))) F64
                (floatOfZ F64 1))
      as (st' & Hred & Hem & Hev);
      [by left | reflexivity | reflexivity | reflexivity | reflexivity
      | reflexivity |].
    eexists _, st', _. split; [exact Hred|]. split; [exact Hem|exact Hev].
  - destruct (T (exReduce f64 AggregationKind.min) (exSource f64)
                (exLoaded f64 AggregationKind.min)
                (exEnv (RFloat S754_nan) (RFloat (floatOfZ F64 1))) F64
                (floatOfZ F64 1))
      as (st' & Hred & Hem & Hev);
      [by right | reflexivity | reflexivity | reflexivity | reflexivity
      | reflexivity |].
    eexists _, st', _. split; [exact Hred|]. split; [exact Hem|exact Hev].
Defined.

(** ** C7: unsupported aggregation kinds *)

(** C7.  With an aggregation kind outside the five, [createReduction] stops
    at [llvm_unreachable] without creating anything, and so the pattern
    stops too: whatever state it starts from it ends in a fatal failure,
    having created at most the load and neither a combine operation nor the
    store, and with the reduce still in place.  When the load can be built
    the failure is the unreachable one, right after the load. *)
Theorem unsupported_kind_is_fatal (op : AffineReduce.t) :
  AggregationKind.supported (AffineReduce.agg op) = false →
  let msg :=
    "Unsupported aggregation for AffineReduceOpConversion::createReduction" in
  (∀ source st,
     AffineReduceOpConversion.createReduction op source st
     = Fatal (Unreachable msg) st) ∧
  (∀ st, ∃ why st' ops,
     AffineReduceOpConversion.rewrite op st = Fatal why st' ∧
     emitted st st' ops ∧ (length ops <= 1)%nat ∧
     Forall (λ o, isLoad o = true) ops) ∧
  (∀ outer pre post next sh elementType,
     vtype (AffineReduce.out op) = MemRefType sh elementType →
     getNumInputs (AffineReduce.map op) = length (AffineReduce.idxs op) →
     AffineReduceOpConversion.rewrite op
       (matched outer pre (AffineReduce.toOperation op) post next)
     = Fatal (Unreachable msg)
         (afterLoad outer pre op (mkValue next elementType) post next)).
Proof.
  intros Hsup msg. split; [|split].
  - intros source st. by apply createReduction_unsupported.
  - intros st. unfold AffineReduceOpConversion.rewrite, bind at 1.
    unfold createAffineLoadOp, bind at 1, assert.
    destruct (bool_decide _); simpl.
    + destruct (vtype (AffineReduce.out op)) eqn:Hty;
        try (eexists _, st, []; split; [reflexivity|];
             split; [apply emitted_nil|]; split; [simpl; lia|constructor]).
      unfold bind. simpl. rewrite createReduction_unsupported by done.
      eexists _, _, [_]. split; [reflexivity|].
      split; [by unfold emitted|]. split; [simpl; lia|]. by repeat constructor.
    + eexists _, st, []. split; [reflexivity|].
      split; [apply emitted_nil|]. split; [simpl; lia|constructor].
  - intros outer pre post next sh elementType Hty Hidx.
    unfold AffineReduceOpConversion.rewrite, bind at 1.
    rewrite (createAffineLoadOp_matched _ _ _ _ _ _ _ Hty Hidx).
    unfold bind. by rewrite createReduction_unsupported.
Qed.

Lemma unsupported_kind_is_fatal_witness :
  AggregationKind.supported (AggregationKind.other 7) = false ∧
  AffineReduceOpConversion.rewrite (exReduce f64 (AggregationKind.other 7))
    (exReduceState f64 (AggregationKind.other 7))
  = Fatal (Unreachable
      "Unsupported aggregation for AffineReduceOpConversion::createReduction")
      (exLoaded f64 (AggregationKind.other 7)).
Proof.
  split; [reflexivity|].
  exact (proj2 (proj2 (unsupported_kind_is_fatal
                         (exReduce f64 (AggregationKind.other 7)) eq_refl))
           [] [] [] 5%positive [4; 8] f64 eq_refl eq_refl).
Defined.

(** ** C8: integer maximum and minimum compare signed *)

(** C8.  For an integer element type of any width and any signedness
    (signless, signed or unsigned alike) maximum emits a [CmpIOp] with
    predicate [sgt] and minimum one with [slt], each followed by the select
    between V and L; evaluated, the pair yields V when V is greater (less)
    than L as signed numbers and L otherwise. *)
Theorem integer_max_min_compare_signed
    (op : AffineReduce.t) (source : Value) (st : Rewriter)
    (env : gmap positive RVal) (w : positive) (s : Signedness) (L V : Z) :
  AffineReduce.agg op = AggregationKind.max ∨
  AffineReduce.agg op = AggregationKind.min →
  vtype source = IntegerType w s →
  vtype (AffineReduce.val op) = IntegerType w s →
  (vid source < nextId st)%positive →
  (vid (AffineReduce.val op) < nextId st)%positive →
  env !! vid source = Some (RInt L) →
  env !! vid (AffineReduce.val op) = Some (RInt V) →
  let isMin := match AffineReduce.agg op with
               | AggregationKind.min => true | _ => false end in
  let predicate := if isMin then CmpIPredicate.slt else CmpIPredicate.sgt in
  let cmp := mkValue (nextId st) i1 in
  let r := mkValue (Pos.succ (nextId st)) (vtype (AffineReduce.val op)) in
  let ops := [CmpIOp predicate cmp (AffineReduce.val op) source;
              SelectOp r cmp (AffineReduce.val op) source] in
  ∃ st',
    AffineReduceOpConversion.createReduction op source st = Ok r st' ∧
    emitted st st' ops ∧
    (evalOps ops env ≫= (.!! vid r))
    = Some (RInt (if isMin
                  then if signed w V <? signed w L then V else L
                  else if signed w L <? signed w V then V else L)).
Proof.
  intros Hagg Hty Htyv Hs Hv HL HV isMin predicate cmp r ops.
  destruct (createReduction_select op source st Hagg) as (st' & Hred & Hem).
  rewrite Hty in Hem. simpl in Hem.
  assert (Hne1 : nextId st ≠ vid (AffineReduce.val op)) by lia.
  assert (Hne2 : nextId st ≠ vid source) by lia.
  exists st'. split; [exact Hred|]. subst ops predicate isMin.
  destruct Hagg as [Hagg | Hagg]; rewrite Hagg in *;
    (split; [exact Hem|]); run_eval; rewrite Htyv; run_eval;
    unfold evalCmpI; rewrite ?Z.gtb_ltb.
  - destruct (signed w L <? signed w V); by run_eval.
  - destruct (signed w V <? signed w L); by run_eval.
Qed.

Lemma integer_max_min_compare_signed_witness :
  let run := λ t a L V x,
    ∃ r st' ops,
      AffineReduceOpConversion.createReduction (exReduce t a) (exSource t)
        (exLoaded t a) = Ok r st' ∧
      emitted (exLoaded t a) st' ops ∧
      (evalOps ops (exEnv (RInt L) (RInt V)) ≫= (.!! vid r)) = Some (RInt x) in
  vtype (exSource i32) = IntegerType 32 Signless ∧
  vtype (exSource ui8) = IntegerType 8 Unsigned ∧
  run i32 AggregationKind.max (bitsOfZ 32 (-2)) 7 7 ∧
  run i32 AggregationKind.min (bitsOfZ 32 (-2)) 7 (bitsOfZ 32 (-2)) ∧
  run ui8 AggregationKind.max 200 7 7 ∧
  run ui8 AggregationKind.min 200 7 200.
Proof.
  assert (R : ∀ w s a L V,
    a = AggregationKind.max ∨ a = AggregationKind.min →
    ∃ r st' ops,
      AffineReduceOpConversion.createReduction (exReduce (IntegerType w s) a)
        (exSource (IntegerType w s)) (exLoaded (IntegerType w s) a) = Ok r st' ∧
      emitted (exLoaded (IntegerType w s) a) st' ops ∧
      (evalOps ops (exEnv (RInt L) (RInt V)) ≫= (.!! vid r))
      = Some (RInt (if match a with AggregationKind.min => true | _ => false end
                    then if signed w V <? signed w L then V else L
                    else if signed w L <? signed w V then V else L))).
  { intros w s a L V Ha.
    destruct (integer_max_min_compare_signed (exReduce (IntegerType w s) a)
                (exSource (IntegerType w s)) (exLoaded (IntegerType w s) a)
                (exEnv (RInt L) (RInt V)) w s L V Ha)
      as (st' & Hred & Hem & Hev); try reflexivity.
    eexists _, st', _. split; [exact Hred|]. split; [exact Hem|exact Hev]. }
  simpl. split; [reflexivity|]. split; [reflexivity|].
  split_and!.
  - apply (R 32%positive Signless AggregationKind.max). by left.
  - apply (R 32%positive Signless AggregationKind.min). by right.
  - apply (R 8%positive Unsigned AggregationKind.max). by left.
  - apply (R 8%positive Unsigned AggregationKind.min). by right.
Defined.

(** ** C9: overwrite still loads *)

Lemma uses_plug s blk : uses (plug s blk) = shellUses s ++ (blk ≫= uses).
Proof. destruct s; simpl; by rewrite <- ?app_assoc. Qed.

Lemma elem_of_uses_close v fs : ∀ blk,
  v ∈ close fs blk ≫= uses ↔ v ∈ fs ≫= frameUses ∨ v ∈ blk ≫= uses.
Proof.
  induction fs as [|fr fs IH]; intros blk.
  - simpl. rewrite elem_of_nil. tauto.
  - change (close (fr :: fs) blk)
      with (close fs (above fr ++ plug (shell fr) blk :: below fr)).
    rewrite IH, bind_app, !bind_cons, uses_plug.
    unfold frameUses. rewrite !elem_of_app. tauto.
Qed.

(** C9.  For an overwrite the pattern still creates the load, followed
    directly by a store of the reduce's own value V.  The store does not
    read the loaded value: whatever the load yields, the stored operand
    evaluates to the same thing; and when every value used in the program
    was created before the rewrite, no operation of the resulting program
    uses the load's result at all. *)
Theorem overwrite_still_loads
    (op : AffineReduce.t) (outer : list Frame) (pre post : list Operation)
    (next : positive) (sh : list Z) (elementType : MType) :
  AffineReduce.agg op = AggregationKind.assign →
  vtype (AffineReduce.out op) = MemRefType sh elementType →
  getNumInputs (AffineReduce.map op) = length (AffineReduce.idxs op) →
  let st := matched outer pre (AffineReduce.toOperation op) post next in
  Forall (λ v, (vid v < next)%positive) (getProgram st ≫= uses) →
  let source := mkValue next elementType in
  let load := AffineLoadOp source (AffineReduce.out op) (AffineReduce.map op)
                           (AffineReduce.idxs op) in
  let store := AffineStoreOp (AffineReduce.val op) (AffineReduce.out op)
                             (AffineReduce.map op) (AffineReduce.idxs op) in
  ∃ st',
    AffineReduceOpConversion.rewrite op st = Ok tt st' ∧
    getProgram st' = close outer (pre ++ load :: store :: post) ∧
    (source ∉ getProgram st' ≫= uses) ∧
    ∀ (env : gmap positive RVal) (L : RVal),
      <[vid source := L]> env !! vid (AffineReduce.val op)
      = env !! vid (AffineReduce.val op).
Proof.
  intros Hagg Hty Hidx st Hold source load store.
  assert (Hsup : AggregationKind.supported (AffineReduce.agg op) = true)
    by by rewrite Hagg.
  assert (Hred : AffineReduceOpConversion.createReduction op source
                   (afterLoad outer pre op source post next)
                 = Ok (AffineReduce.val op)
                      (afterLoad outer pre op source post next)).
  { unfold AffineReduceOpConversion.createReduction. by rewrite Hagg. }
  pose proof (rewrite_steps op outer pre post next sh elementType _ _ []
                Hty Hidx Hred (emitted_nil _)) as Hrw.
  rewrite Forall_forall in Hold.
  assert (Huse : ∀ v, v ∈ uses (AffineReduce.toOperation op) →
                      (vid v < next)%positive).
  { intros v Hv. apply Hold. unfold st, matched, getProgram. simpl.
    apply elem_of_uses_close. right.
    rewrite bind_app, bind_cons, !elem_of_app. auto. }
  assert (Hprog : ∀ n,
    getProgram (mkRewriter outer (pre ++ load :: [] ++ [store]) post 0 n)
    = close outer (pre ++ load :: store :: post)).
  { intros n. unfold getProgram. simpl. by rewrite <- app_assoc. }
  eexists. split; [exact Hrw|]. split; [apply Hprog|]. split.
  - intros Hin. rewrite Hprog in Hin.
    apply elem_of_uses_close in Hin.
    assert (Hlt : (vid source < next)%positive); [|simpl in Hlt; lia].
    destruct Hin as [Hin|Hin].
    + apply Hold. unfold st, matched, getProgram. simpl.
      apply elem_of_uses_close. by left.
    + rewrite bind_app, !bind_cons, !elem_of_app in Hin.
      destruct Hin as [Hin|[Hin|[Hin|Hin]]].
      * apply Hold. unfold st, matched, getProgram. simpl.
        apply elem_of_uses_close. right. rewrite bind_app, elem_of_app. by left.
      * apply Huse. unfold AffineReduce.toOperation. simpl in *. elem_solve.
      * apply Huse. exact Hin.
      * apply Hold. unfold st, matched, getProgram. simpl.
        apply elem_of_uses_close. right.
        rewrite bind_app, bind_cons, !elem_of_app. auto.
  - intros env L. apply lookup_insert_ne. simpl.
    assert ((vid (AffineReduce.val op) < next)%positive); [|lia].
    apply Huse. simpl. left.
Qed.

Lemma overwrite_still_loads_witness :
  AffineReduce.agg (exReduce f64 AggregationKind.assign) = AggregationKind.assign ∧
  ∃ st',
    AffineReduceOpConversion.rewrite (exReduce f64 AggregationKind.assign)
      (exReduceState f64 AggregationKind.assign) = Ok tt st' ∧
    getProgram st'
    = [AffineLoadOp (exSource f64) (exBuffer f64) identityMap2 [exI; exJ];
       AffineStoreOp (exVal f64) (exBuffer f64) identityMap2 [exI; exJ]] ∧
    (exSource f64 ∉ getProgram st' ≫= uses) ∧
    ∀ L, exEnv L (RFloat (floatOfZ F64 5)) !! vid (exVal f64)
         = Some (RFloat (floatOfZ F64 5)).
Proof.
  split; [reflexivity|].
  destruct (overwrite_still_loads (exReduce f64 AggregationKind.assign)
              [] [] [] 5 [4; 8] f64 eq_refl eq_refl eq_refl)
    as (st' & Hrw & Hprog & Hunused & Henv).
  - repeat constructor.
  - exists st'. split; [exact Hrw|]. split; [exact Hprog|].
    split; [exact Hunused|].
    intros L. unfold exEnv. rewrite (Henv _ L). reflexivity.
Defined.

(** * The rest of the pass: proofs *)

(** ** The census of operations *)

Lemma getName_mapOperands f o : getName (mapOperands f o) = getName o.
Proof. by destruct o. Qed.

Lemma countNamed_mapOperands q f o :
  countNamed q (mapOperands f o) = countNamed q o.
Proof.
  induction o as [o Ho|o body Ho IH] using Operation_ind.
  - by destruct o.
  - assert (Hb : sum_list_with (countNamed q) (mapOperands f <$> body)
                 = sum_list_with (countNamed q) body).
    { clear Ho. induction IH as [|o' body' Ho' _ IH']; [done|].
      rewrite fmap_cons. simpl. by rewrite Ho', IH'. }
    destruct o; try discriminate; injection Ho as ->; simpl; by rewrite Hb.
Qed.

Lemma census_mapOperands q f blk :
  census q (mapOperands f <$> blk) = census q blk.
Proof.
  unfold census. induction blk as [|o blk IH]; [done|].
  rewrite fmap_cons. simpl. by rewrite countNamed_mapOperands, IH.
Qed.

Lemma census_app q blk1 blk2 :
  census q (blk1 ++ blk2) = (census q blk1 + census q blk2)%nat.
Proof. apply sum_list_with_app. Qed.

Lemma census_cons q o blk :
  census q (o :: blk) = (countNamed q o + census q blk)%nat.
Proof. done. Qed.

Lemma countNamed_plug q s blk1 blk2 :
  (countNamed q (plug s blk1) + census q blk2
   = countNamed q (plug s blk2) + census q blk1)%nat.
Proof. destruct s; simpl; unfold census; lia. Qed.

Lemma census_close q fs : ∀ blk1 blk2,
  (census q (close fs blk1) + census q blk2
   = census q (close fs blk2) + census q blk1)%nat.
Proof.
  induction fs as [|fr fs IH]; intros blk1 blk2; simpl; [lia|].
  specialize (IH (above fr ++ plug (shell fr) blk1 :: below fr)
                 (above fr ++ plug (shell fr) blk2 :: below fr)).
  rewrite !census_app, !census_cons in IH.
  pose proof (countNamed_plug q (shell fr) blk1 blk2). lia.
Qed.

Lemma census_loopNest q lbo ubo dims inner :
  census q (loopNest lbo ubo dims inner)
  = (length dims * ((if q AffineForOpName then 1 else 0)
                    + (if q AffineTerminatorOpName then 1 else 0))
     + census q inner)%nat.
Proof.
  induction dims as [|d dims IH]; [done|].
  simpl loopNest. rewrite census_cons. simpl countNamed.
  fold (census q (loopNest lbo ubo dims inner ++ [AffineTerminatorOp])).
  rewrite census_app, IH. unfold census at 2 3. simpl. lia.
Qed.

Lemma rewrite_program_census
    (q : OperationName → bool)
    (op : AffineParallel.t) (outer : list Frame) (pre post : list Operation)
    (next : positive) (moved : list Operation) (terminator : Operation) :
  verified op →
  AffineParallel.getOperations op = moved ++ [terminator] →
  isTerminator terminator = true →
  let N := getNumResults (AffineParallel.lowerBoundsMap op) in
  let count := λ n : OperationName, if q n then 1%nat else 0%nat in
  let st := matched outer pre (AffineParallel.toOperation op) post next in
  ∃ st',
    AffineParallelOpConversion.rewrite op st = Ok tt st' ∧
    (census q (getProgram st') + count AffineParallelOpName
       + count AffineTerminatorOpName
     = census q (getProgram st)
       + N * (count AffineForOpName + count AffineTerminatorOpName))%nat.
Proof.
  intros Hver Hbody Hterm N count st.
  destruct (rewrite_program op outer pre post next moved terminator Hver Hbody)
    as (st' & Hrw & Hprog).
  exists st'. split; [exact Hrw|].
  assert (Hdims : length (dimensions op (newInductionVars op next)) = N).
  { apply dimensions_length; [apply Hver|apply freshValues_length]. }
  rewrite Hprog, census_mapOperands.
  pose proof (census_close q outer
    (pre ++ nestOf op next moved ++ post)
    (pre ++ AffineParallel.toOperation op :: post)) as Hc.
  unfold nestOf in Hc.
  rewrite !census_app, census_cons, census_loopNest, Hdims in Hc.
  unfold AffineParallel.toOperation in Hc. simpl countNamed in Hc.
  rewrite Hbody in Hc. fold (census q (moved ++ [terminator])) in Hc.
  rewrite census_app in Hc.
  assert (Ht : census q [terminator] = count AffineTerminatorOpName).
  { destruct terminator; try discriminate. unfold census. simpl.
    unfold count. lia. }
  unfold st, matched, getProgram. simpl frames. simpl before. simpl after.
  unfold nestOf, AffineParallel.toOperation. rewrite Hbody.
  fold (count AffineParallelOpName) (count AffineForOpName)
    (count AffineTerminatorOpName) in Hc.
  lia.
Qed.

Lemma census_arithmetic_illegal dialectOf ops :
  Forall (λ o, isArithmetic o = true) ops →
  census (isIllegal dialectOf) ops = 0%nat.
Proof.
  induction 1 as [|o ops Ho _ IH]; [done|].
  rewrite census_cons, IH. by destruct o.
Qed.

Lemma rewrite_steps_census
    (q : OperationName → bool)
    (op : AffineReduce.t) (outer : list Frame) (pre post : list Operation)
    (next : positive) (sh : list Z) (elementType : MType) :
  AggregationKind.supported (AffineReduce.agg op) = true →
  vtype (AffineReduce.out op) = MemRefType sh elementType →
  getNumInputs (AffineReduce.map op) = length (AffineReduce.idxs op) →
  let count := λ n : OperationName, if q n then 1%nat else 0%nat in
  let st := matched outer pre (AffineReduce.toOperation op) post next in
  ∃ ops st',
    AffineReduceOpConversion.rewrite op st = Ok tt st' ∧
    Forall (λ o, isArithmetic o = true) ops ∧
    length ops = combineSize (AffineReduce.agg op) ∧
    (census q (getProgram st') + count AffineReduceOpName
     = census q (getProgram st) + count AffineLoadOpName
       + census q ops + count AffineStoreOpName)%nat.
Proof.
  intros Hsup Hty Hidx count st.
  destruct (createReduction_shape op (mkValue next elementType)
              (afterLoad outer pre op (mkValue next elementType) post next) Hsup)
    as (combined & stC & ops & Hred & Hem & Harith & Hlen).
  pose proof (rewrite_steps op outer pre post next sh elementType combined stC
                ops Hty Hidx Hred Hem) as Hrw.
  exists ops. eexists. split; [exact Hrw|]. split; [exact Harith|].
  split; [exact Hlen|].
  unfold st, matched, getProgram. simpl frames. simpl before. simpl after.
  pose proof (census_close q outer
    ((pre ++ AffineLoadOp (mkValue next elementType) (AffineReduce.out op)
               (AffineReduce.map op) (AffineReduce.idxs op)
             :: ops ++ [AffineStoreOp combined (AffineReduce.out op)
                          (AffineReduce.map op) (AffineReduce.idxs op)])
       ++ post)
    (pre ++ AffineReduce.toOperation op :: post)) as Hc.
  rewrite !census_app, !census_cons, census_app in Hc.
  unfold AffineReduce.toOperation in *. simpl countNamed in Hc.
  change (census q [AffineStoreOp combined (AffineReduce.out op)
                      (AffineReduce.map op) (AffineReduce.idxs op)])
    with (count AffineStoreOpName + 0 + 0)%nat in Hc.
  fold (count AffineLoadOpName) (count AffineReduceOpName) in Hc.
  lia.
Qed.

(** X1.  What lowering a loop does to the census of the program, for any
    way [q] of picking operations by name: one [affine.parallel] and its
    terminator leave, N [affine.for] and their N terminators come, and the
    number of operations of every other name stays as it was; in particular
    no [pxa.reduce] and no nested [affine.parallel] is lost or duplicated. *)
Theorem parallel_rewrite_census
    (q : OperationName → bool)
    (op : AffineParallel.t) (outer : list Frame) (pre post : list Operation)
    (next : positive) (moved : list Operation) (terminator : Operation) :
  verified op →
  AffineParallel.getOperations op = moved ++ [terminator] →
  isTerminator terminator = true →
  let N := getNumResults (AffineParallel.lowerBoundsMap op) in
  let count := λ n : OperationName, if q n then 1%nat else 0%nat in
  let st := matched outer pre (AffineParallel.toOperation op) post next in
  ∃ st',
    AffineParallelOpConversion.rewrite op st = Ok tt st' ∧
    (census q (getProgram st') + count AffineParallelOpName
       + count AffineTerminatorOpName
     = census q (getProgram st)
       + N * (count AffineForOpName + count AffineTerminatorOpName))%nat.
Proof. apply rewrite_program_census. Qed.

Lemma parallel_rewrite_census_witness :
  ∃ st',
    AffineParallelOpConversion.rewrite exParallel exParallelState = Ok tt st' ∧
    census (λ n, bool_decide (n = AffineReduceOpName)) (getProgram st') = 1%nat ∧
    census (λ n, bool_decide (n = AffineForOpName)) (getProgram st') = 2%nat ∧
    census (λ n, bool_decide (n = AffineParallelOpName)) (getProgram st') = 0%nat.
Proof.
  pose proof (λ q, parallel_rewrite_census q exParallel [] [] [] 5
              [AffineReduce.toOperation (exReduce f64 AggregationKind.add)]
              AffineTerminatorOp exParallel_verified eq_refl eq_refl) as T.
  destruct (T (λ n, bool_decide (n = AffineReduceOpName))) as (st' & Hrw & H1).
  destruct (T (λ n, bool_decide (n = AffineForOpName))) as (st2 & Hrw2 & H2).
  destruct (T (λ n, bool_decide (n = AffineParallelOpName)))
    as (st3 & Hrw3 & H3).
  rewrite Hrw in Hrw2, Hrw3. injection Hrw2 as <-. injection Hrw3 as <-.
  exists st'. split; [exact Hrw|].
  change (census (λ n, bool_decide (n = AffineReduceOpName)) (getProgram st')
          + 0 + 0 = 1 + 2 * (0 + 0))%nat in H1.
  change (census (λ n, bool_decide (n = AffineForOpName)) (getProgram st')
          + 0 + 0 = 0 + 2 * (1 + 0))%nat in H2.
  change (census (λ n, bool_decide (n = AffineParallelOpName)) (getProgram st')
          + 1 + 0 = 1 + 2 * (0 + 0))%nat in H3.
  split_and!; lia.
Defined.

(** X2.  What expanding a reduce does to the census of the program: the
    reduce leaves, one load, the operations of the combine (arithmetic only,
    as many as the kind takes) and one store come, and the number of
    operations of every other name stays as it was. *)
Theorem reduce_rewrite_census
    (q : OperationName → bool)
    (op : AffineReduce.t) (outer : list Frame) (pre post : list Operation)
    (next : positive) (sh : list Z) (elementType : MType) :
  AggregationKind.supported (AffineReduce.agg op) = true →
  vtype (AffineReduce.out op) = MemRefType sh elementType →
  getNumInputs (AffineReduce.map op) = length (AffineReduce.idxs op) →
  let count := λ n : OperationName, if q n then 1%nat else 0%nat in
  let st := matched outer pre (AffineReduce.toOperation op) post next in
  ∃ ops st',
    AffineReduceOpConversion.rewrite op st = Ok tt st' ∧
    Forall (λ o, isArithmetic o = true) ops ∧
    length ops = combineSize (AffineReduce.agg op) ∧
    (census q (getProgram st') + count AffineReduceOpName
     = census q (getProgram st) + count AffineLoadOpName
       + census q ops + count AffineStoreOpName)%nat.
Proof. apply rewrite_steps_census. Qed.

Lemma reduce_rewrite_census_witness :
  ∃ st',
    AffineReduceOpConversion.rewrite (exReduce f64 AggregationKind.max)
      (exReduceState f64 AggregationKind.max) = Ok tt st' ∧
    census (λ n, bool_decide (n = AffineReduceOpName)) (getProgram st') = 0%nat.
Proof.
  destruct (reduce_rewrite_census (λ n, bool_decide (n = AffineReduceOpName))
              (exReduce f64 AggregationKind.max) [] [] [] 5 [4; 8] f64
              eq_refl eq_refl eq_refl)
    as (ops & st' & Hrw & Harith & _ & Hc).
  exists st'. split; [exact Hrw|].
  assert (Hops : census (λ n, bool_decide (n = AffineReduceOpName)) ops = 0%nat).
  { clear -Harith. induction Harith as [|o ops Ho _ IH]; [done|].
    rewrite census_cons, IH. by destruct o. }
  rewrite Hops in Hc.
  change (census (λ n, bool_decide (n = AffineReduceOpName)) (getProgram st')
          + 1 = 1 + 0 + 0 + 0)%nat in Hc.
  lia.
Defined.

(** ** Progress of the conversion *)

(** X3.  Against the target that [runOnOperation] sets up, lowering a loop
    removes exactly one illegal operation from the program and brings in
    none: the loops and terminators it creates are legal. *)
Theorem parallel_rewrite_removes_one_illegal
    (dialectOf : string → Dialect)
    (op : AffineParallel.t) (outer : list Frame) (pre post : list Operation)
    (next : positive) (moved : list Operation) (terminator : Operation) :
  verified op →
  AffineParallel.getOperations op = moved ++ [terminator] →
  isTerminator terminator = true →
  let st := matched outer pre (AffineParallel.toOperation op) post next in
  isLegal dialectOf AffineForOpName = true ∧
  isLegal dialectOf AffineTerminatorOpName = true ∧
  ∃ st',
    AffineParallelOpConversion.rewrite op st = Ok tt st' ∧
    (census (isIllegal dialectOf) (getProgram st') + 1
     = census (isIllegal dialectOf) (getProgram st))%nat.
Proof.
  intros Hver Hbody Hterm st. split; [done|]. split; [done|].
  destruct (rewrite_program_census (isIllegal dialectOf) op outer pre post next
              moved terminator Hver Hbody Hterm) as (st' & Hrw & Hc).
  exists st'. split; [exact Hrw|].
  change (isIllegal dialectOf AffineParallelOpName) with true in Hc.
  change (isIllegal dialectOf AffineTerminatorOpName) with false in Hc.
  change (isIllegal dialectOf AffineForOpName) with false in Hc.
  cbv beta iota zeta in Hc. fold st in Hc. lia.
Qed.

Lemma parallel_rewrite_removes_one_illegal_witness :
  ∃ st',
    AffineParallelOpConversion.rewrite exParallel exParallelState = Ok tt st' ∧
    census (isIllegal (λ _, OtherDialect)) (getProgram exParallelState) = 2%nat ∧
    census (isIllegal (λ _, OtherDialect)) (getProgram st') = 1%nat.
Proof.
  destruct (parallel_rewrite_removes_one_illegal (λ _, OtherDialect)
              exParallel [] [] [] 5
              [AffineReduce.toOperation (exReduce f64 AggregationKind.add)]
              AffineTerminatorOp exParallel_verified eq_refl eq_refl)
    as (_ & _ & st' & Hrw & Hc).
  exists st'. split; [exact Hrw|].
  assert (H2 : census (isIllegal (λ _, OtherDialect))
                 (getProgram exParallelState) = 2%nat) by reflexivity.
  split; [exact H2|].
  change (matched [] [] (AffineParallel.toOperation exParallel) [] 5)
    with exParallelState in Hc.
  lia.
Defined.

(** X4.  Against the same target, expanding a reduce removes exactly one
    illegal operation and brings in none: the load, the store and every
    operation of the combine are legal. *)
Theorem reduce_rewrite_removes_one_illegal
    (dialectOf : string → Dialect)
    (op : AffineReduce.t) (outer : list Frame) (pre post : list Operation)
    (next : positive) (sh : list Z) (elementType : MType) :
  AggregationKind.supported (AffineReduce.agg op) = true →
  vtype (AffineReduce.out op) = MemRefType sh elementType →
  getNumInputs (AffineReduce.map op) = length (AffineReduce.idxs op) →
  let st := matched outer pre (AffineReduce.toOperation op) post next in
  (∀ o, isLoad o || isStore o || isArithmetic o = true →
        isLegal dialectOf (getName o) = true) ∧
  ∃ st',
    AffineReduceOpConversion.rewrite op st = Ok tt st' ∧
    (census (isIllegal dialectOf) (getProgram st') + 1
     = census (isIllegal dialectOf) (getProgram st))%nat.
Proof.
  intros Hsup Hty Hidx st. split; [by intros []|].
  destruct (rewrite_steps_census (isIllegal dialectOf) op outer pre post next
              sh elementType Hsup Hty Hidx)
    as (ops & st' & Hrw & Harith & _ & Hc).
  exists st'. split; [exact Hrw|].
  rewrite (census_arithmetic_illegal _ _ Harith) in Hc.
  change (isIllegal dialectOf AffineReduceOpName) with true in Hc.
  change (isIllegal dialectOf AffineLoadOpName) with false in Hc.
  change (isIllegal dialectOf AffineStoreOpName) with false in Hc.
  cbv beta iota zeta in Hc. fold st in Hc. lia.
Qed.

Lemma reduce_rewrite_removes_one_illegal_witness :
  ∃ st',
    AffineReduceOpConversion.rewrite (exReduce f64 AggregationKind.max)
      (exReduceState f64 AggregationKind.max) = Ok tt st' ∧
    census (isIllegal (λ _, OtherDialect)) (getProgram st') = 0%nat.
Proof.
  destruct (reduce_rewrite_removes_one_illegal (λ _, OtherDialect)
              (exReduce f64 AggregationKind.max) [] [] [] 5 [4; 8] f64
              eq_refl eq_refl eq_refl)
    as (_ & st' & Hrw & Hc).
  exists st'. split; [exact Hrw|].
  change (census (isIllegal (λ _, OtherDialect)) (getProgram st') + 1
          = 1)%nat in Hc.
  lia.
Defined.

(** ** The loop pattern on loops the verifier would refuse *)

Section Dimensions'.
Import AffineParallel.

Lemma freshValues_take t : ∀ count next k,
  (k <= count)%nat → take k (freshValues t next count) = freshValues t next k.
Proof.
  induction count as [|count IH]; intros next [|k] Hk; try done; [lia|].
  simpl. f_equal. apply IH. lia.
Qed.

Lemma dimensions_length_min op ivs :
  length (dimensions op ivs)
  = ((getNumResults (lowerBoundsMap op) `min` getNumResults (upperBoundsMap op))
      `min` (length (steps op) `min` length ivs))%nat.
Proof.
  unfold dimensions, getNumResults.
  by rewrite length_zip_with, !length_zip.
Qed.

Lemma dimensions_inductionVar_take op ivs :
  inductionVar <$> dimensions op ivs = take (length (dimensions op ivs)) ivs.
Proof.
  apply list_eq. intros k. rewrite list_lookup_fmap.
  destruct (dimensions op ivs !! k) as [d|] eqn:Hd; simpl.
  - pose proof (lookup_lt_Some _ _ _ Hd) as Hlt.
    apply dimensions_lookup in Hd as (lb & ub & s & iv & _ & _ & _ & Hiv & ->).
    simpl. by rewrite lookup_take_lt.
  - apply lookup_ge_None in Hd. symmetry. apply lookup_ge_None.
    rewrite length_take. lia.
Qed.

(** The dimensions the pattern gets to, whatever the counts: those below the
    shortest of the three lists. *)
Lemma dimensions_dimsFrom_prefix op next :
  let dims := dimensions op (newInductionVars op next) in
  Forall (λ s, 0 < s) (take (length dims) (steps op)) →
  dimsFrom op 0 next dims.
Proof.
  intros dims Hpos. split.
  - unfold dims. rewrite dimensions_inductionVar_take.
    apply freshValues_take.
    rewrite dimensions_length_min. unfold newInductionVars.
    rewrite freshValues_length. lia.
  - intros k d Hd. simpl.
    pose proof (lookup_lt_Some _ _ _ Hd) as Hlt.
    apply dimensions_lookup in Hd as (lb & ub & s & iv & Hlb & Hub & Hs & _ & ->).
    simpl. rewrite (getSubMap_single _ _ _ Hlb), (getSubMap_single _ _ _ Hub).
    split_and!; try done.
    rewrite Forall_lookup in Hpos. apply (Hpos k).
    by rewrite lookup_take_lt.
Qed.

Lemma dimensions_length_creatable op next :
  creatable op →
  length (dimensions op (newInductionVars op next))
  = getNumResults (lowerBoundsMap op).
Proof.
  intros (Hub & Hsteps & _). rewrite dimensions_length_min.
  unfold newInductionVars. rewrite freshValues_length. lia.
Qed.

End Dimensions'.

Section CreateLoops'.
Import AffineParallel AffineParallelOpConversion.
Variable op : AffineParallel.t.

(** The creation loop, cut in two. *)
Lemma createLoops_add a : ∀ b i ivs st,
  createLoops op i (a + b) ivs st
  = bind (createLoops op i a ivs) (createLoops op (i + a) b) st.
Proof.
  induction a as [|a IH]; intros b i ivs st.
  - simpl. unfold bind, ret. by rewrite Nat.add_0_r.
  - simpl. unfold bind.
    destruct (at_ (steps op) i st) as [step st1|]; [|done].
    destruct (getSubMapM (lowerBoundsMap op) [i] st1) as [lb st2|]; [|done].
    destruct (getSubMapM (upperBoundsMap op) [i] st2) as [ub st3|]; [|done].
    destruct (createAffineForOp _ _ _ _ _ st3) as [iv st4|]; [|done].
    destruct (setInsertionPointToStart st4) as [[] st5|]; [|done].
    rewrite IH. unfold bind. by rewrite Nat.add_succ_r.
Qed.

(** An iteration whose step or bound is not there stops the pattern before
    anything is created. *)
Lemma createLoops_missing i count ivs st :
  steps op !! i = None ∨ getResults (lowerBoundsMap op) !! i = None
    ∨ getResults (upperBoundsMap op) !! i = None →
  createLoops op i (S count) ivs st
  = Fatal (AssertionFailed "Invalid index!") st.
Proof.
  intros Hmiss. simpl. unfold bind, at_, getSubMapM, getSubMap. simpl.
  destruct (steps op !! i); simpl; [|done].
  destruct (getResults (lowerBoundsMap op) !! i); simpl; [|done].
  destruct (getResults (upperBoundsMap op) !! i); simpl; [|done].
  destruct Hmiss as [?|[?|?]]; discriminate.
Qed.

Lemma createLoops_prefix outer pre post next :
  let st := matched outer pre (toOperation op) post next in
  let dims := dimensions op (newInductionVars op next) in
  length (getLowerBoundsOperands op) = getNumInputs (lowerBoundsMap op) →
  length (getUpperBoundsOperands op) = getNumInputs (upperBoundsMap op) →
  Forall (λ s, 0 < s) (take (length dims) (steps op)) →
  createLoops op 0 (length dims) [] st
  = Ok (inductionVar <$> dims)
       (descend (getLowerBoundsOperands op) (getUpperBoundsOperands op) dims st).
Proof.
  intros st dims Hlb Hub Hpos.
  apply (createLoops_descend op dims 0 [] st Hlb Hub).
  by apply dimensions_dimsFrom_prefix.
Qed.

Lemma createLoops_creatable outer pre post next :
  creatable op →
  createLoops op 0 (getNumResults (lowerBoundsMap op)) []
    (matched outer pre (toOperation op) post next)
  = Ok (newInductionVars op next)
       (descend (getLowerBoundsOperands op) (getUpperBoundsOperands op)
          (dimensions op (newInductionVars op next))
          (matched outer pre (toOperation op) post next)).
Proof.
  intros Hc. pose proof (dimensions_length_creatable op next Hc) as Hdl.
  destruct Hc as (_ & _ & Hlb & Hub & Hpos).
  rewrite <- Hdl in Hpos.
  pose proof (createLoops_prefix outer pre post next Hlb Hub Hpos) as Hrun.
  cbv zeta in Hrun. rewrite Hdl in Hrun. rewrite Hrun.
  rewrite dimensions_inductionVar_take, Hdl.
  rewrite take_ge; [done|].
  unfold newInductionVars. by rewrite freshValues_length.
Qed.

End CreateLoops'.

Section ReplaceArguments'.
Import AffineParallelOpConversion.

(** With more block arguments than induction variables the loop over the
    arguments renames the arguments that have one and stops at the first
    that has none. *)
Lemma replaceArguments_stops args : ∀ ivs idx st,
  (idx <= length ivs < idx + length args)%nat →
  replaceArguments args ivs idx st
  = Fatal (AssertionFailed "Invalid index!")
      (mapRewriter (renaming args (drop idx ivs)) st).
Proof.
  induction args as [|a args IH]; intros ivs idx st Hlen; simpl in Hlen; [lia|].
  simpl replaceArguments. unfold bind, at_.
  destruct (ivs !! idx) as [iv|] eqn:Hiv; simpl.
  - pose proof (lookup_lt_Some _ _ _ Hiv) as Hlt.
    rewrite IH by lia. f_equal. rewrite mapRewriter_compose.
    apply mapRewriter_ext. intros v.
    by rewrite (drop_S _ _ _ Hiv).
  - apply lookup_ge_None in Hiv. rewrite drop_ge by lia.
    unfold abort. f_equal.
    change (renaming (a :: args) []) with (λ v : Value, v).
    by rewrite mapRewriter_id.
Qed.

End ReplaceArguments'.

Section Lowering'.
Import AffineParallel AffineParallelOpConversion.

Variables (op : AffineParallel.t) (outer : list Frame).
Variables (pre post : list Operation) (next : positive).
Variables (moved : list Operation) (terminator : Operation).
Hypothesis op_creatable : creatable op.
Hypothesis op_body : getOperations op = moved ++ [terminator].

Lemma spliceBody_spliced :
  spliceBody op
    (descend (getLowerBoundsOperands op) (getUpperBoundsOperands op)
       (dimensions op (newInductionVars op next))
       (matched outer pre (toOperation op) post next))
  = Ok tt (spliced op outer pre post next moved terminator).
Proof.
  pose proof (dimensions_length_creatable op next op_creatable) as Hdl.
  unfold spliceBody, spliced. rewrite op_body, unsnoc_snoc.
  rewrite updateMatched_descend.
  change (updateMatched (setBody [terminator])
            (matched outer pre (toOperation op) post next))
    with (matched outer pre (setBody [terminator] (toOperation op)) post next).
  rewrite <- Hdl.
  destruct (dimensions op (newInductionVars op next)) as [|d dims] eqn:Hdims.
  - done.
  - change (0 <? length (d :: dims))%nat with true. cbv iota.
    set (stM := matched outer pre (setBody [terminator] (toOperation op)) post next).
    destruct (before_after_descend (getLowerBoundsOperands op)
                (getUpperBoundsOperands op) d dims stM) as [Hbefore Hafter].
    rewrite Hafter. simpl unsnoc. cbv iota. by rewrite app_nil_l.
Qed.

(** After the splice the nest around the moved operations stands in front of
    the loop, which keeps the last operation of its body. *)
Lemma getProgram_spliced :
  getProgram (spliced op outer pre post next moved terminator)
  = close outer (pre ++ nestOf op next moved
                  ++ setBody [terminator] (toOperation op) :: post).
Proof.
  unfold spliced, nestOf.
  destruct (dimensions op (newInductionVars op next)) as [|d dims] eqn:Hdims.
  - unfold getProgram. simpl. by rewrite <- app_assoc.
  - set (stM := matched outer pre (setBody [terminator] (toOperation op)) post next).
    destruct (before_after_descend (getLowerBoundsOperands op)
                (getUpperBoundsOperands op) d dims stM) as [Hbefore Hafter].
    rewrite getProgram_setAfter, insertAt_inside by done.
    by rewrite insertAt_descend.
Qed.

Lemma getProgram_mapRewriter f st :
  getProgram (mapRewriter f st) = mapOperands f <$> getProgram st.
Proof.
  unfold getProgram. destruct st as [fs b a depth n]. simpl.
  by rewrite close_mapOperands, fmap_app.
Qed.

(** Erasing the loop after any renaming of the spliced program. *)
Lemma eraseOp_spliced f :
  ∃ st',
    eraseOp (mapRewriter f (spliced op outer pre post next moved terminator))
    = Ok tt st' ∧
    getProgram st'
    = mapOperands f <$> close outer (pre ++ nestOf op next moved ++ post).
Proof.
  unfold spliced, nestOf.
  destruct (dimensions op (newInductionVars op next)) as [|d dims] eqn:Hdims.
  - eexists. split; [reflexivity|].
    unfold getProgram. simpl.
    by rewrite close_mapOperands, !fmap_app, <- app_assoc.
  - set (lbo := getLowerBoundsOperands op). set (ubo := getUpperBoundsOperands op).
    set (stM := matched outer pre (setBody [terminator] (toOperation op)) post next).
    assert (Hst3 : mapRewriter f (setAfter (moved ++ [AffineTerminatorOp])
                                   (descend lbo ubo (d :: dims) stM))
            = setAfter (mapOperands f <$> (moved ++ [AffineTerminatorOp]))
                (descend (f <$> lbo) (f <$> ubo) (d :: dims) (mapRewriter f stM))).
    { rewrite <- mapRewriter_descend. done. }
    rewrite Hst3.
    rewrite (eraseOp_inside _ _ _ _ _ _
               (mapOperands f (setBody [terminator] (toOperation op)))
               (mapOperands f <$> post)) by done.
    eexists. split; [reflexivity|].
    set (stE := setFromMatched _ _).
    destruct (before_after_descend (f <$> lbo) (f <$> ubo) d dims stE)
      as [Hbefore' Hafter'].
    rewrite getProgram_setAfter, fmap_app.
    change (mapOperands f <$> [AffineTerminatorOp]) with [AffineTerminatorOp].
    rewrite insertAt_inside, insertAt_descend by done.
    rewrite close_mapOperands, !fmap_app, loopNest_mapOperands.
    reflexivity.
Qed.

End Lowering'.

(** X5.  The pattern takes the number of loops from the lower bounds alone
    and compares no counts: on a loop with at least as many upper bounds and
    steps as lower bounds (positive steps among those it reads) and at most
    as many block arguments as lower bounds, it succeeds.  Upper bounds and
    steps past the number of lower bounds are ignored, the nest has one loop
    per lower bound, and an induction variable without a block argument is
    simply never used. *)
Theorem parallel_rewrite_counts_lower_bounds
    (op : AffineParallel.t) (outer : list Frame) (pre post : list Operation)
    (next : positive) (moved : list Operation) (terminator : Operation) :
  creatable op →
  (length (AffineParallel.getArguments op)
   <= getNumResults (AffineParallel.lowerBoundsMap op))%nat →
  AffineParallel.getOperations op = moved ++ [terminator] →
  ∃ st',
    AffineParallelOpConversion.rewrite op
      (matched outer pre (AffineParallel.toOperation op) post next)
    = Ok tt st' ∧
    getProgram st'
    = mapOperands (renaming (AffineParallel.getArguments op)
                     (newInductionVars op next))
        <$> close outer (pre ++ nestOf op next moved ++ post) ∧
    countForBlock (nestOf op next moved)
    = (getNumResults (AffineParallel.lowerBoundsMap op)
       + countForBlock moved)%nat.
Proof.
  intros Hc Hargs Hbody.
  destruct (eraseOp_spliced op outer pre post next moved terminator
              (renaming (AffineParallel.getArguments op)
                 (newInductionVars op next)))
    as (st' & Herase & Hprog).
  exists st'. split_and!.
  - unfold AffineParallelOpConversion.rewrite, bind.
    rewrite createLoops_creatable by done.
    rewrite (spliceBody_spliced _ _ _ _ _ _ _ Hc Hbody).
    rewrite replaceArguments_renaming.
    + exact Herase.
    + unfold newInductionVars. rewrite freshValues_length. simpl. lia.
  - exact Hprog.
  - unfold nestOf. rewrite countForBlock_loopNest.
    by rewrite dimensions_length_creatable.
Qed.

Lemma parallel_rewrite_counts_lower_bounds_witness :
  creatable exSurplus ∧
  ∃ st',
    AffineParallelOpConversion.rewrite exSurplus
      (matched [] [] (AffineParallel.toOperation exSurplus) [] 5)
    = Ok tt st' ∧
    getProgram st'
    = [AffineForOp [] (constantMap [0]) [] (constantMap [4]) 1
         (mkValue 5 IndexType)
         [AffineReduce.toOperation (exReduce f64 AggregationKind.add);
          AffineTerminatorOp]].
Proof.
  assert (Hc : creatable exSurplus).
  { unfold creatable. cbn. split_and!; try done; try lia.
    repeat (constructor; try lia). }
  split; [exact Hc|].
  destruct (parallel_rewrite_counts_lower_bounds exSurplus [] [] [] 5
              [AffineReduce.toOperation (exReduce f64 AggregationKind.add)]
              AffineTerminatorOp)
    as (st' & Hrw & Hprog & _).
  - exact Hc.
  - cbn. lia.
  - reflexivity.
  - exists st'. split; [exact Hrw|]. rewrite Hprog. reflexivity.
Defined.

(** X6.  With more block arguments than lower bounds the pattern does not
    finish: the loop over the block arguments indexes past the induction
    variables and the run stops on the assertion of the indexing.  By then
    the nest is built, the body has moved into it and the arguments that do
    have an induction variable are renamed; the loop, left with the last
    operation of its body, is still in the program behind the nest. *)
Theorem parallel_rewrite_too_many_arguments
    (op : AffineParallel.t) (outer : list Frame) (pre post : list Operation)
    (next : positive) (moved : list Operation) (terminator : Operation) :
  creatable op →
  (getNumResults (AffineParallel.lowerBoundsMap op)
   < length (AffineParallel.getArguments op))%nat →
  AffineParallel.getOperations op = moved ++ [terminator] →
  ∃ st',
    AffineParallelOpConversion.rewrite op
      (matched outer pre (AffineParallel.toOperation op) post next)
    = Fatal (AssertionFailed "Invalid index!") st' ∧
    getProgram st'
    = mapOperands (renaming (AffineParallel.getArguments op)
                     (newInductionVars op next))
        <$> close outer
              (pre ++ nestOf op next moved
                 ++ setBody [terminator] (AffineParallel.toOperation op)
                 :: post).
Proof.
  intros Hc Hargs Hbody.
  eexists. split.
  - unfold AffineParallelOpConversion.rewrite, bind.
    rewrite createLoops_creatable by done.
    rewrite (spliceBody_spliced _ _ _ _ _ _ _ Hc Hbody).
    rewrite replaceArguments_stops; [reflexivity|].
    unfold newInductionVars. rewrite freshValues_length. simpl. lia.
  - rewrite getProgram_mapRewriter, drop_0.
    by rewrite getProgram_spliced.
Qed.

Lemma parallel_rewrite_too_many_arguments_witness :
  creatable exCrowded ∧
  ∃ st',
    AffineParallelOpConversion.rewrite exCrowded
      (matched [] [] (AffineParallel.toOperation exCrowded) [] 5)
    = Fatal (AssertionFailed "Invalid index!") st' ∧
    getProgram st'
    = [AffineForOp [] (constantMap [0]) [] (constantMap [4]) 1
         (mkValue 5 IndexType)
         [AffineReduceOp AggregationKind.add (exVal f64) (exBuffer f64)
            identityMap2 [mkValue 5 IndexType; exJ];
          AffineTerminatorOp];
       AffineParallelOp [] (constantMap [0]) [] (constantMap [4]) [1]
         [exI; exJ] [AffineTerminatorOp]].
Proof.
  assert (Hc : creatable exCrowded).
  { unfold creatable. cbn. split_and!; try done; try lia.
    repeat (constructor; try lia). }
  split; [exact Hc|].
  destruct (parallel_rewrite_too_many_arguments exCrowded [] [] [] 5
              [AffineReduce.toOperation (exReduce f64 AggregationKind.add)]
              AffineTerminatorOp)
    as (st' & Hrw & Hprog).
  - exact Hc.
  - cbn. lia.
  - reflexivity.
  - exists st'. split; [exact Hrw|]. rewrite Hprog. reflexivity.
Defined.

(** X7.  With fewer steps or upper bounds than lower bounds the pattern
    stops at the first dimension that lacks one, on the assertion of the
    indexing.  The loops of the dimensions before it are already created,
    nested and empty, in front of the loop, which is untouched: nothing is
    rolled back. *)
Theorem parallel_rewrite_missing_dimension
    (op : AffineParallel.t) (outer : list Frame) (pre post : list Operation)
    (next : positive) :
  let lbo := AffineParallel.getLowerBoundsOperands op in
  let ubo := AffineParallel.getUpperBoundsOperands op in
  let dims := dimensions op (newInductionVars op next) in
  let st := matched outer pre (AffineParallel.toOperation op) post next in
  length lbo = getNumInputs (AffineParallel.lowerBoundsMap op) →
  length ubo = getNumInputs (AffineParallel.upperBoundsMap op) →
  Forall (λ s, 0 < s) (take (length dims) (AffineParallel.steps op)) →
  (length (AffineParallel.steps op)
     `min` getNumResults (AffineParallel.upperBoundsMap op)
   < getNumResults (AffineParallel.lowerBoundsMap op))%nat →
  AffineParallelOpConversion.rewrite op st
  = Fatal (AssertionFailed "Invalid index!") (descend lbo ubo dims st) ∧
  getProgram (descend lbo ubo dims st)
  = close outer (pre ++ loopNest lbo ubo dims []
                   ++ AffineParallel.toOperation op :: post) ∧
  length dims
  = (length (AffineParallel.steps op)
       `min` getNumResults (AffineParallel.upperBoundsMap op))%nat.
Proof.
  intros lbo ubo dims st Hlb Hub Hpos Hshort.
  assert (Hlen : length dims
                 = (length (AffineParallel.steps op)
                      `min` getNumResults (AffineParallel.upperBoundsMap op))%nat).
  { unfold dims. rewrite dimensions_length_min. unfold newInductionVars.
    rewrite freshValues_length. lia. }
  split_and!; [| |exact Hlen].
  - unfold AffineParallelOpConversion.rewrite.
    replace (getNumResults (AffineParallel.lowerBoundsMap op))
      with (length dims
            + S (getNumResults (AffineParallel.lowerBoundsMap op)
                 - S (length dims)))%nat by lia.
    unfold bind at 1. rewrite createLoops_add. unfold bind at 1.
    unfold dims, st. rewrite createLoops_prefix by done.
    rewrite createLoops_missing; [done|].
    fold dims. simpl. unfold getNumResults in *.
    destruct (decide (length (AffineParallel.steps op)
                      <= length (getResults (AffineParallel.upperBoundsMap op)))%nat).
    + left. apply lookup_ge_None. lia.
    + right. right. apply lookup_ge_None. lia.
  - change (getProgram (descend lbo ubo dims st))
      with (insertAt [] (descend lbo ubo dims st)).
    by rewrite insertAt_descend.
Qed.

Lemma parallel_rewrite_missing_dimension_witness :
  AffineParallelOpConversion.rewrite exShort
    (matched [] [] (AffineParallel.toOperation exShort) [] 5)
  = Fatal (AssertionFailed "Invalid index!")
      (descend [] [] (dimensions exShort (newInductionVars exShort 5))
         (matched [] [] (AffineParallel.toOperation exShort) [] 5)) ∧
  getProgram
    (descend [] [] (dimensions exShort (newInductionVars exShort 5))
       (matched [] [] (AffineParallel.toOperation exShort) [] 5))
  = [AffineForOp [] (constantMap [0]) [] (constantMap [4]) 1
       (mkValue 5 IndexType) [AffineTerminatorOp];
     AffineParallel.toOperation exShort].
Proof.
  destruct (parallel_rewrite_missing_dimension exShort [] [] [] 5)
    as (Hrw & Hprog & _).
  - reflexivity.
  - reflexivity.
  - repeat (constructor; try lia).
  - cbn. lia.
  - split; [exact Hrw|]. etrans; [exact Hprog|]. reflexivity.
Defined.

(** ** Definitions of values *)

Lemma definitions_mapOperands f o :
  definitions (mapOperands f o) = definitions o.
Proof.
  induction o as [o Ho|o body Ho IH] using Operation_ind.
  - by destruct o.
  - assert (Hb : (mapOperands f <$> body) ≫= definitions
                 = body ≫= definitions).
    { clear Ho. induction IH as [|o' body' Ho' _ IH']; [done|].
      by rewrite fmap_cons, !bind_cons, Ho', IH'. }
    destruct o; try discriminate; injection Ho as ->; simpl; by rewrite Hb.
Qed.

Lemma definedIds_mapOperands f blk :
  definedIds (mapOperands f <$> blk) = definedIds blk.
Proof.
  unfold definedIds. f_equal. induction blk as [|o blk IH]; [done|].
  by rewrite fmap_cons, !bind_cons, definitions_mapOperands, IH.
Qed.

Lemma definedIds_app blk1 blk2 :
  definedIds (blk1 ++ blk2) = definedIds blk1 ++ definedIds blk2.
Proof. unfold definedIds. by rewrite bind_app, fmap_app. Qed.

Lemma definedIds_cons o blk :
  definedIds (o :: blk) = (vid <$> definitions o) ++ definedIds blk.
Proof. unfold definedIds. by rewrite bind_cons, fmap_app. Qed.

Lemma definitions_plug s blk :
  definitions (plug s blk) = shellDefinitions s ++ (blk ≫= definitions).
Proof. destruct s; simpl; by rewrite <- ?app_assoc. Qed.

(** What is defined around a place in the program does not depend on what
    stands at the place. *)
Lemma definedIds_close fs :
  ∃ around, ∀ blk, definedIds (close fs blk) ≡ₚ around ++ definedIds blk.
Proof.
  induction fs as [|fr fs [around IH]].
  - by exists [].
  - exists (around ++ definedIds (above fr)
              ++ (vid <$> shellDefinitions (shell fr))
              ++ definedIds (below fr)).
    intros blk. simpl. rewrite IH.
    rewrite definedIds_app, definedIds_cons, definitions_plug, fmap_app.
    fold (definedIds blk). solve_Permutation.
Qed.

Lemma freshIds_freshValues t count : ∀ next,
  vid <$> freshValues t next count = freshIds next count.
Proof. induction count as [|count IH]; intros next; simpl; by rewrite ?IH. Qed.

Lemma definitions_loopNest lbo ubo dims inner :
  loopNest lbo ubo dims inner ≫= definitions
  = (inductionVar <$> dims) ++ (inner ≫= definitions).
Proof.
  induction dims as [|d dims IH]; [done|].
  simpl loopNest.
  change ([?o] ≫= definitions) with (definitions o ++ []).
  rewrite app_nil_r. simpl definitions.
  rewrite bind_app, IH.
  change ([AffineTerminatorOp] ≫= definitions) with (@nil Value).
  by rewrite !app_nil_r.
Qed.

Lemma definedIds_loopNest lbo ubo dims inner :
  definedIds (loopNest lbo ubo dims inner)
  = (vid <$> (inductionVar <$> dims)) ++ definedIds inner.
Proof. unfold definedIds. by rewrite definitions_loopNest, fmap_app. Qed.

Lemma freshIds_bounds count : ∀ next i,
  i ∈ freshIds next count →
  Z.pos next <= Z.pos i < Z.pos next + Z.of_nat count.
Proof.
  induction count as [|count IH]; intros next i; simpl.
  - by intros ?%elem_of_nil.
  - intros [->|Hi%IH]%elem_of_cons; lia.
Qed.

Lemma freshIds_NoDup count : ∀ next, NoDup (freshIds next count).
Proof.
  induction count as [|count IH]; intros next; simpl; constructor; [|done].
  intros Hin%freshIds_bounds. lia.
Qed.

(** Handing out the next identities keeps every identity defined once. *)
Lemma singleDefinition_extend next next' count blk blk' gone :
  definedIds blk' ++ gone ≡ₚ definedIds blk ++ freshIds next count →
  Z.pos next' = Z.pos next + Z.of_nat count →
  singleDefinition next blk → singleDefinition next' blk'.
Proof.
  intros Hperm Hnext [Hnodup Hbelow].
  assert (Hall : NoDup (definedIds blk ++ freshIds next count)).
  { apply NoDup_app. split_and!; [done| |apply freshIds_NoDup].
    intros i Hi%Hbelow Hfresh%freshIds_bounds. lia. }
  rewrite <- Hperm in Hall. apply NoDup_app in Hall as (Hnodup' & _ & _).
  split; [done|]. intros i Hi.
  assert (Hin : i ∈ definedIds blk ++ freshIds next count).
  { rewrite <- Hperm. apply elem_of_app. by left. }
  apply elem_of_app in Hin as [Hin%Hbelow|Hin%freshIds_bounds]; lia.
Qed.

Lemma nextId_descend lbo ubo dims : ∀ st,
  Z.pos (nextId (descend lbo ubo dims st))
  = Z.pos (nextId st) + Z.of_nat (length dims).
Proof.
  induction dims as [|d dims IH]; intros st; simpl length; simpl descend.
  - lia.
  - rewrite IH. simpl. lia.
Qed.

Lemma nextId_eraseOp st st' : eraseOp st = Ok tt st' → nextId st' = nextId st.
Proof.
  unfold eraseOp. destruct (fromMatched st) as [[|o rest]|]; try done.
  intros [= <-]. unfold setFromMatched. by destruct (opDepth st).
Qed.

Lemma nextId_spliced op outer pre post next moved terminator :
  Z.pos (nextId (spliced op outer pre post next moved terminator))
  = Z.pos next
    + Z.of_nat (length (dimensions op (newInductionVars op next))).
Proof.
  unfold spliced.
  destruct (dimensions op (newInductionVars op next)) as [|d dims] eqn:Hdims.
  - simpl. lia.
  - change (nextId (setAfter ?l ?st)) with (nextId st).
    by rewrite nextId_descend.
Qed.

Lemma verified_creatable op : verified op → creatable op.
Proof.
  intros (_ & Hub & Hsteps & Hlb & Hubo & Hpos).
  unfold creatable. split_and!; try done; try lia.
  by apply Forall_take.
Qed.

Lemma createReduction_definitions op source st :
  AggregationKind.supported (AffineReduce.agg op) = true →
  ∃ r st' ops,
    AffineReduceOpConversion.createReduction op source st = Ok r st' ∧
    emitted st st' ops ∧
    definedIds ops = freshIds (nextId st) (combineSize (AffineReduce.agg op)) ∧
    Z.pos (nextId st')
    = Z.pos (nextId st) + Z.of_nat (combineSize (AffineReduce.agg op)).
Proof.
  intros Hsup. unfold AffineReduceOpConversion.createReduction.
  destruct (AffineReduce.agg op); try discriminate;
    destruct (isaFloatType (vtype source));
    eexists _, _, _; (split; [reflexivity|]);
    (split; [first [apply emitted_nil | emitted_tac]|]);
    (split; [reflexivity|]); simpl; lia.
Qed.

(** X8.  Lowering a verified loop keeps every value defined once.  The
    pattern hands out exactly one new identity per dimension, for the
    induction variables; the definitions that leave the program are the
    block arguments of the loop and whatever the last operation of its body
    defined; every other definition stays.  So a program in which no
    identity is defined twice, numbered below the rewriter's counter, is
    again such a program afterwards. *)
Theorem parallel_rewrite_single_definition
    (op : AffineParallel.t) (outer : list Frame) (pre post : list Operation)
    (next : positive) (moved : list Operation) (terminator : Operation) :
  verified op →
  AffineParallel.getOperations op = moved ++ [terminator] →
  let N := getNumResults (AffineParallel.lowerBoundsMap op) in
  let st := matched outer pre (AffineParallel.toOperation op) post next in
  ∃ st',
    AffineParallelOpConversion.rewrite op st = Ok tt st' ∧
    Z.pos (nextId st') = Z.pos next + Z.of_nat N ∧
    definedIds (getProgram st')
      ++ (vid <$> AffineParallel.getArguments op ++ definitions terminator)
    ≡ₚ definedIds (getProgram st) ++ freshIds next N ∧
    (singleDefinition next (getProgram st) →
     singleDefinition (nextId st') (getProgram st')).
Proof.
  intros Hv Hbody N st.
  pose proof (verified_creatable op Hv) as Hc.
  pose proof (dimensions_length_creatable op next Hc) as Hdl.
  set (σ := renaming (AffineParallel.getArguments op) (newInductionVars op next)).
  destruct (eraseOp_spliced op outer pre post next moved terminator σ)
    as (st' & Herase & Hprog).
  assert (Hnext : Z.pos (nextId st') = Z.pos next + Z.of_nat N).
  { rewrite (nextId_eraseOp _ _ Herase).
    change (nextId (mapRewriter σ ?s)) with (nextId s).
    by rewrite nextId_spliced, Hdl. }
  assert (Hperm : definedIds (getProgram st')
      ++ (vid <$> AffineParallel.getArguments op ++ definitions terminator)
    ≡ₚ definedIds (getProgram st) ++ freshIds next N).
  { rewrite Hprog, definedIds_mapOperands.
    destruct (definedIds_close outer) as [around Haround].
    unfold st, matched, getProgram. simpl frames. simpl before. simpl after.
    rewrite !Haround, !definedIds_app, !definedIds_cons.
    unfold nestOf. rewrite definedIds_loopNest.
    destruct Hv as [Hargs Hb].
    rewrite dimensions_inductionVar
      by (try done; apply freshValues_length).
    unfold newInductionVars. rewrite freshIds_freshValues. fold N.
    unfold AffineParallel.toOperation. simpl definitions.
    rewrite Hbody, bind_app, !fmap_app.
    change ([terminator] ≫= definitions) with (definitions terminator ++ []).
    rewrite app_nil_r. fold (definedIds moved).
    solve_Permutation. }
  exists st'. split_and!; [|exact Hnext|exact Hperm|].
  - unfold AffineParallelOpConversion.rewrite, bind.
    unfold st. rewrite createLoops_creatable by done.
    rewrite (spliceBody_spliced _ _ _ _ _ _ _ Hc Hbody).
    rewrite replaceArguments_renaming; [exact Herase|].
    destruct Hv as [Hargs _].
    unfold newInductionVars. rewrite freshValues_length. simpl. lia.
  - by apply (singleDefinition_extend next (nextId st') N _ _ _ Hperm).
Qed.

Lemma parallel_rewrite_single_definition_witness :
  verified exParallel ∧
  singleDefinition 5 (getProgram exParallelState) ∧
  ∃ st',
    AffineParallelOpConversion.rewrite exParallel exParallelState = Ok tt st' ∧
    nextId st' = 7%positive ∧
    singleDefinition 7 (getProgram st').
Proof.
  split; [exact exParallel_verified|].
  assert (Hs : singleDefinition 5 (getProgram exParallelState)).
  { split.
    - by apply (bool_decide_unpack _).
    - apply Forall_forall. by apply (bool_decide_unpack _). }
  split; [exact Hs|].
  destruct (parallel_rewrite_single_definition exParallel [] [] [] 5
              [AffineReduce.toOperation (exReduce f64 AggregationKind.add)]
              AffineTerminatorOp exParallel_verified eq_refl)
    as (st' & Hrw & Hnext & _ & Hkeep).
  exists st'. split; [exact Hrw|].
  assert (Hn : nextId st' = 7%positive) by (cbn in Hnext; lia).
  split; [exact Hn|]. rewrite <- Hn. exact (Hkeep Hs).
Defined.

(** X9.  Expanding a reduce keeps every value defined once.  The pattern
    hands out one new identity for the loaded value and one for each
    arithmetic operation of the combine, in the order of creation, and takes
    no definition out of the program: a reduce defines nothing. *)
Theorem reduce_rewrite_single_definition
    (op : AffineReduce.t) (outer : list Frame) (pre post : list Operation)
    (next : positive) (sh : list Z) (elementType : MType) :
  AggregationKind.supported (AffineReduce.agg op) = true →
  vtype (AffineReduce.out op) = MemRefType sh elementType →
  getNumInputs (AffineReduce.map op) = length (AffineReduce.idxs op) →
  let created := S (combineSize (AffineReduce.agg op)) in
  let st := matched outer pre (AffineReduce.toOperation op) post next in
  ∃ st',
    AffineReduceOpConversion.rewrite op st = Ok tt st' ∧
    Z.pos (nextId st') = Z.pos next + Z.of_nat created ∧
    definedIds (getProgram st')
    ≡ₚ definedIds (getProgram st) ++ freshIds next created ∧
    (singleDefinition next (getProgram st) →
     singleDefinition (nextId st') (getProgram st')).
Proof.
  intros Hsup Hty Hidx created st.
  destruct (createReduction_definitions op (mkValue next elementType)
              (afterLoad outer pre op (mkValue next elementType) post next) Hsup)
    as (combined & stC & ops & Hred & Hem & Hdefs & HnextC).
  pose proof (rewrite_steps op outer pre post next sh elementType combined stC
                ops Hty Hidx Hred Hem) as Hrw.
  eexists. split; [exact Hrw|].
  assert (Hnext : Z.pos (nextId stC) = Z.pos next + Z.of_nat created).
  { rewrite HnextC. unfold created. simpl nextId. lia. }
  assert (Hperm : definedIds
      (getProgram
         (mkRewriter outer
            (pre ++ AffineLoadOp (mkValue next elementType) (AffineReduce.out op)
                      (AffineReduce.map op) (AffineReduce.idxs op)
                 :: ops ++ [AffineStoreOp combined (AffineReduce.out op)
                              (AffineReduce.map op) (AffineReduce.idxs op)])
            post 0 (nextId stC)))
    ≡ₚ definedIds (getProgram st) ++ freshIds next created).
  { destruct (definedIds_close outer) as [around Haround].
    unfold st, matched, getProgram. simpl frames. simpl before. simpl after.
    rewrite !Haround, !definedIds_app, !definedIds_cons, definedIds_app, Hdefs.
    unfold created. simpl freshIds. simpl nextId.
    unfold AffineReduce.toOperation. simpl definitions.
    unfold definedIds at 3. simpl.
    solve_Permutation. }
  split; [exact Hnext|]. split; [exact Hperm|].
  intros Hs.
  apply (singleDefinition_extend next (nextId stC) created (getProgram st) _ []);
    try done.
  by rewrite app_nil_r.
Qed.

Lemma reduce_rewrite_single_definition_witness :
  let st := matched [] [AffineLoadOp (exVal f64) (exBuffer f64) identityMap2
                          [exI; exJ]]
              (AffineReduce.toOperation (exReduce f64 AggregationKind.max)) [] 5 in
  singleDefinition 5 (getProgram st) ∧
  ∃ st',
    AffineReduceOpConversion.rewrite (exReduce f64 AggregationKind.max) st
    = Ok tt st' ∧
    nextId st' = 8%positive ∧
    definedIds (getProgram st') = [2; 5; 6; 7]%positive ∧
    singleDefinition 8 (getProgram st').
Proof.
  intros st.
  assert (Hs : singleDefinition 5 (getProgram st)).
  { split.
    - by apply (bool_decide_unpack _).
    - apply Forall_forall. by apply (bool_decide_unpack _). }
  split; [exact Hs|].
  destruct (reduce_rewrite_single_definition
              (exReduce f64 AggregationKind.max) []
              [AffineLoadOp (exVal f64) (exBuffer f64) identityMap2 [exI; exJ]]
              [] 5 [4; 8] f64 eq_refl eq_refl eq_refl)
    as (st' & Hrw & Hnext & _ & Hkeep).
  exists st'. split; [exact Hrw|].
  assert (Hn : nextId st' = 8%positive) by (cbn in Hnext; lia).
  split; [exact Hn|]. split.
  - fold st in Hrw. vm_compute in Hrw. injection Hrw as <-. reflexivity.
  - rewrite <- Hn. exact (Hkeep Hs).
Defined.

(** ** Not-a-number and ties in float maximum and minimum *)

(** X10.  A float maximum or minimum never takes a not-a-number from V: the
    compare is ordered, so with V not-a-number the select keeps the loaded
    value L.  The combined value is therefore not-a-number exactly when L
    is.  When V and L compare equal, zeros of opposite sign included, the
    strict compare fails and the combined value is L as well. *)
Theorem float_max_min_skip_nan_value
    (op : AffineReduce.t) (source : Value) (st : Rewriter)
    (env : gmap positive RVal) (k : FloatKind) (L V : spec_float) :
  AffineReduce.agg op = AggregationKind.max ∨
  AffineReduce.agg op = AggregationKind.min →
  vtype source = FloatType k →
  vtype (AffineReduce.val op) = FloatType k →
  (vid source < nextId st)%positive →
  (vid (AffineReduce.val op) < nextId st)%positive →
  env !! vid source = Some (RFloat L) →
  env !! vid (AffineReduce.val op) = Some (RFloat V) →
  ∃ r st' ops x,
    AffineReduceOpConversion.createReduction op source st = Ok r st' ∧
    emitted st st' ops ∧
    (evalOps ops env ≫= (.!! vid r)) = Some (RFloat x) ∧
    (V = S754_nan → x = L) ∧
    (x = S754_nan ↔ L = S754_nan) ∧
    (SFcompare V L = Some Eq → x = L).
Proof.
  intros Hagg Hs Hv Hsold Hvold HL HV.
  assert (Hx : ∃ x, combineFloat k (AffineReduce.agg op) L V = Some x ∧
                    (V = S754_nan → x = L) ∧
                    (x = S754_nan ↔ L = S754_nan) ∧
                    (SFcompare V L = Some Eq → x = L)).
  { destruct Hagg as [-> | ->]; simpl; eexists; (split; [reflexivity|]).
    - destruct (bool_decide (SFcompare V L = Some Gt)) eqn:E.
      + apply bool_decide_eq_true_1 in E.
        split_and!; [by intros ->| |by rewrite E].
        split; intros ->; [done|by destruct V].
      + by split_and!.
    - destruct (bool_decide (SFcompare V L = Some Lt)) eqn:E.
      + apply bool_decide_eq_true_1 in E.
        split_and!; [by intros ->| |by rewrite E].
        split; intros ->; [done|by destruct V].
      + by split_and!. }
  destruct Hx as (x & Hcomb & Hnan & Hiff & Htie).
  destruct (createReduction_float op source st env Hsold Hvold k L V x
              Hs Hv HL HV Hcomb) as (r & st' & ops & Hred & Hem & Hev).
  by exists r, st', ops, x.
Qed.

Lemma float_max_min_skip_nan_value_witness :
  let op := exReduce f64 AggregationKind.max in
  let st := afterLoad [] [] op (exSource f64) [] 5 in
  let env : gmap positive RVal :=
    <[vid (exSource f64) := RFloat (floatOfZ F64 3)]>
      (<[vid (exVal f64) := RFloat S754_nan]> ∅) in
  ∃ r st' ops,
    AffineReduceOpConversion.createReduction op (exSource f64) st = Ok r st' ∧
    emitted st st' ops ∧
    (evalOps ops env ≫= (.!! vid r)) = Some (RFloat (floatOfZ F64 3)).
Proof.
  intros op st env.
  destruct (float_max_min_skip_nan_value op (exSource f64) st env F64
              (floatOfZ F64 3) S754_nan)
    as (r & st' & ops & x & Hred & Hem & Hev & Hnan & _).
  - by left.
  - reflexivity.
  - reflexivity.
  - reflexivity.
  - reflexivity.
  - reflexivity.
  - reflexivity.
  - exists r, st', ops. split; [exact Hred|]. split; [exact Hem|].
    rewrite Hev, (Hnan eq_refl). reflexivity.
Defined.

(** ** The loop pattern, then the reduce pattern *)

Section InNest.
Import AffineParallel.
Variables (op : AffineParallel.t) (outer : list Frame).
Variables (pre post : list Operation) (next : positive).

(** A block put at the innermost place of the lowered nest. *)
Lemma insertAt_lowered (blk : list Operation) :
  let σ := renaming (getArguments op) (newInductionVars op next) in
  insertAt blk (lowered op outer pre post next)
  = close (mapFrame σ <$> outer)
      ((mapOperands σ <$> pre)
         ++ loopNest (σ <$> getLowerBoundsOperands op)
                     (σ <$> getUpperBoundsOperands op)
                     (dimensions op (newInductionVars op next)) blk
         ++ (mapOperands σ <$> post)).
Proof.
  intros σ. unfold lowered. fold σ.
  by rewrite mapRewriter_descend, insertAt_descend.
Qed.

Lemma getProgram_matchedInNest pre_b o post_b :
  let σ := renaming (getArguments op) (newInductionVars op next) in
  getProgram (matchedInNest op outer pre post next pre_b o post_b)
  = mapOperands σ
      <$> close outer (pre ++ nestOf op next (pre_b ++ o :: post_b) ++ post).
Proof.
  intros σ.
  pose proof (insertAt_lowered
                ((mapOperands σ <$> pre_b)
                   ++ mapOperands σ o :: (mapOperands σ <$> post_b))) as H.
  cbv zeta in H. fold σ in H.
  rewrite close_mapOperands, !fmap_app. unfold nestOf.
  rewrite loopNest_mapOperands, fmap_app, fmap_cons. rewrite <- H.
  unfold matchedInNest, matched, getProgram, insertAt. fold σ.
  remember (lowered op outer pre post next) as nest eqn:Hnest.
  cbn [frames before after]. by rewrite <- !app_assoc.
Qed.

Lemma nextId_lowered :
  Z.pos (nextId (lowered op outer pre post next))
  = Z.pos next + Z.of_nat (length (dimensions op (newInductionVars op next))).
Proof.
  unfold lowered. change (nextId (mapRewriter ?f ?s)) with (nextId s).
  by rewrite nextId_descend.
Qed.

End InNest.

(** The loop pattern on a verified loop, with the counter it leaves. *)
Lemma rewrite_program_next
    (op : AffineParallel.t) (outer : list Frame) (pre post : list Operation)
    (next : positive) (moved : list Operation) (terminator : Operation) :
  verified op →
  AffineParallel.getOperations op = moved ++ [terminator] →
  ∃ st',
    AffineParallelOpConversion.rewrite op
      (matched outer pre (AffineParallel.toOperation op) post next)
    = Ok tt st' ∧
    getProgram st'
    = mapOperands (renaming (AffineParallel.getArguments op)
                     (newInductionVars op next))
        <$> close outer (pre ++ nestOf op next moved ++ post) ∧
    Z.pos (nextId st')
    = Z.pos next
      + Z.of_nat (length (dimensions op (newInductionVars op next))).
Proof.
  intros Hv Hbody.
  pose proof (verified_creatable op Hv) as Hc.
  set (σ := renaming (AffineParallel.getArguments op) (newInductionVars op next)).
  destruct (eraseOp_spliced op outer pre post next moved terminator σ)
    as (st' & Herase & Hprog).
  exists st'. split_and!; [|exact Hprog|].
  - unfold AffineParallelOpConversion.rewrite, bind.
    rewrite createLoops_creatable by done.
    rewrite (spliceBody_spliced _ _ _ _ _ _ _ Hc Hbody).
    rewrite replaceArguments_renaming; [exact Herase|].
    destruct Hv as [Hargs _].
    unfold newInductionVars. rewrite freshValues_length. simpl. lia.
  - rewrite (nextId_eraseOp _ _ Herase).
    change (nextId (mapRewriter σ ?s)) with (nextId s).
    apply nextId_spliced.
Qed.

(** X11.  A loop around a reduce, lowered by the two patterns in turn.  The
    loop pattern leaves the reduce, with the block arguments renamed, in the
    innermost loop of the nest; the reduce pattern, applied there with the
    counter the loop pattern left, replaces it by load, combine and store on
    the renamed memref and indices.  The program that results is the nest
    around the rest of the body with load, combine and store where the
    reduce stood. *)
Theorem parallel_then_reduce
    (op : AffineParallel.t) (outer : list Frame) (pre post : list Operation)
    (next : positive) (pre_b post_b : list Operation) (r : AffineReduce.t)
    (terminator : Operation) (sh : list Z) (elementType : MType) :
  let σ := renaming (AffineParallel.getArguments op) (newInductionVars op next) in
  let r' := renameReduce σ r in
  let focus := matchedInNest op outer pre post next pre_b
                 (AffineReduce.toOperation r) post_b in
  verified op →
  AffineParallel.getOperations op
  = pre_b ++ AffineReduce.toOperation r :: post_b ++ [terminator] →
  AggregationKind.supported (AffineReduce.agg r) = true →
  vtype (AffineReduce.out r') = MemRefType sh elementType →
  getNumInputs (AffineReduce.map r) = length (AffineReduce.idxs r) →
  ∃ st1 st2 combined ops,
    AffineParallelOpConversion.rewrite op
      (matched outer pre (AffineParallel.toOperation op) post next)
    = Ok tt st1 ∧
    getProgram focus = getProgram st1 ∧ nextId focus = nextId st1 ∧
    AffineReduceOpConversion.rewrite r' focus = Ok tt st2 ∧
    Forall (λ o, isArithmetic o = true) ops ∧
    length ops = combineSize (AffineReduce.agg r) ∧
    getProgram st2
    = close (mapFrame σ <$> outer)
        ((mapOperands σ <$> pre)
           ++ loopNest (σ <$> AffineParallel.getLowerBoundsOperands op)
                (σ <$> AffineParallel.getUpperBoundsOperands op)
                (dimensions op (newInductionVars op next))
                ((mapOperands σ <$> pre_b)
                   ++ AffineLoadOp (mkValue (nextId st1) elementType)
                        (AffineReduce.out r') (AffineReduce.map r')
                        (AffineReduce.idxs r')
                   :: ops
                   ++ AffineStoreOp combined (AffineReduce.out r')
                        (AffineReduce.map r') (AffineReduce.idxs r')
                   :: (mapOperands σ <$> post_b))
           ++ (mapOperands σ <$> post)).
Proof.
  intros σ r' focus Hv Hbody Hsup Hty Hidx.
  destruct (rewrite_program_next op outer pre post next
              (pre_b ++ AffineReduce.toOperation r :: post_b) terminator Hv)
    as (st1 & Hrw1 & Hprog1 & Hnext1).
  { by rewrite Hbody, <- app_assoc. }
  assert (Hnext : nextId (lowered op outer pre post next) = nextId st1).
  { pose proof (nextId_lowered op outer pre post next) as Hl. lia. }
  set (nest := lowered op outer pre post next).
  set (source := mkValue (nextId st1) elementType).
  assert (Hidx' : getNumInputs (AffineReduce.map r')
                  = length (AffineReduce.idxs r')).
  { unfold r', renameReduce. simpl. by rewrite length_fmap. }
  destruct (createReduction_shape r' source
              (afterLoad (frames nest)
                 (before nest ++ (mapOperands σ <$> pre_b)) r' source
                 ((mapOperands σ <$> post_b) ++ after nest) (nextId st1)) Hsup)
    as (combined & stC & ops & Hred & Hem & Harith & Hlen).
  pose proof (rewrite_steps r' (frames nest)
                (before nest ++ (mapOperands σ <$> pre_b))
                ((mapOperands σ <$> post_b) ++ after nest) (nextId st1)
                sh elementType combined stC ops Hty Hidx' Hred Hem) as Hrw2.
  eexists st1, _, combined, ops. split_and!.
  - exact Hrw1.
  - unfold focus. rewrite getProgram_matchedInNest. by rewrite Hprog1.
  - exact Hnext.
  - unfold focus, matchedInNest. fold σ nest.
    change (mapOperands σ (AffineReduce.toOperation r))
      with (AffineReduce.toOperation r').
    fold nest in Hnext. rewrite Hnext. exact Hrw2.
  - exact Harith.
  - exact Hlen.
  - rewrite <- (insertAt_lowered op outer pre post next). fold nest.
    clearbody nest. unfold insertAt, getProgram. simpl.
    rewrite <- !app_assoc. do 3 f_equal. simpl. f_equal.
    by rewrite <- !app_assoc.
Qed.

Lemma parallel_then_reduce_witness :
  verified exParallel ∧
  ∃ st1 st2,
    AffineParallelOpConversion.rewrite exParallel exParallelState = Ok tt st1 ∧
    AffineReduceOpConversion.rewrite
      (renameReduce (renaming [exI; exJ] (newInductionVars exParallel 5))
         (exReduce f64 AggregationKind.add))
      (matchedInNest exParallel [] [] [] 5 []
         (AffineReduce.toOperation (exReduce f64 AggregationKind.add)) [])
    = Ok tt st2 ∧
    getProgram st2
    = [AffineForOp [] (constantMap [0]) [] (constantMap [4]) 1
         (mkValue 5 IndexType)
         [AffineForOp [] (constantMap [0]) [] (constantMap [8]) 2
            (mkValue 6 IndexType)
            [AffineLoadOp (mkValue 7 f64) (exBuffer f64) identityMap2
               [mkValue 5 IndexType; mkValue 6 IndexType];
             AddFOp (mkValue 8 f64) (mkValue 7 f64) (exVal f64);
             AffineStoreOp (mkValue 8 f64) (exBuffer f64) identityMap2
               [mkValue 5 IndexType; mkValue 6 IndexType];
             AffineTerminatorOp];
          AffineTerminatorOp]].
Proof.
  split; [exact exParallel_verified|].
  destruct (parallel_then_reduce exParallel [] [] [] 5 [] []
              (exReduce f64 AggregationKind.add) AffineTerminatorOp [4; 8] f64
              exParallel_verified eq_refl eq_refl eq_refl eq_refl)
    as (st1 & st2 & combined & ops & Hrw1 & _ & _ & Hrw2 & _).
  exists st1, st2. split; [exact Hrw1|]. split; [exact Hrw2|].
  vm_compute in Hrw2. injection Hrw2 as <-. reflexivity.
Defined.

(** ** What the target of the pass makes legal *)

(** X12.  The target the pass sets up answers for every operation name: an
    operation is illegal exactly when it is [affine.parallel] or belongs to
    the PXA dialect, legal exactly when it is another operation of the
    Affine dialect or one of the Standard dialect, and the target says
    nothing about operations of any other dialect.  The entry for
    [affine.parallel] takes precedence over the one for its dialect. *)
Theorem target_legality (dialectOf : string → Dialect) (n : OperationName) :
  (isIllegal dialectOf n = true
   ↔ n = AffineParallelOpName ∨ getDialect dialectOf n = PXADialect) ∧
  (isLegal dialectOf n = true
   ↔ n ≠ AffineParallelOpName ∧
     (getDialect dialectOf n = AffineDialect
      ∨ getDialect dialectOf n = StandardOpsDialect)) ∧
  (getOpAction dialectOf target n = None
   ↔ getDialect dialectOf n = OtherDialect).
Proof.
  unfold isIllegal, isLegal. rewrite !bool_decide_eq_true.
  unfold getOpAction, target. simpl.
  destruct (decide (n = AffineParallelOpName)) as [->|Hn].
  - simpl. split_and!; split; try done; try tauto.
  - destruct (getDialect dialectOf n) eqn:Hd; simpl;
      split_and!; split; try done; try tauto; intros; try discriminate;
      intuition congruence.
Qed.
